(** * DosNa: chunked n-dimensional datasets over an object pool and in RAM

    A shallow embedding of [dosna/dataset.py] (the pool engine) and of
    [dosna/backends/ram.py] (the in-memory backend), with the properties
    the specification states about them.

    Conventions of the embedding:
    - Python integers are [Z]; list positions and ranks are [nat].
    - A Python exception is a constructor of [exn]; a [DatasetException]
      carries the message of its raise site, so that two raise sites of
      the same class can be told apart.
    - A function that can raise returns a [result]; a method that works
      on the pool is a function from the pool to a result and the pool
      it leaves ([M]).
    - An array is its shape, its element type and its cells keyed by
      multi-index, with integer elements.
    - The thread pool of the parallel paths runs its jobs one after
      another in an order of its own choice, a rearrangement of the list
      of jobs it is given. *)

From Stdlib Require Import ZArith Lia Ascii.
From stdpp Require Import base numbers option list strings gmap pretty.

Open Scope Z_scope.

(** ** Exceptions and results *)

(** The messages of the [DatasetException]s raised in dataset.py. *)
Inductive ds_message : Type :=
  | InvalidSlicingType      (* 'Invalid Slicing with index of type ...' *)
  | InvalidSlicingRank      (* 'Invalid slicing of dataset of dimension ...' *)
  | OutOfBoundsSlicing      (* 'Only possitive and in-bounds slicing supported' *)
  | NonUnitStep             (* 'Only slicing with step 1 supported' *)
  | InvalidEntryType        (* 'Invalid type ... in slicing' *)
  | ObjectAlreadyExists     (* 'Object ... already exists in pool ...' *)
  | ChunkDimMismatch        (* 'Dimension of chunks does not match the data shape' *)
  | OutOfLimitsChunk        (* 'Out of limits chunk indexing of chunk ...' *)
  | IncorrectChunkIndex     (* 'Incorrect chunk indexing format ...' *)
  | NoDatasetFound          (* 'No dataset ... found in pool ...' *)
  | NoChunkFound            (* 'No chunk ... found on pool ...' *)
  | ChunkShapeMismatch      (* 'Cannot set chunk of shape ...' *)
  | DataShapeMismatch       (* 'Data shape ... does not match chunk shape ...' *)
  | ReadOnlyDataset         (* 'Dataset ... is read-only' *)
  | IncorrectMemmap.        (* 'Incorrect shape or values for memmapping' *)

Inductive exn : Type :=
  | DatasetException (m : ds_message)
  | ObjectNotFound          (* rados.ObjectNotFound *)
  | IndexError              (* sequence index out of range *)
  | ValueError              (* numpy: shapes do not agree, bad flat index *)
  | TypeError
  | AttributeError
  | NoData                  (* rados.NoData: the attribute is not set *)
  | GroupNotFoundError (path : string)
  | ExcNotAlphanumeric (path : string)   (* Exception("String ", path, "is not alphanumeric") *)
  | ExcGroupExists (path : string).      (* Exception("Group", path, "already exists") *)

Inductive result (A : Type) : Type :=
  | OK (a : A)
  | Raise (e : exn).
Arguments OK {A} a.
Arguments Raise {A} e.

Definition rbind {A B} (r : result A) (k : A → result B) : result B :=
  match r with
  | OK a => k a
  | Raise e => Raise e
  end.

Notation "x ←! r ; k" := (rbind r (λ x, k))
  (at level 20, r at level 100, k at level 200, right associativity, only parsing).
Notation "' p ←! r ; k" := (rbind r (λ x, match x with p => k end))
  (at level 20, p pattern, r at level 100, k at level 200, right associativity, only parsing).

(** The error kind the specification calls InvalidIndex: the
    [DatasetException]s of the slicing algebra and of chunk indexing. *)
Definition InvalidIndex (e : exn) : Prop :=
  match e with
  | DatasetException InvalidSlicingType
  | DatasetException InvalidSlicingRank
  | DatasetException OutOfBoundsSlicing
  | DatasetException NonUnitStep
  | DatasetException InvalidEntryType
  | DatasetException OutOfLimitsChunk
  | DatasetException IncorrectChunkIndex => True
  | _ => False
  end.

(** ** Slices and indexes *)

(** A normalized [slice(start, stop)]. *)
Record slice : Type := Slice { start : Z; stop : Z }.

#[global] Instance slice_inhabited : Inhabited slice := populate (Slice 0 0).

(** One entry of an index as the caller writes it: an [int], a
    [slice(start, stop, step)] whose fields may be [None], [Ellipsis], or
    an object of any other type. *)
Inductive entry : Type :=
  | EInt (i : Z)
  | ESlice (s_start s_stop s_step : option Z)
  | EEllipsis
  | EOther.

(** The argument of [Dataset.__getitem__]: a bare object or a list/tuple. *)
Inductive index : Type :=
  | IOne (e : entry)
  | ISeq (es : list entry).

(** [slice(None)] *)
Definition full_slice : entry := ESlice None None None.

(** ** The pool-engine Dataset (dataset.py) *)

Record Dataset : Type := {
  name : string;
  shape : list Z;
  dtype : string;
  fillvalue : Z;
  chunks : list Z;        (* the chunk grid *)
  chunk_size : list Z;
  njobs : option Z;
  read_only : bool
}.

Definition ndim (ds : Dataset) : nat := length (shape ds).

(** [np.prod] *)
Definition prod (l : list Z) : Z := foldr Z.mul 1 l.

Definition total_chunks (ds : Dataset) : Z := prod (chunks ds).

(** *** Dataset._process_slices *)

Definition is_ellipsis (e : entry) : bool :=
  match e with EEllipsis => true | _ => false end.

(** [slices.index(Ellipsis)], [None] when [Ellipsis not in slices]. *)
Fixpoint index_of_ellipsis (slices : list entry) : option nat :=
  match slices with
  | [] => None
  | e :: rest => if is_ellipsis e then Some 0%nat
                 else S <$> index_of_ellipsis rest
  end.

(** The loop [while Ellipsis in slices: ...]. Every round removes one
    [Ellipsis] and inserts none, so [length slices] rounds suffice
    ([expand_loop_complete] below). *)
Fixpoint expand_loop (fuel nmiss : nat) (slices : list entry) : list entry :=
  match fuel with
  | O => slices
  | S fuel' =>
      match index_of_ellipsis slices with
      | None => slices
      | Some idx =>
          expand_loop fuel' nmiss
            (take idx slices ++ replicate (S nmiss) full_slice ++ drop (S idx) slices)
      end
  end.

Definition expand_ellipsis (nmiss : nat) (slices : list entry) : list entry :=
  expand_loop (length slices) nmiss slices.

(** [self.shape[i]] *)
Definition shape_at (ds : Dataset) (i : nat) : result Z :=
  match shape ds !! i with
  | Some n => OK n
  | None => Raise IndexError
  end.

(** The body of the loop [for i, s in enumerate(slices)]: the normalized
    slice, and whether axis [i] is recorded in [squeeze_axis]. The
    conditions are evaluated left to right as Python's [or] does. *)
Definition process_entry (ds : Dataset) (i : nat) (s : entry) : result (slice * bool) :=
  match s with
  | EInt z => OK (Slice z (z + 1), true)
  | ESlice s_start s_stop s_step =>
      let start := default 0 s_start in
      stop ←! match s_stop with
              | Some v => OK v
              | None => shape_at ds i
              end;
      bad_start ←! (if start <? 0 then OK true
                    else n ←! shape_at ds i; OK (n <=? start));
      if (bad_start : bool) then Raise (DatasetException OutOfBoundsSlicing) else
      bad_stop ←! (if stop <? 0 then OK true
                   else n ←! shape_at ds i;
                        OK ((n <? stop) || (stop <? start)));
      if (bad_stop : bool) then Raise (DatasetException OutOfBoundsSlicing) else
      match s_step with
      | Some k => if negb (k =? 1) then Raise (DatasetException NonUnitStep)
                  else OK (Slice start stop, false)
      | None => OK (Slice start stop, false)
      end
  | EEllipsis | EOther => Raise (DatasetException InvalidEntryType)
  end.

Fixpoint process_entries (ds : Dataset) (i : nat) (slices : list entry)
  : result (list slice * list nat) :=
  match slices with
  | [] => OK ([], [])
  | s :: rest =>
      '(sl, squeezed) ←! process_entry ds i s;
      '(final_slices, squeeze_axis) ←! process_entries ds (S i) rest;
      OK (sl :: final_slices,
          if (squeezed : bool) then i :: squeeze_axis else squeeze_axis)
  end.

(** The first two stages: wrap a bare index, then fit the list to the
    rank of the dataset. *)
Definition wrap_index (slices : index) : result (list entry) :=
  match slices with
  | IOne (EInt i) => OK [EInt i]
  | IOne (ESlice a b c) => OK [ESlice a b c]
  | IOne EEllipsis => OK [full_slice]
  | IOne EOther => Raise (DatasetException InvalidSlicingType)
  | ISeq es => OK es
  end.

Definition fit_to_rank (ds : Dataset) (slices : list entry) : result (list entry) :=
  if (length slices <=? ndim ds)%nat then
    let nmiss := (ndim ds - length slices)%nat in
    let slices := expand_ellipsis nmiss slices in
    if (length slices <? ndim ds)%nat
    then OK (slices ++ replicate nmiss full_slice)
    else OK slices
  else Raise (DatasetException InvalidSlicingRank).

(** [_process_slices(slices, detect_squeeze)]: the second component is
    [Some squeeze_axis] exactly when [detect_squeeze] is set. *)
Definition _process_slices (ds : Dataset) (slices : index) (detect_squeeze : bool)
  : result (list slice * option (list nat)) :=
  slices ←! wrap_index slices;
  slices ←! fit_to_rank ds slices;
  '(final_slices, squeeze_axis) ←! process_entries ds 0 slices;
  OK (final_slices, if detect_squeeze then Some squeeze_axis else None).

(** *** Dataset._get_chunk_slice_iterator *)

(** [range(a, b)] *)
Definition range (a b : Z) : list Z := seqZ a (b - a).

(** The three lists built for one axis, [index], [ltarget] and [gtarget],
    from the slice of the axis, the chunk size of the axis and the number
    of chunks of the axis. Python's [//] is the floor division of [Z]; on
    a chunk size of 0 Python raises, a case no dataset that [create]
    made and no statement below reaches. *)
Record axis_targets : Type := AxisTargets {
  index_ax : list Z;
  ltarget : list slice;
  gtarget : list slice
}.

Definition axis_chunks (slice_axis : slice) (chunk_axis_size max_chunks : Z)
  : axis_targets :=
  let start_chunk := start slice_axis / chunk_axis_size in
  let end_chunk := Z.min (stop slice_axis / chunk_axis_size) (max_chunks - 1) in
  let pad_start := start slice_axis - start_chunk * chunk_axis_size in
  let pad_stop := stop slice_axis - Z.max 0 end_chunk * chunk_axis_size in
  let lstart i := if i =? start_chunk then pad_start else 0 in
  let lstop i := if i =? end_chunk then pad_stop else chunk_axis_size in
  let gchunk i := i * chunk_axis_size - start slice_axis in
  let touched := range start_chunk (end_chunk + 1) in
  {| index_ax := touched;
     ltarget := (λ i, Slice (lstart i) (lstop i)) <$> touched;
     gtarget := (λ i, Slice (gchunk i + lstart i) (gchunk i + lstop i)) <$> touched |}.

(** [zip(slices, self.chunk_size, self.chunks)], stopping at the shortest. *)
Fixpoint zip_axes (slices : list slice) (sizes grid : list Z) : list axis_targets :=
  match slices, sizes, grid with
  | s :: slices', c :: sizes', m :: grid' =>
      axis_chunks s c m :: zip_axes slices' sizes' grid'
  | _, _, _ => []
  end.

(** [np.ndindex] applied to the extents [lens]: all multi-indexes below
    [lens], last axis fastest. *)
Fixpoint ndindex (lens : list nat) : list (list nat) :=
  match lens with
  | [] => [[]]
  | n :: rest => j ← seq 0 n; (j ::.) <$> ndindex rest
  end.

(** One record yielded by the iterator. *)
Record chunk_record : Type := ChunkRecord {
  rec_index : list Z;          (* tuple(_index) *)
  rec_lslice : list slice;     (* _lslice *)
  rec_gslice : list slice      (* _gslice *)
}.

(** The inner loop [for n, j in enumerate(idx)]: picks position [j] of the
    lists of axis [n]. Positions produced by [ndindex] are always inside
    the lists, so the default of the total lookup is never used. *)
Fixpoint pick_axes (axes : list axis_targets) (idx : list nat) : chunk_record :=
  match axes, idx with
  | ax :: axes', j :: idx' =>
      let r := pick_axes axes' idx' in
      {| rec_index := (index_ax ax !!! j) :: rec_index r;
         rec_lslice := (ltarget ax !!! j) :: rec_lslice r;
         rec_gslice := (gtarget ax !!! j) :: rec_gslice r |}
  | _, _ => ChunkRecord [] [] []
  end.

(** The records yielded by [__chunk_iterator()], in order. *)
Definition _get_chunk_slice_iterator (ds : Dataset) (slices : list slice)
  : list chunk_record :=
  let axes := zip_axes slices (chunk_size ds) (chunks ds) in
  pick_axes axes <$> ndindex ((λ chunks_axis, length (index_ax chunks_axis)) <$> axes).

(** ** n-dimensional arrays

    The fragment of numpy that the engine uses. An array is its shape and
    its cells, keyed by multi-index; elements are integers (the encoding
    of an element type in bytes is not modelled). *)

Record ndarray : Type := NdArray {
  arr_shape : list Z;
  arr_dtype : string;
  arr_cells : gmap (list Z) Z
}.

(** All multi-indexes of an array of the given extents, in row-major
    order. *)
Fixpoint points (extents : list Z) : list (list Z) :=
  match extents with
  | [] => [[]]
  | n :: rest => x ← seqZ 0 n; (x ::.) <$> points rest
  end.

(** The array of the given extents whose cell [q] holds [f q]. *)
Definition tabulate (extents : list Z) (f : list Z → Z) : gmap (list Z) Z :=
  list_to_map ((λ q, (q, f q)) <$> points extents).

(** [np.full(shape, v, dtype)]; numpy rejects negative extents. *)
Definition np_full (shape : list Z) (v : Z) (dtype : string) : result ndarray :=
  if forallb (λ n, 0 <=? n) shape
  then OK (NdArray shape dtype (tabulate shape (λ _, v)))
  else Raise ValueError.

(** [slice(start, stop).indices(n)] for a unit step: the first selected
    position and the number of selected positions. A negative bound
    counts from the end and every bound is clipped to the axis. *)
Definition clip (v n : Z) : Z :=
  if v <? 0 then Z.max 0 (v + n) else Z.min v n.

Definition slice_indices (s : slice) (n : Z) : Z * Z :=
  let a := clip (start s) n in
  let b := clip (stop s) n in
  (a, Z.max 0 (b - a)).

(** The selection of a list of slices on an array: origin and extent per
    axis; axes without a slice are selected whole. *)
Definition selection (slices : list slice) (shape : list Z) : list (Z * Z) :=
  zip_with slice_indices slices shape
    ++ ((λ n, (0, n)) <$> drop (length slices) shape).

(** [a[slices]] for a list of unit-step slices. *)
Definition np_getitem (a : ndarray) (slices : list slice) : result ndarray :=
  if (length (arr_shape a) <? length slices)%nat then Raise IndexError else
  let sel := selection slices (arr_shape a) in
  OK (NdArray (snd <$> sel) (arr_dtype a)
        (tabulate (snd <$> sel)
           (λ q, arr_cells a !!! zip_with Z.add (fst <$> sel) q))).

(** The cell [q] of a selection of extents [extents] read from a value of
    shape [vshape] that is broadcast to the selection: an axis of extent
    1 of the value is repeated. *)
Definition broadcastable (vshape extents : list Z) : bool :=
  (length vshape =? length extents)%nat
  && forallb (λ '(v, e), (v =? e) || (v =? 1)) (zip vshape extents).

Definition broadcast_index (vshape : list Z) (q : list Z) : list Z :=
  zip_with (λ v x, if v =? 1 then 0 else x) vshape q.

Definition in_selection (k : list Z) (sel : list (Z * Z)) : bool :=
  (length k =? length sel)%nat
  && forallb (λ '(x, (a, e)), (a <=? x) && (x <? a + e)) (zip k sel).

(** [a[slices] = value], returning the updated array: every cell of [a]
    inside the selection takes the corresponding cell of the value.
    Only values of the rank of the selection are modelled; numpy raises
    [ValueError] when the value does not broadcast to the selection. *)
Definition np_setitem (a : ndarray) (slices : list slice) (value : ndarray)
  : result ndarray :=
  if (length (arr_shape a) <? length slices)%nat then Raise IndexError else
  let sel := selection slices (arr_shape a) in
  if broadcastable (arr_shape value) (snd <$> sel) then
    OK (NdArray (arr_shape a) (arr_dtype a)
          (map_imap (λ k old,
             if in_selection k sel
             then Some (arr_cells value
                          !!! broadcast_index (arr_shape value)
                                (zip_with Z.sub k (fst <$> sel)))
             else Some old) (arr_cells a)))
  else Raise ValueError.

(** [a.tobytes()] and [np.fromstring(bytes, count=n)] followed by the
    in-place reshape: the elements in row-major order. *)
Definition tobytes (a : ndarray) : list Z :=
  (λ q, arr_cells a !!! q) <$> points (arr_shape a).

Definition fromstring (elems : list Z) (dtype : string) (shape : list Z)
  : result ndarray :=
  if forallb (λ n, 0 <=? n) shape && (prod shape <=? Z.of_nat (length elems))
  then OK (NdArray shape dtype (list_to_map (zip (points shape) elems)))
  else Raise ValueError.

(** ** The object pool

    The pool handed to the engine ([pool.stat], [pool.has_chunk],
    [pool.read], ...) and the helpers of [dosna/utils] are not among the
    sources; they are modelled from the specification. *)

(** Modelled from the spec: the payload of a pool object, written and
    read as a whole. The signature marker of a dataset is a text; the
    payload of a chunk is its elements in row-major order. *)
Inductive payload : Type :=
  | PText (s : string)
  | PBytes (elems : list Z).

(** Modelled from the spec: the value of an attribute of a pool object.
    The textual encodings of shapes and element types ([shape2str],
    [str2shape], [dtype2str]) round-trip exactly, so an attribute is kept
    decoded. *)
Inductive xattr : Type :=
  | AttrShape (l : list Z)
  | AttrText (s : string)
  | AttrValue (v : Z).

(** Modelled from the spec: a pool is a namespace of named objects, each
    with a payload and a set of attributes by key. *)
Record pool_object : Type := PoolObject {
  obj_payload : payload;
  obj_xattrs : gmap string xattr
}.

(** A computation on the pool: it may change the objects and may raise;
    what was written before an exception stays written. *)
Definition M (A : Type) : Type :=
  gmap string pool_object → result A * gmap string pool_object.

Definition mret {A} (a : A) : M A := λ σ, (OK a, σ).
Definition mraise {A} (e : exn) : M A := λ σ, (Raise e, σ).
Definition lift {A} (r : result A) : M A := λ σ, (r, σ).

Definition mbind_pool {A B} (m : M A) (k : A → M B) : M B :=
  λ σ, match m σ with
       | (OK a, σ') => k a σ'
       | (Raise e, σ') => (Raise e, σ')
       end.

Notation "x ←$ m ; k" := (mbind_pool m (λ x, k))
  (at level 20, m at level 100, k at level 200, right associativity, only parsing).
Notation "' p ←$ m ; k" := (mbind_pool m (λ x, match x with p => k end))
  (at level 20, p pattern, m at level 100, k at level 200, right associativity, only parsing).

(** [try: body  except <handled>: handler] *)
Definition try_except {A} (body : M A) (handled : exn → bool) (handler : M A)
  : M A :=
  λ σ, match body σ with
       | (Raise e, σ') => if handled e then handler σ' else (Raise e, σ')
       | r => r
       end.

(** [for x in xs: body x] *)
Fixpoint mfor {A} (xs : list A) (body : A → M unit) : M unit :=
  match xs with
  | [] => mret tt
  | x :: rest => _ ←$ body x; mfor rest body
  end.

(** Modelled from the spec: [pool.stat(name)], which raises the
    not-found condition of the client when no object has the name. *)
Definition pool_stat (oname : string) : M unit :=
  λ σ, match σ !! oname with
       | Some _ => (OK tt, σ)
       | None => (Raise ObjectNotFound, σ)
       end.

(** Modelled from the spec: [pool.has_chunk(name)], the existence check
    of an object. *)
Definition pool_has_chunk (oname : string) : M bool :=
  λ σ, (OK (bool_decide (is_Some (σ !! oname))), σ).

(** [Dataset.__signature__] *)
Definition signature : string := "DosNa.Dataset".

(** Modelled from the spec: [pool.has_dataset(name)]; the object of a
    dataset is told from a chunk by its signature marker. *)
Definition pool_has_dataset (oname : string) : M bool :=
  λ σ, (OK (match σ !! oname with
            | Some o => match obj_payload o with
                        | PText s => bool_decide (s = signature)
                        | PBytes _ => false
                        end
            | None => false
            end), σ).

(** Modelled from the spec: [pool.read(name, length, offset)] of the
    whole payload. *)
Definition pool_read (oname : string) : M payload :=
  λ σ, match σ !! oname with
       | Some o => (OK (obj_payload o), σ)
       | None => (Raise ObjectNotFound, σ)
       end.

(** Modelled from the spec: [pool.write_full(name, data)], and
    [pool.write(name, data)] at offset 0: the payload is replaced, the
    attributes of an existing object are kept. *)
Definition pool_write_full (oname : string) (data : payload) : M unit :=
  λ σ, (OK tt,
        <[oname := PoolObject data
                     (match σ !! oname with
                      | Some o => obj_xattrs o
                      | None => ∅
                      end)]> σ).

(** Modelled from the spec: [pool.get_xattr(name, key)]. *)
Definition pool_get_xattr (oname key : string) : M xattr :=
  λ σ, match σ !! oname with
       | Some o => match obj_xattrs o !! key with
                   | Some v => (OK v, σ)
                   | None => (Raise NoData, σ)
                   end
       | None => (Raise ObjectNotFound, σ)
       end.

(** Modelled from the spec: [pool.set_xattr(name, key, value)]; as in
    the object store, setting an attribute of a missing object makes the
    object. *)
Definition pool_set_xattr (oname key : string) (v : xattr) : M unit :=
  λ σ, (OK tt,
        <[oname := match σ !! oname with
                   | Some o => PoolObject (obj_payload o) (<[key := v]> (obj_xattrs o))
                   | None => PoolObject (PBytes []) {[key := v]}
                   end]> σ).

(** Modelled from the spec: [pool.remove_object(name)]. *)
Definition pool_remove_object (oname : string) : M unit :=
  λ σ, match σ !! oname with
       | Some _ => (OK tt, delete oname σ)
       | None => (Raise ObjectNotFound, σ)
       end.

(** [str2shape(pool.get_xattr(name, key))] and the like: the attribute
    decoded, [ValueError] when it is not of the expected kind. *)
Definition get_shape_xattr (oname key : string) : M (list Z) :=
  v ←$ pool_get_xattr oname key;
  match v with AttrShape l => mret l | _ => mraise ValueError end.

Definition get_text_xattr (oname key : string) : M string :=
  v ←$ pool_get_xattr oname key;
  match v with AttrText s => mret s | _ => mraise ValueError end.

Definition get_value_xattr (oname key : string) : M Z :=
  v ←$ pool_get_xattr oname key;
  match v with AttrValue x => mret x | _ => mraise ValueError end.

(** [tshape] of [__getitem__]: the extents of the requested region. *)
Definition tshape (slices : list slice) : list Z :=
  (λ x, stop x - start x) <$> slices.

(** *** DataChunk (dataset.py) *)

Record DataChunk : Type := {
  dc_name : string;
  dc_shape : list Z;
  dc_dtype : string
}.

(** [DataChunk(pool, name)]: [BaseData.__init__] reads the attributes of
    the object, then the chunk must exist. *)
Definition DataChunk_init (oname : string) : M DataChunk :=
  shape ←$ get_shape_xattr oname "shape";
  dtype ←$ get_text_xattr oname "dtype";
  found ←$ pool_has_chunk oname;
  if (found : bool)
  then mret {| dc_name := oname; dc_shape := shape; dc_dtype := dtype |}
  else mraise (DatasetException NoChunkFound).

Definition DataChunk_get_data (chunk : DataChunk) : M ndarray :=
  bytes ←$ pool_read (dc_name chunk);
  match bytes with
  | PBytes elems => lift (fromstring elems (dc_dtype chunk) (dc_shape chunk))
  | PText _ => mraise ValueError
  end.

Definition DataChunk_write (chunk : DataChunk) (data : ndarray) : M unit :=
  pool_write_full (dc_name chunk) (PBytes (tobytes data)).

Definition DataChunk_set_data (chunk : DataChunk) (data : ndarray) : M unit :=
  if bool_decide (arr_shape data = dc_shape chunk)
  then DataChunk_write chunk data
  else mraise (DatasetException ChunkShapeMismatch).

Definition DataChunk_get_slices (chunk : DataChunk) (slices : list slice) : M ndarray :=
  data ←$ DataChunk_get_data chunk;
  lift (np_getitem data slices).

Definition DataChunk_set_slices (chunk : DataChunk) (slices : list slice)
    (value : ndarray) : M unit :=
  data ←$ DataChunk_get_data chunk;
  data ←$ lift (np_setitem data slices value);
  DataChunk_write chunk data.

(** The array that [DataChunk.create] writes, with the shape and element
    type it records. With [slices = None] the assignment
    [cdata[slices] = data] addresses the whole of [cdata] (through a new
    leading axis), which the empty list of slices selects as well. *)
Definition chunk_contents (shape : option (list Z)) (dtype : string)
    (fillvalue : option Z) (data : option ndarray)
    (slices : option (list slice)) : result (ndarray * list Z * string) :=
  match data with
  | None =>
      match shape with
      | None => Raise TypeError
      | Some shape =>
          cdata ←! np_full shape (default 0 fillvalue) dtype;
          OK (cdata, shape, dtype)
      end
  | Some data =>
      data ←! match slices with
              | Some sl => np_getitem data sl
              | None => OK data
              end;
      match shape with
      | None => OK (data, arr_shape data, arr_dtype data)
      | Some shape =>
          if bool_decide (arr_shape data = shape)
          then OK (data, arr_shape data, arr_dtype data)
          else if forallb (λ '(ds, cs), ds <=? cs) (zip (arr_shape data) shape)
          then
            cdata ←! np_full shape (default 0 fillvalue) dtype;
            cdata ←! np_setitem cdata (default [] slices) data;
            OK (cdata, shape, dtype)
          else Raise (DatasetException DataShapeMismatch)
      end
  end.

(** [DataChunk.create] *)
Definition DataChunk_create (oname : string) (shape : option (list Z))
    (dtype : string) (fillvalue : option Z) (data : option ndarray)
    (slices : option (list slice)) : M DataChunk :=
  '(cdata, shape, dtype) ←$
    lift (chunk_contents shape dtype fillvalue data slices);
  _ ←$ pool_write_full oname (PBytes (tobytes cdata));
  _ ←$ pool_set_xattr oname "shape" (AttrShape shape);
  _ ←$ pool_set_xattr oname "dtype" (AttrText dtype);
  DataChunk_init oname.

(** *** Chunk naming and validation *)

(** ['.'.join(l)] *)
Fixpoint join (sep : string) (l : list string) : string :=
  match l with
  | [] => ""
  | [x] => x
  | x :: rest => x +:+ sep +:+ join sep rest
  end.

Definition __chunkname (ds : Dataset) (chunk_idx : list Z) : string :=
  "DataChunk." +:+ name ds +:+ "." +:+ join "." (pretty <$> chunk_idx).

(** The [chunks] argument of [create]: absent, an [int], a sequence, or
    any other object, given by what [int()] makes of it. *)
Inductive int_outcome : Type :=
  | IntValue (c : Z)
  | IntValueError
  | IntTypeError.

Inductive chunks_arg : Type :=
  | ChunksNone
  | ChunksInt (c : Z)
  | ChunksSeq (l : list Z)
  | ChunksOther (as_int : int_outcome).

Definition _validate_chunk_shape (chunks : chunks_arg) (shape : option (list Z))
  : result (list Z) :=
  match shape with
  | None => Raise TypeError
  | Some shape =>
      match chunks with
      | ChunksNone => OK shape
      | ChunksInt c => OK (replicate (length shape) c)
      | ChunksSeq l =>
          if (length l =? length shape)%nat then OK l
          else Raise TypeError       (* int() of a sequence *)
      | ChunksOther (IntValue c) => OK (replicate (length shape) c)
      | ChunksOther IntValueError => Raise (DatasetException ChunkDimMismatch)
      | ChunksOther IntTypeError => Raise TypeError
      end
  end.

(** The argument of the public chunk operations: an [int], a sequence of
    ints, or a one-element sequence that holds the sequence of ints. *)
Inductive chunk_arg : Type :=
  | CInt (i : Z)
  | CSeq (l : list Z)
  | CNested (l : list Z).

(** [np.unravel_index(i, dims)], row-major. *)
Fixpoint unravel (i : Z) (dims : list Z) : list Z :=
  match dims with
  | [] => []
  | _ :: rest => i / prod rest :: unravel (i mod prod rest) rest
  end.

Definition np_unravel_index (i : Z) (dims : list Z) : result (list Z) :=
  if (0 <=? i) && (i <? prod dims) then OK (unravel i dims)
  else Raise ValueError.

(** [_transform_chunk_index]. The test [idx < self.total_chunks] compares
    the one-element sequence with a numpy integer, which numpy evaluates
    on the element. *)
Definition _transform_chunk_index (ds : Dataset) (idx : chunk_arg)
  : result (list Z) :=
  idx ←! match idx with
         | CInt i => OK [i]
         | CSeq [] => Raise IndexError
         | CSeq l => OK l
         | CNested l => OK l
         end;
  idx ←! match idx with
         | [i] => if (1 <? ndim ds)%nat && (i <? total_chunks ds)
                  then np_unravel_index i (chunks ds)
                  else OK idx
         | _ => OK idx
         end;
  if (length idx =? length (shape ds))%nat then
    if existsb (λ '(c1, c2), c2 <=? c1) (zip idx (chunks ds))
    then Raise (DatasetException OutOfLimitsChunk)
    else OK idx
  else Raise (DatasetException IncorrectChunkIndex).

(** *** Chunk management *)

Definition _has_chunk (ds : Dataset) (chunk_idx : list Z) : M bool :=
  pool_has_chunk (__chunkname ds chunk_idx).

Definition _get_existing_chunk (ds : Dataset) (chunk_idx : list Z) : M DataChunk :=
  DataChunk_init (__chunkname ds chunk_idx).

Definition _get_existing_chunk_data (ds : Dataset) (chunk_idx : list Z)
    (slices : option (list slice)) : M ndarray :=
  chunk ←$ _get_existing_chunk ds chunk_idx;
  match slices with
  | None => DataChunk_get_data chunk
  | Some sl => DataChunk_get_slices chunk sl
  end.

Definition _set_existing_chunk_data (ds : Dataset) (chunk_idx : list Z)
    (data : ndarray) (slices : option (list slice)) : M unit :=
  chunk ←$ _get_existing_chunk ds chunk_idx;
  match slices with
  | None => DataChunk_set_data chunk data
  | Some sl => DataChunk_set_slices chunk sl data
  end.

Definition _create_chunk (ds : Dataset) (chunk_idx : list Z)
    (data : option ndarray) (slices : option (list slice)) : M DataChunk :=
  DataChunk_create (__chunkname ds chunk_idx) (Some (chunk_size ds)) (dtype ds)
    (Some (fillvalue ds)) data slices.

Definition _get_chunk (ds : Dataset) (chunk_idx : list Z) : M DataChunk :=
  found ←$ _has_chunk ds chunk_idx;
  if (found : bool) then _get_existing_chunk ds chunk_idx
  else _create_chunk ds chunk_idx None None.

Definition _get_chunk_data (ds : Dataset) (chunk_idx : list Z)
    (slices : option (list slice)) : M ndarray :=
  found ←$ _has_chunk ds chunk_idx;
  if (found : bool) then _get_existing_chunk_data ds chunk_idx slices
  else
    let shape := match slices with
                 | None => chunk_size ds
                 | Some sl => (λ s, stop s - start s) <$> sl
                 end in
    lift (np_full shape (fillvalue ds) (dtype ds)).

Definition _set_chunk_data (ds : Dataset) (chunk_idx : list Z)
    (data : ndarray) (slices : option (list slice)) : M unit :=
  found ←$ _has_chunk ds chunk_idx;
  if (found : bool) then _set_existing_chunk_data ds chunk_idx data slices
  else _ ←$ _create_chunk ds chunk_idx (Some data) slices; mret tt.

(** The public, validated entry points. *)
Definition has_chunk (ds : Dataset) (chunk_idx : chunk_arg) : M bool :=
  chunk_idx ←$ lift (_transform_chunk_index ds chunk_idx);
  _has_chunk ds chunk_idx.

Definition get_chunk (ds : Dataset) (chunk_idx : chunk_arg) : M DataChunk :=
  chunk_idx ←$ lift (_transform_chunk_index ds chunk_idx);
  _get_chunk ds chunk_idx.

Definition process_optional_slices (ds : Dataset) (slices : option index)
  : result (option (list slice)) :=
  match slices with
  | None => OK None
  | Some sl => '(sl, _) ←! _process_slices ds sl false; OK (Some sl)
  end.

Definition get_chunk_data (ds : Dataset) (chunk_idx : chunk_arg)
    (slices : option index) : M ndarray :=
  chunk_idx ←$ lift (_transform_chunk_index ds chunk_idx);
  slices ←$ lift (process_optional_slices ds slices);
  _get_chunk_data ds chunk_idx slices.

Definition set_chunk_data (ds : Dataset) (chunk_idx : chunk_arg)
    (data : ndarray) (slices : option index) : M unit :=
  chunk_idx ←$ lift (_transform_chunk_index ds chunk_idx);
  slices ←$ lift (process_optional_slices ds slices);
  _set_chunk_data ds chunk_idx data slices.

(** [_gchunk_bounds_slices] *)
Fixpoint gchunk_bounds_from (ds : Dataset) (j : nat) (idx sizes : list Z)
  : result (list slice) :=
  match idx, sizes with
  | i :: idx', s :: sizes' =>
      n ←! shape_at ds j;
      rest ←! gchunk_bounds_from ds (S j) idx' sizes';
      OK (Slice (i * s) (Z.min ((i + 1) * s) n) :: rest)
  | _, _ => OK []
  end.

Definition _gchunk_bounds_slices (ds : Dataset) (idx : list Z) : result (list slice) :=
  gchunk_bounds_from ds 0 idx (chunk_size ds).

(** ** Double-precision arithmetic

    [create] computes the chunk grid in float64. The fragment modelled:
    the conversion of an integer, the division of two such doubles
    rounded to the nearest double (ties to even), [np.ceil], and the
    conversion back by [astype(int)]. A double is kept as an exact
    number: an integer, or a significand and an exponent. Exponents
    are not bounded: values beyond the range of a double (above about
    1.8e308) do not overflow here. *)

(** The integer nearest to [num / den], ties to the even one
    ([0 ≤ num], [0 < den]). *)
Definition half_even (num den : Z) : Z :=
  let f := num / den in
  let r2 := 2 * (num mod den) in
  if r2 <? den then f
  else if den <? r2 then f + 1
  else if Z.even f then f else f + 1.

(** [p / q] scaled by [2 ^ (- e)], as a fraction. *)
Definition scaled (p q e : Z) : Z * Z :=
  if 0 <=? e then (p, q * 2 ^ e) else (p * 2 ^ (- e), q).

(** The exponent [e] of the 53-bit significand of [p / q], for positive
    [p] and [q]: [2 ^ 52 ≤ (p / q) / 2 ^ e < 2 ^ 53]. *)
Definition binade (p q : Z) : Z :=
  let e := Z.log2 p - Z.log2 q - 52 in
  let '(num, den) := scaled p q e in
  if num <? 2 ^ 52 * den then e - 1 else e.

(** The double nearest to [p / q] for positive [p] and [q], as
    significand and exponent: its value is [m * 2 ^ e]. *)
Definition round_double (p q : Z) : Z * Z :=
  let e := binade p q in
  let '(num, den) := scaled p q e in
  (half_even num den, e).

(** [float(n)]: the double nearest to the integer [n], itself an
    integer. Integers below [2 ^ 53] in magnitude are doubles. *)
Definition float_of_int (n : Z) : Z :=
  if Z.abs n <? 2 ^ 53 then n
  else let '(m, e) := round_double (Z.abs n) 1 in Z.sgn n * (m * 2 ^ e).

Definition INT64_MIN : Z := - 2 ^ 63.

(** [astype(int)] of an integral double: the C conversion to a 64-bit
    integer. Outside the range of the target the conversion is left to
    the platform; the value that x86-64 gives is taken. *)
Definition int_of_float (v : Z) : Z :=
  if (- 2 ^ 63 <=? v) && (v <? 2 ^ 63) then v else INT64_MIN.

(** [int(np.ceil(float(n) / c))] as numpy computes it. A divisor 0
    gives an infinity or a nan (with a warning, not an exception),
    which [astype(int)] converts as it does a value out of range. *)
Definition np_ceil_div (n c : Z) : Z :=
  let a := float_of_int n in
  let b := float_of_int c in
  if b =? 0 then INT64_MIN
  else if a =? 0 then 0
  else
    let '(m, e) := round_double (Z.abs a) (Z.abs b) in
    let sm := Z.sgn a * Z.sgn b * m in
    int_of_float (if 0 <=? e then sm * 2 ^ e else - ((- sm) / 2 ^ (- e))).

(** *** Reading, writing and creation

    Three things come from outside the repository and are parameters of
    the engine: the default parallelism width of the pool ([pool.njobs]);
    the order in which the thread pool of [joblib.Parallel] runs the tasks
    it is given, as a rearrangement of the task list; and [np.squeeze]. *)

Section engine.
Variable pool_njobs : option Z.
Variable schedule : ∀ A : Type, list A → list A.
Variable np_squeeze : ndarray → list nat → result ndarray.

(** [self.njobs is None or self.njobs == 1] *)
Definition sequential (ds : Dataset) : bool :=
  match njobs ds with
  | None => true
  | Some n => n =? 1
  end.

(** [Parallel(n_jobs=self.njobs, ...)] refuses a width of 0. *)
Definition Parallel (ds : Dataset) : M unit :=
  match njobs ds with
  | Some 0 => mraise ValueError
  | _ => mret tt
  end.

(** [for x in xs: acc = step acc x] *)
Fixpoint mfold {A B} (step : B → A → M B) (acc : B) (xs : list A) : M B :=
  match xs with
  | [] => mret acc
  | x :: rest => acc ←$ step acc x; mfold step acc rest
  end.

(** The body of the sequential loop of [__getitem__], which is also
    [_get_chunk_data_parallel]: [output[gslice] = _get_chunk_data(...)]. *)
Definition _get_chunk_data_parallel (ds : Dataset) (doutput : ndarray)
    (r : chunk_record) : M ndarray :=
  value ←$ _get_chunk_data ds (rec_index r) (Some (rec_lslice r));
  lift (np_setitem doutput (rec_gslice r) value).

(** [np.memmap(filename, dtype, shape=shape, mode='w+')]: a fresh file
    of the size of the array, mapped; it reads as zeros. A file of no
    bytes cannot be mapped: for a shape with an extent of 0 numpy
    raises. *)
Definition np_memmap_new (shape : list Z) (dtype : string) : result ndarray :=
  if prod shape =? 0 then Raise ValueError else np_full shape 0 dtype.

(** [_make_temporary_memmap(filename, data, shape)]: the data dumped
    and mapped back (no caller passes [data]), or, for a shape, a fresh
    file mapped with mode ['w+']. *)
Definition _make_temporary_memmap (ds : Dataset) (data : option ndarray)
    (shape : option (list Z)) : result ndarray :=
  match data, shape with
  | Some d, _ => OK d
  | None, Some shape => np_memmap_new shape (dtype ds)
  | None, None => Raise (DatasetException IncorrectMemmap)
  end.

Definition __getitem__ (ds : Dataset) (slices : index) : M ndarray :=
  '(slices, squeeze_axis) ←$ lift (_process_slices ds slices true);
  let tshape := tshape slices in
  let chunk_iterator := _get_chunk_slice_iterator ds slices in
  output ←$
    (if sequential ds then
       output ←$ lift (np_full tshape (-1) (dtype ds));
       mfold (_get_chunk_data_parallel ds) output chunk_iterator
     else
       output ←$ lift (_make_temporary_memmap ds None (Some tshape));
       _ ←$ Parallel ds;
       mfold (_get_chunk_data_parallel ds) output
         (schedule _ chunk_iterator));
  match squeeze_axis with
  | Some (ax :: axes) => lift (np_squeeze output (ax :: axes))
  | _ => mret output
  end.

(** The body of the loop of [__setitem__], which is also
    [_set_chunk_data_parallel]. *)
Definition _set_chunk_data_parallel (ds : Dataset) (dinput : ndarray)
    (r : chunk_record) : M unit :=
  part ←$ lift (np_getitem dinput (rec_gslice r));
  _set_chunk_data ds (rec_index r) part (Some (rec_lslice r)).

Definition __setitem__ (ds : Dataset) (slices : index) (values : ndarray) : M unit :=
  if read_only ds then mraise (DatasetException ReadOnlyDataset) else
  '(slices, _) ←$ lift (_process_slices ds slices false);
  let chunk_iterator := _get_chunk_slice_iterator ds slices in
  if sequential ds
  then mfor chunk_iterator (_set_chunk_data_parallel ds values)
  else _ ←$ Parallel ds;
       mfor (schedule _ chunk_iterator) (_set_chunk_data_parallel ds values).

(** [_populate_dataset], also the body of the sequential loop of [load];
    the bounds of the chunk are computed with the job. *)
Definition _populate_dataset (ds : Dataset) (data : ndarray) (idx : list Z) : M unit :=
  slices ←$ lift (_gchunk_bounds_slices ds idx);
  _set_chunk_data ds idx data (Some slices).

Definition load (ds : Dataset) (data : ndarray) : M unit :=
  if sequential ds
  then mfor (points (chunks ds)) (_populate_dataset ds data)
  else _ ←$ Parallel ds;
       mfor (schedule _ (points (chunks ds))) (_populate_dataset ds data).

(** [Dataset(pool, name, read_only=..., njobs=...)], the constructor as
    [create] calls it (no [data]): the dataset must exist; the geometry
    is read from the attributes of its object. *)
Definition Dataset_init (oname : string) (read_only : bool) (njobs : option Z)
  : M Dataset :=
  found ←$ pool_has_dataset oname;
  if negb found then mraise (DatasetException NoDatasetFound) else
  shape ←$ get_shape_xattr oname "shape";
  dtype ←$ get_text_xattr oname "dtype";
  fillvalue ←$ get_value_xattr oname "fillvalue";
  chunks ←$ get_shape_xattr oname "chunks";
  chunk_size ←$ get_shape_xattr oname "chunk_size";
  mret {| name := oname; shape := shape; dtype := dtype;
          fillvalue := fillvalue; chunks := chunks;
          chunk_size := chunk_size;
          njobs := match njobs with None => pool_njobs | Some n => Some n end;
          read_only := read_only |}.

(** [(np.ceil(np.asarray(shape, float) / chunk_size)).astype(int)], axis
    by axis; [create] calls it with a chunk size of the length of the
    shape. *)
Definition chunks_needed (shape chunk_size : list Z) : list Z :=
  zip_with np_ceil_div shape chunk_size.

(** [njobs or pool.njobs] *)
Definition njobs_or_pool (njobs : option Z) : option Z :=
  match njobs with
  | Some 0 | None => pool_njobs
  | Some n => Some n
  end.

(** The [try] statement that opens [create]: [stat] the name and raise
    when it answers; its [ObjectNotFound] is caught and dropped. *)
Definition create_preflight (oname : string) : M unit :=
  try_except
    (_ ←$ pool_stat oname;
     mraise (DatasetException ObjectAlreadyExists))
    (λ e, match e with ObjectNotFound => true | _ => false end)
    (mret tt).

(** [Dataset.create] *)
Definition create (oname : string) (shape : option (list Z)) (dtype : string)
    (fillvalue : Z) (chunks : chunks_arg) (data : option ndarray)
    (read_only : bool) (njobs : option Z) : M Dataset :=
  _ ←$ create_preflight oname;
  let shape := match data with Some d => Some (arr_shape d) | None => shape end in
  let dtype := match data with Some d => arr_dtype d | None => dtype end in
  chunk_size ←$ lift (_validate_chunk_shape chunks shape);
  let chunks_needed := chunks_needed (default [] shape) chunk_size in
  _ ←$ pool_write_full oname (PText signature);
  _ ←$ pool_set_xattr oname "shape" (AttrShape (default [] shape));
  _ ←$ pool_set_xattr oname "dtype" (AttrText dtype);
  _ ←$ pool_set_xattr oname "fillvalue" (AttrValue fillvalue);
  _ ←$ pool_set_xattr oname "chunks" (AttrShape chunks_needed);
  _ ←$ pool_set_xattr oname "chunk_size" (AttrShape chunk_size);
  ds ←$ Dataset_init oname read_only (njobs_or_pool njobs);
  _ ←$ match data with
       | Some d => load ds d
       | None => mret tt
       end;
  mret ds.
End engine.

(** An instance of [np.squeeze] for the examples, as [__getitem__]
    calls it: with the axes in a list. [ndarray.squeeze] of the numpy
    of the code takes an integer or a tuple; the list makes it raise
    [TypeError], which [np.squeeze] answers by calling [squeeze()]
    without axes. So every axis of extent 1 is removed, listed or not,
    and nothing is raised. *)
Fixpoint drop_unit {A} (extents : list Z) (l : list A) : list A :=
  match extents, l with
  | n :: extents', x :: rest =>
      if n =? 1 then drop_unit extents' rest else x :: drop_unit extents' rest
  | _, _ => l
  end.

Definition squeeze_axes (a : ndarray) (axes : list nat) : result ndarray :=
  OK (NdArray (drop_unit (arr_shape a) (arr_shape a)) (arr_dtype a)
        (list_to_map ((λ '(k, v), (drop_unit (arr_shape a) k, v))
                        <$> map_to_list (arr_cells a)))).

(** ** The in-memory backend (backends/ram.py) *)

(** [None] as an index of an array adds a leading axis of extent 1:
    [a[None]] has shape [(1,) + a.shape]. *)
Definition np_getitem_none (a : ndarray) : ndarray :=
  NdArray (1 :: arr_shape a) (arr_dtype a) (kmap (0 ::.) (arr_cells a)).

(** [a[None] = value]: the value is broadcast to [(1,) + a.shape] and
    replaces every cell of [a]. A value of the rank of [a] or of that
    rank plus one is modelled. *)
Definition np_setitem_none (a value : ndarray) : result ndarray :=
  let vshape := if (length (arr_shape value) =? length (arr_shape a))%nat
                then 1 :: arr_shape value else arr_shape value in
  let lead (k : list Z) :=
    if (length (arr_shape value) =? length (arr_shape a))%nat
    then drop 1 (broadcast_index vshape (0 :: k))
    else broadcast_index vshape (0 :: k) in
  if broadcastable vshape (1 :: arr_shape a) then
    OK (NdArray (arr_shape a) (arr_dtype a)
          (map_imap (λ k _, Some (arr_cells value !!! lead k)) (arr_cells a)))
  else Raise ValueError.

(** What a link of a group leads to: a group with its own links, or a
    dataset. A [MemLink] is kept as its target under its name; the
    references back to the parent are not kept. *)
#[warnings="-register-all"]
Inductive mem_node : Type :=
  | GroupNode (gname : string) (attrs : option (gmap string string))
      (links : gmap string mem_node)
  | DatasetNode (dname : string).

(** [path.split(sep)] *)
Fixpoint split (sep : Ascii.ascii) (s : string) : list string :=
  match s with
  | EmptyString => [""]
  | String c rest =>
      if Ascii.eqb c sep then "" :: split sep rest
      else match split sep rest with
           | h :: t => String c h :: t
           | [] => [String c ""]
           end
  end.

(** [str.isalnum]: at least one character and all of them letters or
    digits (of ASCII, as for a byte string in the C locale). *)
Definition is_alnum_char (c : Ascii.ascii) : bool :=
  let n := Ascii.nat_of_ascii c in
  ((48 <=? n) && (n <=? 57) || (65 <=? n) && (n <=? 90)
   || (97 <=? n) && (n <=? 122))%nat.

Fixpoint all_alnum (s : string) : bool :=
  match s with
  | EmptyString => true
  | String c rest => is_alnum_char c && all_alnum rest
  end.

Definition isalnum (s : string) : bool :=
  match s with
  | EmptyString => false
  | _ => all_alnum s
  end.

Module MemGroup.

Definition links (g : mem_node) : result (gmap string mem_node) :=
  match g with
  | GroupNode _ _ l => OK l
  | DatasetNode _ => Raise AttributeError
  end.

(** [create_group(path, attrs)]: the new group and the group with the
    new link. *)
Definition create_group (self : mem_node) (path : string)
    (attrs : option (gmap string string)) : result (mem_node * mem_node) :=
  if negb (isalnum path) then Raise (ExcNotAlphanumeric path) else
  match self with
  | DatasetNode _ => Raise AttributeError
  | GroupNode gname gattrs l =>
      if bool_decide (is_Some (l !! path)) then Raise (ExcGroupExists path)
      else
        let group := GroupNode path attrs ∅ in
        OK (group, GroupNode gname gattrs (<[path := group]> l))
  end.

(** The inner [_recurse(arr, links)] of [get_group]; it returns [None]
    by running off its end when [arr[0]] is not among the links. *)
Fixpoint get_group_recurse (arr : list string) (l : gmap string mem_node)
  : result (option mem_node) :=
  match arr with
  | [] => Raise IndexError
  | seg :: rest =>
      match l !! seg with
      | Some link_target =>
          match rest with
          | [] => OK (Some link_target)
          | _ :: _ => l' ←! links link_target; get_group_recurse rest l'
          end
      | None => OK None
      end
  end.

Definition get_group (self : mem_node) (path : string) : result mem_node :=
  l ←! links self;
  group ←! get_group_recurse (split "/"%char path) l;
  match group with
  | None => Raise (GroupNotFoundError path)
  | Some g => OK g
  end.

(** The truth value of a group or dataset object: an instance of a
    class without a truth method is true (the base classes of
    [dosna/backends/base] are not among the sources and are taken to
    define none). *)
Definition truthy (o : mem_node) : bool := true.

(** [has_group(path)]. The value is what the Python function returns:
    [None] when it ends without a [return]; the statement [True] is
    evaluated and dropped. *)
Definition has_group (self : mem_node) (path : string) : result (option bool) :=
  group ←! get_group self path;
  if truthy group then OK None
  else Raise (GroupNotFoundError path).

(** The inner [_recurse(arr, links)] of [del_group]: the links without
    the last segment of the path. *)
Fixpoint del_group_recurse (arr : list string) (l : gmap string mem_node)
  : result (gmap string mem_node) :=
  match arr with
  | [] => Raise IndexError
  | seg :: rest =>
      match l !! seg with
      | Some link_target =>
          match rest, link_target with
          | [], _ => OK (delete seg l)
          | _ :: _, GroupNode gname gattrs l' =>
              l'' ←! del_group_recurse rest l';
              OK (<[seg := GroupNode gname gattrs l'']> l)
          | _ :: _, DatasetNode _ => Raise AttributeError
          end
      | None => OK l
      end
  end.

(** [del_group(path)]: the group after the removal. [not None] is
    true. *)
Definition del_group (self : mem_node) (path : string) : result mem_node :=
  found ←! has_group self path;
  match found with
  | Some true =>
      match self with
      | GroupNode gname gattrs l =>
          l' ←! del_group_recurse (split "/"%char path) l;
          OK (GroupNode gname gattrs l')
      | DatasetNode _ => Raise AttributeError
      end
  | _ => Raise (GroupNotFoundError path)
  end.

End MemGroup.

Module MemConnection.

(** A connection: its root group (named ["/"]) and its datasets. *)
Record t : Type := {
  root_group : mem_node;
  datasets : gmap string mem_node
}.

(** [create_group(path, attrs)]: the new group and the connection with
    the changed root. *)
Definition create_group (self : t) (path : string)
    (attrs : option (gmap string string)) : result (mem_node * t) :=
  if negb (isalnum path) then Raise (ExcNotAlphanumeric path) else
  if negb (String.eqb path "/") then
    '(group, root) ←! MemGroup.create_group (root_group self) path attrs;
    OK (group, {| root_group := root; datasets := datasets self |})
  else Raise (ExcGroupExists path).

Definition get_group (self : t) (path : string) : result mem_node :=
  MemGroup.get_group (root_group self) path.

Definition has_group (self : t) (path : string) : result (option bool) :=
  MemGroup.has_group (root_group self) path.

End MemConnection.

Module MemDataChunk.

Record t : Type := {
  shape : list Z;
  dtype : string;
  fillvalue : Z;
  data : ndarray
}.

(** [MemDataChunk(dataset, idx, name, shape, dtype, fillvalue)] *)
Definition init (shape : list Z) (dtype : string) (fillvalue : Z) : result t :=
  data ←! np_full shape fillvalue dtype;
  OK {| shape := shape; dtype := dtype; fillvalue := fillvalue; data := data |}.

(** [get_data(slices=None)]: [self.data[slices]] *)
Definition get_data (self : t) (slices : option (list slice)) : result ndarray :=
  match slices with
  | None => OK (np_getitem_none (data self))
  | Some sl => np_getitem (data self) sl
  end.

(** [set_data(values, slices=None)]: [self.data[slices] = values] *)
Definition set_data (self : t) (values : ndarray) (slices : option (list slice))
  : result t :=
  data' ←! match slices with
           | None => np_setitem_none (data self) values
           | Some sl => np_setitem (data self) sl values
           end;
  OK {| shape := shape self; dtype := dtype self;
        fillvalue := fillvalue self; data := data' |}.

End MemDataChunk.

(** ** Vocabulary of the statements *)

(** What the [while] loop of [_process_slices] computes: every [Ellipsis]
    replaced, left to right, by [nmiss + 1] whole-axis slices. *)
Definition expand_all (nmiss : nat) (slices : list entry) : list entry :=
  e ← slices; if is_ellipsis e then replicate (S nmiss) full_slice else [e].

Definition count_ellipsis (slices : list entry) : nat :=
  length (filter (λ e, is_ellipsis e = true) slices).

(** A slice entry whose step is present and is not 1. *)
Definition bad_step (e : entry) : Prop :=
  match e with
  | ESlice _ _ (Some k) => k ≠ 1
  | _ => False
  end.

Definition index_entries (slices : index) : list entry :=
  match slices with
  | IOne e => [e]
  | ISeq es => es
  end.

(** The geometry that [Dataset.create] records: positive chunk sizes and
    a chunk grid that is the ceiling of shape over chunk size. *)
Definition axis_ok (n c m : Z) : Prop := 0 < c ∧ m = (n + c - 1) / c.

Definition geometry_ok (ds : Dataset) : Prop :=
  Forall3 axis_ok (shape ds) (chunk_size ds) (chunks ds).

(** A normalized slice that lies inside an axis of extent [n]. *)
Definition slice_in_bounds (s : slice) (n : Z) : Prop :=
  0 ≤ start s < n ∧ start s ≤ stop s ≤ n.

Definition in_bounds (ds : Dataset) (slices : list slice) : Prop :=
  Forall2 slice_in_bounds slices (shape ds).

(** Each entry that the loop lets through, with the slice it has become
    and the extent of its axis. *)
Definition entry_slice (e : entry) (s : slice) (n : Z) : Prop :=
  match e with
  | EInt z => s = Slice z (z + 1)
  | ESlice a b c =>
      slice_in_bounds s n ∧ start s = default 0 a ∧ stop s = default n b
  | EEllipsis | EOther => False
  end.

(** An extent and a chunk size on which the float64 computation of the
    chunk grid is exact. *)
Definition exact_axis (n c : Z) : Prop := 0 ≤ n ≤ 2 ^ 53 ∧ 0 < c ≤ 2 ^ 53.

(** A region that holds at least one point: no slice is empty. *)
Definition nonempty_region (slices : list slice) : Prop :=
  Forall (λ s, start s < stop s) slices.

#[global] Instance nonempty_region_dec slices : Decision (nonempty_region slices).
Proof. unfold nonempty_region. apply _. Defined.

(** The point [p] lies in the region that a list of slices selects. *)
Definition in_slices (p : list Z) (sl : list slice) : Prop :=
  Forall2 (λ x s, start s ≤ x < stop s) p sl.

(** The point [p] lies in the array of the given extents. *)
Definition in_box (p : list Z) (extents : list Z) : Prop :=
  Forall2 (λ x n, 0 ≤ x < n) p extents.

#[global] Instance in_slices_dec p sl : Decision (in_slices p sl).
Proof. unfold in_slices. apply _. Defined.

#[global] Instance in_box_dec p extents : Decision (in_box p extents).
Proof. unfold in_box. apply _. Defined.

(** The chunk index lies in the chunk grid. *)
Definition in_grid (ds : Dataset) (idx : list Z) : Prop :=
  Forall2 (λ i m, 0 ≤ i < m) idx (chunks ds).

(** The position, in the enumeration of the touched chunks, of the chunk
    that holds the point [p] of the requested region. *)
Fixpoint owner (slices : list slice) (sizes : list Z) (p : list Z) : list nat :=
  match slices, sizes, p with
  | s :: slices', c :: sizes', x :: p' =>
      Z.to_nat ((x + start s) / c - start s / c) :: owner slices' sizes' p'
  | _, _, _ => []
  end.

(** The hypotheses of the mapping, axis by axis: the slice of the axis
    is in bounds and the geometry of the axis is consistent. *)
Inductive axes_ok : list slice → list Z → list Z → list Z → Prop :=
  | axes_ok_nil : axes_ok [] [] [] []
  | axes_ok_cons s n c m slices extents sizes grid :
      axis_ok n c m → slice_in_bounds s n →
      axes_ok slices extents sizes grid →
      axes_ok (s :: slices) (n :: extents) (c :: sizes) (m :: grid).

(** A record is consistent with the request: on every axis the local
    slice lies inside the chunk, and the global slice is the local slice
    of chunk [i] expressed relative to the start of the request. *)
Definition local_global_agree (slices : list slice) (sizes : list Z)
    (r : chunk_record) : Prop :=
  length (rec_index r) = length slices
  ∧ length (rec_lslice r) = length slices
  ∧ length (rec_gslice r) = length slices
  ∧ ∀ k s c i l g,
      slices !! k = Some s → sizes !! k = Some c →
      rec_index r !! k = Some i → rec_lslice r !! k = Some l →
      rec_gslice r !! k = Some g →
      (0 ≤ start l ≤ stop l ∧ stop l ≤ c)
      ∧ start g = i * c + start l - start s
      ∧ stop g = i * c + stop l - start s
      ∧ 0 ≤ start g ∧ stop g ≤ stop s - start s.

(** The numbers of touched chunks per axis, as handed to [np.ndindex]. *)
Definition touched_lens (axes : list axis_targets) : list nat :=
  (λ ax, length (index_ax ax)) <$> axes.

(** The flat position of a multi-index in a row-major grid. *)
Fixpoint ravel (idx dims : list Z) : Z :=
  match idx, dims with
  | i :: idx', _ :: dims' => i * prod dims' + ravel idx' dims'
  | _, _ => 0
  end.

(** The computation never raises the exception [e], whatever the pool. *)
Definition never_raises {A} (e : exn) (m : M A) : Prop :=
  ∀ σ, (m σ).1 ≠ Raise e.

(** A chunk object as [DataChunk.create] writes it for this dataset: the
    shape attribute is the chunk size, the element type is recorded, and
    the payload holds at least the elements of one chunk. *)
Definition chunk_ok (ds : Dataset) (o : pool_object) : Prop :=
  obj_xattrs o !! "shape" = Some (AttrShape (chunk_size ds))
  ∧ (∃ t, obj_xattrs o !! "dtype" = Some (AttrText t))
  ∧ ∃ elems, obj_payload o = PBytes elems
             ∧ prod (chunk_size ds) ≤ Z.of_nat (length elems).

(** Every chunk of the dataset that has a backing object has a
    well-formed one. *)
Definition pool_chunks_ok (ds : Dataset) (σ : gmap string pool_object) : Prop :=
  ∀ chunk_idx o, σ !! __chunkname ds chunk_idx = Some o → chunk_ok ds o.

(** The same dataset opened with another parallelism width. *)
Definition set_njobs (n : option Z) (ds : Dataset) : Dataset :=
  {| name := name ds; shape := shape ds; dtype := dtype ds;
     fillvalue := fillvalue ds; chunks := chunks ds;
     chunk_size := chunk_size ds; njobs := n; read_only := read_only ds |}.

(** The value that the task of record [r] stores in cell [k] of an output
    of extents [tsh], and the content of cell [k] after the tasks of a
    list of records have run in order on a cell that held [old]. *)
Definition painted_cell (ds : Dataset) (σ : gmap string pool_object)
    (tsh : list Z) (r : chunk_record) (k : list Z) : Z :=
  match (_get_chunk_data ds (rec_index r) (Some (rec_lslice r)) σ).1 with
  | OK v => arr_cells v
              !!! broadcast_index (arr_shape v)
                    (zip_with Z.sub k (fst <$> selection (rec_gslice r) tsh))
  | Raise _ => 0
  end.

Definition paint (ds : Dataset) (σ : gmap string pool_object) (tsh : list Z)
    (records : list chunk_record) (k : list Z) (old : Z) : Z :=
  foldl (λ acc r, if in_selection k (selection (rec_gslice r) tsh)
                  then painted_cell ds σ tsh r k else acc) old records.

(** The preconditions of the task of one record on an output of
    extents [tsh]: the local slice lies in the chunk, the global slice in
    the output, and both have the same extents. *)
Definition record_ready (ds : Dataset) (tsh : list Z) (r : chunk_record) : Prop :=
  Forall2 (λ l c, 0 ≤ start l ≤ stop l ∧ stop l ≤ c)
    (rec_lslice r) (chunk_size ds)
  ∧ Forall2 (λ g n, 0 ≤ start g ≤ stop g ∧ stop g ≤ n) (rec_gslice r) tsh
  ∧ tshape (rec_lslice r) = tshape (rec_gslice r).

(** ** Further operations of the pool engine *)

(** [_lchunk_bounds_slices] *)
Fixpoint lchunk_bounds_from (ds : Dataset) (j : nat) (idx sizes : list Z)
  : result (list slice) :=
  match idx, sizes with
  | i :: idx', s :: sizes' =>
      n ←! shape_at ds j;
      rest ←! lchunk_bounds_from ds (S j) idx' sizes';
      OK (Slice 0 (Z.min ((i + 1) * s) n - i * s) :: rest)
  | _, _ => OK []
  end.

Definition _lchunk_bounds_slices (ds : Dataset) (idx : list Z) : result (list slice) :=
  lchunk_bounds_from ds 0 idx (chunk_size ds).

(** [np.ndindex] on the extents, as the loops over the chunk grid use it:
    numpy rejects negative extents. *)
Definition np_ndindex (extents : list Z) : result (list (list Z)) :=
  if forallb (λ n, 0 <=? n) extents then OK (points extents)
  else Raise ValueError.

(** [BaseData.delete] on a chunk: [self._pool.remove_object(self.name)] *)
Definition DataChunk_delete (chunk : DataChunk) : M unit :=
  pool_remove_object (dc_name chunk).

Definition _delete_chunk (ds : Dataset) (chunk_idx : list Z) : M unit :=
  found ←$ _has_chunk ds chunk_idx;
  if (found : bool)
  then chunk ←$ _get_existing_chunk ds chunk_idx; DataChunk_delete chunk
  else mret tt.

(** [Dataset.delete(delete_chunks)]: the chunks of the grid, then the
    object of the dataset. *)
Definition Dataset_delete (ds : Dataset) (delete_chunks : bool) : M unit :=
  _ ←$ (if delete_chunks
        then idxs ←$ lift (np_ndindex (chunks ds));
             mfor idxs (_delete_chunk ds)
        else mret tt);
  pool_remove_object (name ds).

(** The [data] argument of the [*_like] constructors: an array, or an
    object that also has [chunks] and [fillvalue], as a [Dataset] has. *)
Inductive like_source : Type :=
  | LikeArray (a : ndarray)
  | LikeDataset (d : Dataset).

Definition like_shape (data : like_source) : list Z :=
  match data with
  | LikeArray a => arr_shape a
  | LikeDataset d => shape d
  end.

Definition like_dtype (data : like_source) : string :=
  match data with
  | LikeArray a => arr_dtype a
  | LikeDataset d => dtype d
  end.

(** [if hasattr(data, 'chunks'): chunks = data.chunks] *)
Definition like_chunks (data : like_source) (given : chunks_arg) : chunks_arg :=
  match data with
  | LikeArray _ => given
  | LikeDataset d => ChunksSeq (chunks d)
  end.

(** [if hasattr(data, 'fillvalue'): fillvalue = data.fillvalue] *)
Definition like_fillvalue (data : like_source) (given : Z) : Z :=
  match data with
  | LikeArray _ => given
  | LikeDataset d => fillvalue d
  end.

Section constructors.
Variable pool_njobs : option Z.
Variable schedule : ∀ A : Type, list A → list A.

Definition zeros_like (oname : string) (data : like_source) (chunks : chunks_arg)
  : M Dataset :=
  create pool_njobs schedule oname (Some (like_shape data)) (like_dtype data) 0
    (like_chunks data chunks) None false None.

Definition ones_like (oname : string) (data : like_source) (chunks : chunks_arg)
  : M Dataset :=
  create pool_njobs schedule oname (Some (like_shape data)) (like_dtype data) 1
    (like_chunks data chunks) None false None.

Definition create_like (oname : string) (data : like_source) (chunks : chunks_arg)
    (fillvalue : Z) : M Dataset :=
  create pool_njobs schedule oname (Some (like_shape data)) (like_dtype data)
    (like_fillvalue data fillvalue) (like_chunks data chunks) None false None.



(** [_apply_parallel], also the body of the sequential loop of [apply]. *)
Definition _apply_parallel (inst : Dataset) (func : ndarray → result ndarray)
    (chunk_idx : list Z) : M unit :=
  slices ←$ lift (_lchunk_bounds_slices inst chunk_idx);
  data ←$ _get_chunk_data inst chunk_idx (Some slices);
  res ←$ lift (func data);
  _set_chunk_data inst chunk_idx res (Some slices).


Definition apply (ds : Dataset) (func : ndarray → result ndarray) : M unit :=
  if sequential ds
  then idxs ←$ lift (np_ndindex (chunks ds));
       mfor idxs (_apply_parallel ds func)
  else _ ←$ Parallel ds;
       idxs ←$ lift (np_ndindex (chunks ds));
       mfor (schedule _ idxs) (_apply_parallel ds func).
End constructors.

(** ** Vocabulary of the further statements *)

(** An array whose cells are exactly the points of its shape. *)
Definition wf_array (a : ndarray) : Prop :=
  Forall (λ n, 0 ≤ n) (arr_shape a)
  ∧ ∀ q, is_Some (arr_cells a !! q) ↔ in_box q (arr_shape a).

(** A normalized slice written as the caller would: [slice(start, stop)]. *)
Definition slice_entry (s : slice) : entry :=
  ESlice (Some (start s)) (Some (stop s)) None.

(** The whole of the dataset as a list of slices. *)
Definition whole (ds : Dataset) : list slice :=
  (λ n, Slice 0 n) <$> shape ds.

(** No chunk of the dataset has a backing object. *)
Definition no_chunks (ds : Dataset) (σ : gmap string pool_object) : Prop :=
  ∀ chunk_idx, σ !! __chunkname ds chunk_idx = None.

(** A text without the separator of chunk names. *)
Fixpoint no_dot (s : string) : Prop :=
  match s with
  | EmptyString => True
  | String c rest => c ≠ "."%char ∧ no_dot rest
  end.

(** The content of chunk [chunk_idx] at the local position [q], as a
    read of the whole chunk gives it. *)
Definition chunk_cell (ds : Dataset) (σ : gmap string pool_object)
    (chunk_idx q : list Z) : Z :=
  match (_get_chunk_data ds chunk_idx None σ).1 with
  | OK a => arr_cells a !!! q
  | Raise _ => 0
  end.

(** The chunk that holds the point [p] of the dataset, and the position
    of [p] inside that chunk. *)
Definition chunk_of (ds : Dataset) (p : list Z) : list Z :=
  zip_with Z.div p (chunk_size ds).

Definition offset_in_chunk (ds : Dataset) (p : list Z) : list Z :=
  zip_with Z.modulo p (chunk_size ds).

(** The content of the dataset at the point [p]. *)
Definition stored_cell (ds : Dataset) (σ : gmap string pool_object)
    (p : list Z) : Z :=
  chunk_cell ds σ (chunk_of ds p) (offset_in_chunk ds p).

(** A computation that never changes the pool, and one whose outcome
    moreover depends on the object of one name only. *)
Definition leaves_pool {A} (m : M A) : Prop := ∀ σ, (m σ).2 = σ.

Definition reads_only {A} (oname : string) (m : M A) : Prop :=
  ∀ σ1 σ2, σ1 !! oname = σ2 !! oname →
           (m σ1).1 = (m σ2).1 ∧ (m σ1).2 = σ1.

(** The chunk of a record can take the write of the record: it has an
    object, or the local slice of the record starts at the origin of the
    chunk. *)
Definition writable (ds : Dataset) (σ : gmap string pool_object)
    (r : chunk_record) : Prop :=
  is_Some (σ !! __chunkname ds (rec_index r))
  ∨ Forall (λ l, start l = 0) (rec_lslice r).

(** *** MemDataset (backends/ram.py) *)

(** The outcome of an operation of [MemDataset]: [create_chunk] raises
    a plain [Exception] of its own for an index that is taken. *)
Inductive mem_outcome (A : Type) : Type :=
  | MemOK (a : A)
  | MemChunkExists (idx : list Z)   (* Exception('DataChunk `{}{}` already exists') *)
  | MemRaise (e : exn).
Arguments MemOK {A} a.
Arguments MemChunkExists {A} idx.
Arguments MemRaise {A} e.

Module MemDataset.

(** Modelled from the spec: the attributes that the base class
    [BackendDataset] keeps from the arguments of the constructor (name,
    shape, element type, fill value, chunk grid and chunk size). The
    dictionary [data_chunks] is that of [MemDataset]: an index leads to
    its chunk, or to [None] from the moment [create_chunk] reserves the
    key until the chunk is stored. *)
Record t : Type := {
  name : string;
  shape : list Z;
  dtype : string;
  fillvalue : Z;
  chunk_grid : list Z;
  chunk_size : list Z;
  data_chunks : gmap (list Z) (option MemDataChunk.t)
}.

(** [self.data_chunks] after an update of the dictionary. *)
Definition set_chunks (self : t) (m : gmap (list Z) (option MemDataChunk.t)) : t :=
  {| name := name self; shape := shape self; dtype := dtype self;
     fillvalue := fillvalue self; chunk_grid := chunk_grid self;
     chunk_size := chunk_size self; data_chunks := m |}.

Definition has_chunk (self : t) (idx : list Z) : bool :=
  bool_decide (is_Some (data_chunks self !! idx)).

(** [create_chunk(idx, data, slices)]; [slices or slice(None)] selects
    the whole chunk when no slices are given. *)
Definition create_chunk (self : t) (idx : list Z) (data : option ndarray)
    (slices : option (list slice)) : mem_outcome MemDataChunk.t * t :=
  if has_chunk self idx then (MemChunkExists idx, self) else
  let self := set_chunks self (<[idx := None]> (data_chunks self)) in
  match MemDataChunk.init (chunk_size self) (dtype self) (fillvalue self) with
  | Raise e => (MemRaise e, self)
  | OK chunk =>
      match match data with
            | None => OK chunk
            | Some d => MemDataChunk.set_data chunk d (Some (default [] slices))
            end with
      | Raise e => (MemRaise e, self)
      | OK chunk =>
          (MemOK chunk,
           set_chunks self (<[idx := Some chunk]> (data_chunks self)))
      end
  end.

Definition get_chunk (self : t) (idx : list Z)
  : mem_outcome (option MemDataChunk.t) * t :=
  match data_chunks self !! idx with
  | Some c => (MemOK c, self)
  | None =>
      match create_chunk self idx None None with
      | (MemOK chunk, self) => (MemOK (Some chunk), self)
      | (MemChunkExists i, self) => (MemChunkExists i, self)
      | (MemRaise e, self) => (MemRaise e, self)
      end
  end.

Definition del_chunk (self : t) (idx : list Z) : bool * t :=
  if has_chunk self idx
  then (true, set_chunks self (delete idx (data_chunks self)))
  else (false, self).

(** [for idx in ...: self.create_chunk(idx)] *)
Fixpoint populate_loop (idxs : list (list Z)) (self : t) : mem_outcome unit * t :=
  match idxs with
  | [] => (MemOK tt, self)
  | idx :: rest =>
      match create_chunk self idx None None with
      | (MemOK _, self) => populate_loop rest self
      | (MemChunkExists i, self) => (MemChunkExists i, self)
      | (MemRaise e, self) => (MemRaise e, self)
      end
  end.

Definition _populate_chunks (self : t) : mem_outcome unit * t :=
  match np_ndindex (chunk_grid self) with
  | Raise e => (MemRaise e, self)
  | OK idxs => populate_loop idxs self
  end.

(** [MemDataset(pool, name, shape, dtype, fillvalue, chunk_grid,
    chunk_size)] *)
Definition init (name : string) (shape : list Z) (dtype : string)
    (fillvalue : Z) (chunk_grid chunk_size : list Z) : mem_outcome t :=
  let self := {| name := name; shape := shape; dtype := dtype;
                 fillvalue := fillvalue; chunk_grid := chunk_grid;
                 chunk_size := chunk_size; data_chunks := ∅ |} in
  match _populate_chunks self with
  | (MemOK _, self) => MemOK self
  | (MemChunkExists i, _) => MemChunkExists i
  | (MemRaise e, _) => MemRaise e
  end.

End MemDataset.

(** Every chunk of the grid lies wholly inside the dataset: each extent
    is a multiple of the chunk size of its axis. *)
Definition full_chunks (ds : Dataset) : Prop :=
  Forall3 (λ n c m, 0 < c ∧ n = m * c) (shape ds) (chunk_size ds) (chunks ds).

(** * Properties *)

(** ** Slice normalization *)

Section process_slices.
Implicit Types (ds : Dataset) (slices es : list entry) (e : entry).

Lemma count_ellipsis_cons e es :
  count_ellipsis (e :: es)
  = ((if is_ellipsis e then 1 else 0) + count_ellipsis es)%nat.
Proof.
  unfold count_ellipsis. rewrite filter_cons.
  destruct (is_ellipsis e); case_decide; simpl; congruence.
Qed.

Lemma count_ellipsis_app es1 es2 :
  count_ellipsis (es1 ++ es2) = (count_ellipsis es1 + count_ellipsis es2)%nat.
Proof. unfold count_ellipsis. by rewrite filter_app, length_app. Qed.

Lemma count_ellipsis_replicate n :
  count_ellipsis (replicate n full_slice) = 0%nat.
Proof.
  induction n as [|n IH]; [done|].
  simpl. by rewrite count_ellipsis_cons, IH.
Qed.

Lemma count_ellipsis_le_length es : (count_ellipsis es ≤ length es)%nat.
Proof. apply length_filter. Qed.

Lemma expand_all_cons nmiss e es :
  expand_all nmiss (e :: es)
  = (if is_ellipsis e then replicate (S nmiss) full_slice else [e])
      ++ expand_all nmiss es.
Proof. reflexivity. Qed.

Lemma expand_all_replicate nmiss n :
  expand_all nmiss (replicate n full_slice) = replicate n full_slice.
Proof.
  induction n as [|n IH]; [done|].
  cbn [replicate]. by rewrite expand_all_cons, IH.
Qed.

Lemma expand_all_app nmiss es1 es2 :
  expand_all nmiss (es1 ++ es2) = expand_all nmiss es1 ++ expand_all nmiss es2.
Proof. unfold expand_all. apply bind_app. Qed.

(** [slices.index(Ellipsis)] splits the list at the first [Ellipsis]. *)
Lemma index_of_ellipsis_Some es idx :
  index_of_ellipsis es = Some idx →
  ∃ pre post, es = pre ++ EEllipsis :: post
          ∧ take idx es = pre
          ∧ drop (S idx) es = post
          ∧ count_ellipsis pre = 0%nat
          ∧ ∀ nmiss, expand_all nmiss pre = pre.
Proof.
  revert idx. induction es as [|e es IH]; intros idx;
    cbn [index_of_ellipsis]; [done|].
  destruct (is_ellipsis e) eqn:He.
  - intros [= <-]. destruct e; try done. by exists [], es.
  - destruct (index_of_ellipsis es) as [i|]; simpl; [|done].
    intros [= <-].
    destruct (IH i eq_refl) as (pre & post & Hes & Htake & Hdrop & Hc & Hx).
    exists (e :: pre), post. cbn [take drop]. split_and!.
    + by rewrite <- app_comm_cons, <- Hes.
    + by rewrite Htake.
    + done.
    + by rewrite count_ellipsis_cons, He, Hc.
    + intros nmiss. by rewrite expand_all_cons, He, Hx.
Qed.

Lemma index_of_ellipsis_None es :
  index_of_ellipsis es = None →
  count_ellipsis es = 0%nat ∧ ∀ nmiss, expand_all nmiss es = es.
Proof.
  induction es as [|e es IH]; cbn [index_of_ellipsis]; [done|].
  destruct (is_ellipsis e) eqn:He; [done|].
  destruct (index_of_ellipsis es); [done|]. intros _.
  destruct (IH eq_refl) as [Hc Hx]. split.
  - by rewrite count_ellipsis_cons, He, Hc.
  - intros nmiss. by rewrite expand_all_cons, He, Hx.
Qed.

(** The loop stops because no [Ellipsis] is left, never because the
    fuel ran out: with at least as many rounds as [Ellipsis] entries it
    returns the fully expanded list. *)
Lemma expand_loop_complete fuel nmiss es :
  (count_ellipsis es ≤ fuel)%nat →
  expand_loop fuel nmiss es = expand_all nmiss es.
Proof.
  revert es. induction fuel as [|fuel IH]; intros es Hc;
    cbn [expand_loop];
    (destruct (index_of_ellipsis es) as [idx|] eqn:Hi;
     [|symmetry; by apply index_of_ellipsis_None]);
    destruct (index_of_ellipsis_Some _ _ Hi)
      as (pre & post & Hes & Htake & Hdrop & Hc0 & Hx);
    rewrite ?Htake, ?Hdrop;
    rewrite Hes, count_ellipsis_app, count_ellipsis_cons in Hc;
    simpl in Hc; [lia|].
  rewrite IH.
  - rewrite Hes, !expand_all_app, expand_all_replicate, Hx.
    by rewrite expand_all_cons.
  - rewrite !count_ellipsis_app, count_ellipsis_replicate, Hc0. lia.
Qed.

Lemma expand_ellipsis_spec nmiss es :
  expand_ellipsis nmiss es = expand_all nmiss es.
Proof. apply expand_loop_complete, count_ellipsis_le_length. Qed.

Lemma expand_all_no_ellipsis nmiss es : EEllipsis ∉ expand_all nmiss es.
Proof.
  unfold expand_all. rewrite list_elem_of_bind. intros (e & Hin & _).
  destruct e; simpl in Hin.
  - by apply list_elem_of_singleton in Hin.
  - by apply list_elem_of_singleton in Hin.
  - apply elem_of_cons in Hin as [?|Hin]; [done|].
    by apply elem_of_replicate in Hin as [? _].
  - by apply list_elem_of_singleton in Hin.
Qed.

Lemma expand_all_length nmiss es :
  length (expand_all nmiss es) = (length es + count_ellipsis es * nmiss)%nat.
Proof.
  induction es as [|e es IH]; [done|].
  rewrite expand_all_cons, length_app, IH, count_ellipsis_cons.
  destruct e; simpl; rewrite ?length_replicate; lia.
Qed.

Lemma expand_all_keeps e nmiss es :
  is_ellipsis e = false → e ∈ es → e ∈ expand_all nmiss es.
Proof.
  intros He Hin. unfold expand_all. apply list_elem_of_bind.
  exists e. split; [|done]. rewrite He. by apply list_elem_of_singleton.
Qed.

Local Ltac raised :=
  first [ by (eexists; split; [reflexivity|exact I])
        | by (right; eexists; split; [reflexivity|exact I])
        | by (left; eexists) ].

Lemma count_ellipsis_lt e es :
  e ∈ es → is_ellipsis e = false → (count_ellipsis es < length es)%nat.
Proof.
  induction 1 as [e es|e e' es _ IH]; intros He;
    rewrite count_ellipsis_cons; cbn [length].
  - rewrite He. pose proof (count_ellipsis_le_length es). lia.
  - specialize (IH He). destruct (is_ellipsis e'); lia.
Qed.

Lemma shape_at_in_rank ds i :
  (i < ndim ds)%nat → ∃ n, shape_at ds i = OK n.
Proof.
  intros Hi. unfold shape_at.
  destruct (lookup_lt_is_Some_2 (shape ds) i Hi) as [n ->]. by exists n.
Qed.

(** Inside the rank, an entry is normalized or rejected with a
    [DatasetException] of the slicing algebra. *)
Lemma process_entry_in_rank ds i e :
  (i < ndim ds)%nat →
  (∃ r, process_entry ds i e = OK r)
  ∨ (∃ x, process_entry ds i e = Raise x ∧ InvalidIndex x).
Proof.
  intros [n Hn]%shape_at_in_rank. unfold process_entry. rewrite Hn.
  destruct e as [z|a b c| |]; simpl; try raised.
  destruct b as [b|], c as [c|]; simpl;
    repeat (case_match; simpl; try raised).
Qed.

Lemma process_entry_bad_step ds i e :
  (i < ndim ds)%nat → bad_step e →
  ∃ x, process_entry ds i e = Raise x ∧ InvalidIndex x.
Proof.
  intros [n Hn]%shape_at_in_rank Hbad. unfold process_entry. rewrite Hn.
  destruct e as [z|a b [c|]| |]; simpl in Hbad; try done.
  apply Z.eqb_neq in Hbad.
  destruct b as [b|]; simpl; rewrite ?Hbad;
    repeat (case_match; simpl; try raised).
Qed.

Lemma process_entries_bad_step ds i es e :
  (i + length es ≤ ndim ds)%nat → e ∈ es → bad_step e →
  ∃ x, process_entries ds i es = Raise x ∧ InvalidIndex x.
Proof.
  intros Hlen Hin Hbad. revert i Hlen.
  induction Hin as [e es|e e' es _ IH]; intros i Hlen;
    cbn [length] in Hlen; cbn [process_entries].
  - destruct (process_entry_bad_step ds i e) as (x & -> & Hx); [lia|done|].
    by exists x.
  - destruct (process_entry_in_rank ds i e') as [[[sl sq] ->]|(x & -> & Hx)];
      [lia| |by exists x].
    destruct (IH Hbad (S i)) as (x & -> & Hx); [lia|]. by exists x.
Qed.

Lemma bad_step_not_ellipsis e : bad_step e → is_ellipsis e = false.
Proof. by destruct e. Qed.

(** What fitting to the rank returns: the expanded list, padded on the
    right when it is still short. *)
Lemma fit_to_rank_OK ds es :
  (length es ≤ ndim ds)%nat →
  let nmiss := (ndim ds - length es)%nat in
  fit_to_rank ds es
  = OK (if (length (expand_all nmiss es) <? ndim ds)%nat
        then expand_all nmiss es ++ replicate nmiss full_slice
        else expand_all nmiss es).
Proof.
  intros Hle nmiss. unfold fit_to_rank.
  apply Nat.leb_le in Hle as ->. rewrite expand_ellipsis_spec.
  fold nmiss. by destruct (_ <? _)%nat.
Qed.

Lemma fit_to_rank_too_long ds es :
  (ndim ds < length es)%nat →
  fit_to_rank ds es = Raise (DatasetException InvalidSlicingRank).
Proof. intros Hlt. unfold fit_to_rank. by apply Nat.leb_gt in Hlt as ->. Qed.

(** On a dataset of rank 3 an index that holds an entry other than
    [Ellipsis] never grows beyond the rank. *)
Lemma fit_to_rank_3 ds es e fitted :
  ndim ds = 3%nat → e ∈ es → is_ellipsis e = false →
  fit_to_rank ds es = OK fitted →
  length fitted = 3%nat ∧ e ∈ fitted.
Proof.
  intros Hrank Hin He.
  destruct (decide (length es ≤ ndim ds)%nat) as [Hle|Hgt];
    [|rewrite fit_to_rank_too_long by lia; done].
  rewrite fit_to_rank_OK by done. intros [= <-].
  pose proof (count_ellipsis_lt _ _ Hin He) as Hc.
  pose proof (expand_all_length (ndim ds - length es) es) as Hl.
  pose proof (expand_all_keeps _ (ndim ds - length es)%nat _ He Hin) as Hk.
  rewrite Hrank in *.
  destruct (_ <? _)%nat eqn:Hshort;
    [apply Nat.ltb_lt in Hshort|apply Nat.ltb_ge in Hshort].
  - rewrite length_app, length_replicate, elem_of_app. split; [|by left].
    destruct (count_ellipsis es); nia.
  - split; [|done].
    destruct (length es) as [|[|[|[|?]]]]; [lia| | | |lia];
      destruct (count_ellipsis es) as [|[|[|?]]]; lia.
Qed.
End process_slices.

(** C2. On a dataset of shape (10, 10, 10) the index [(5, Ellipsis)]
    normalizes to [[slice(5,6), slice(0,10), slice(0,10)]] with axis 0
    recorded for squeezing, and every index that contains a slice whose
    step is present and different from 1 is rejected with an InvalidIndex
    error. *)
Theorem process_slices_rank3_example_and_step (ds : Dataset) :
  shape ds = [10; 10; 10] →
  _process_slices ds (ISeq [EInt 5; EEllipsis]) true
  = OK ([Slice 5 6; Slice 0 10; Slice 0 10], Some [0%nat])
  ∧ ∀ slices detect_squeeze e,
      e ∈ index_entries slices → bad_step e →
      ∃ x, _process_slices ds slices detect_squeeze = Raise x ∧ InvalidIndex x.
Proof.
  intros Hshape. split.
  - destruct ds; simpl in Hshape; subst. reflexivity.
  - intros slices detect e Hin Hbad.
    assert (ndim ds = 3%nat) as Hrank by (unfold ndim; by rewrite Hshape).
    pose proof (bad_step_not_ellipsis _ Hbad) as He.
    assert (∃ es, wrap_index slices = OK es ∧ e ∈ es) as (es & Hwrap & Hes).
    { destruct slices as [e'|es]; simpl in *; [|by eauto].
      apply list_elem_of_singleton in Hin as <-.
      destruct e as [| | |]; try done; eexists; split; try done;
        by apply list_elem_of_singleton. }
    unfold _process_slices. rewrite Hwrap. cbn [rbind].
    destruct (fit_to_rank ds es) as [fitted|x] eqn:Hfit.
    + destruct (fit_to_rank_3 _ _ _ _ Hrank Hes He Hfit) as [Hlen Hin'].
      cbn [rbind].
      destruct (process_entries_bad_step ds 0 fitted e) as (x & -> & Hx);
        [lia|done|done|]. by exists x.
    + exists x. split; [done|].
      unfold fit_to_rank in Hfit.
      destruct (_ <=? _)%nat; [by destruct (_ <? _)%nat|].
      by injection Hfit as <-.
Qed.

Lemma process_slices_rank3_example_and_step_witness :
  let ds := {| name := "d"; shape := [10; 10; 10]; dtype := "int32";
               fillvalue := -1; chunks := [2; 2; 2]; chunk_size := [5; 5; 5];
               njobs := None; read_only := false |} in
  _process_slices ds (ISeq [EInt 5; EEllipsis]) true
  = OK ([Slice 5 6; Slice 0 10; Slice 0 10], Some [0%nat])
  ∧ ∀ slices detect_squeeze e,
      e ∈ index_entries slices → bad_step e →
      ∃ x, _process_slices ds slices detect_squeeze = Raise x ∧ InvalidIndex x.
Proof.
  intros ds. apply (process_slices_rank3_example_and_step ds). reflexivity.
Defined.

(** C7 (failing input). A bare integer is wrapped into a slice without
    any check of its bounds: on a dataset of shape (10,) the indexes -1
    and 10 are both normalized instead of being rejected. *)
Theorem process_slices_integer_unchecked :
  let ds := {| name := "d"; shape := [10]; dtype := "int32";
               fillvalue := -1; chunks := [2]; chunk_size := [5];
               njobs := None; read_only := false |} in
  _process_slices ds (IOne (EInt (-1))) true = OK ([Slice (-1) 0], Some [0%nat])
  ∧ _process_slices ds (IOne (EInt 10)) true = OK ([Slice 10 11], Some [0%nat])
  ∧ ¬ in_bounds ds [Slice (-1) 0] ∧ ¬ in_bounds ds [Slice 10 11].
Proof.
  intros ds. split_and!; [reflexivity|reflexivity| |];
    intros Hb; apply Forall2_cons_1 in Hb as [[? ?] _]; simpl in *; lia.
Qed.

(** No integer entry is ever rejected, whatever its value and its axis. *)
Lemma process_entry_integer ds i z :
  process_entry ds i (EInt z) = OK (Slice z (z + 1), true).
Proof. reflexivity. Qed.

(** A slice entry, by contrast, is validated: inside the rank, a start or
    a stop that is negative or beyond the extent of the axis is rejected. *)
Lemma process_entry_slice_out_of_bounds ds i n a b c :
  shape ds !! i = Some n →
  (default 0 a < 0 ∨ n ≤ default 0 a ∨ default n b < 0 ∨ n < default n b) →
  process_entry ds i (ESlice a b c)
  = Raise (DatasetException OutOfBoundsSlicing).
Proof.
  intros Hn Hbad. unfold process_entry, shape_at. rewrite Hn.
  destruct b as [b|]; simpl in *;
    repeat (case_match; simpl; try done); lia.
Qed.

(** ** The chunk/region mapping *)

Section chunk_slice_iterator.

Lemma div_bounds a c : 0 < c → c * (a / c) ≤ a < c * (a / c) + c.
Proof.
  intros Hc. pose proof (Z.mul_div_le a c Hc).
  pose proof (Z.mul_succ_div_gt a c Hc). lia.
Qed.

Lemma div_unique_interval a c q : 0 < c → q * c ≤ a < q * c + c → a / c = q.
Proof. intros Hc H. pose proof (div_bounds a c Hc). nia. Qed.

(** The arithmetic of one axis. *)
Lemma axis_arith c n m s_start s_stop i :
  0 < c → m = (n + c - 1) / c → 0 ≤ s_start < n → s_start ≤ s_stop ≤ n →
  let sc := s_start / c in
  let ec := Z.min (s_stop / c) (m - 1) in
  let lstart := if i =? sc then s_start - sc * c else 0 in
  let lstop := if i =? ec then s_stop - Z.max 0 ec * c else c in
  0 ≤ sc ≤ ec ∧ ec < m ∧
  (sc ≤ i ≤ ec →
   0 ≤ lstart ≤ lstop ∧ lstop ≤ c ∧
   (0 ≤ i * c - s_start + lstart
    ∧ i * c - s_start + lstop ≤ s_stop - s_start) ∧
   ∀ x, (i * c - s_start + lstart ≤ x < i * c - s_start + lstop
         ↔ 0 ≤ x < s_stop - s_start ∧ (x + s_start) / c = i)).
Proof.
  intros Hc Hm Hs1 Hs2 sc ec lstart lstop.
  pose proof (div_bounds s_start c Hc) as H1.
  pose proof (div_bounds s_stop c Hc) as H2.
  pose proof (div_bounds (n + c - 1) c Hc) as H3.
  rewrite <- Hm in H3. fold sc in H1.
  assert (0 ≤ sc) by nia.
  assert (sc ≤ s_stop / c) by nia.
  assert (sc ≤ m - 1) by nia.
  assert (sc ≤ ec) by (unfold ec; lia).
  assert (ec * c ≤ s_stop) by (unfold ec; nia).
  assert (s_stop ≤ ec * c + c) by (unfold ec; nia).
  split_and!; [lia|lia|lia|].
  intros Hi.
  assert (Z.max 0 ec = ec) as Hmax by lia.
  unfold lstart, lstop. rewrite Hmax. clear lstart lstop Hmax.
  clearbody sc ec.
  assert (∀ x, (x + s_start) / c = i → i * c ≤ x + s_start < i * c + c) as Hdiv.
  { intros x <-. pose proof (div_bounds (x + s_start) c Hc). lia. }
  destruct (Z.eqb_spec i sc) as [He1|Hne1], (Z.eqb_spec i ec) as [He2|Hne2];
    (split_and!; [nia|nia|nia|nia|nia|]);
    (intros x; split;
     [intros Hx; split; [nia|apply div_unique_interval; nia]
     |intros [Hx Hq%Hdiv]; nia]).
Qed.

(** A point of the requested extent falls in a touched chunk. *)
Lemma axis_owner_touched c n m s_start s_stop x :
  0 < c → m = (n + c - 1) / c → 0 ≤ s_start < n → s_start ≤ s_stop ≤ n →
  0 ≤ x < s_stop - s_start →
  s_start / c ≤ (x + s_start) / c ≤ Z.min (s_stop / c) (m - 1).
Proof.
  intros Hc Hm Hs1 Hs2 Hx.
  pose proof (div_bounds s_start c Hc).
  pose proof (div_bounds s_stop c Hc).
  pose proof (div_bounds (x + s_start) c Hc).
  pose proof (div_bounds (n + c - 1) c Hc) as H3. rewrite <- Hm in H3.
  split; [nia|]. apply Z.min_glb; nia.
Qed.
(** The three lists of an axis have one entry per touched chunk. *)
Lemma axis_chunks_length s c m :
  let ax := axis_chunks s c m in
  length (ltarget ax) = length (index_ax ax)
  ∧ length (gtarget ax) = length (index_ax ax)
  ∧ length (index_ax ax)
    = Z.to_nat (Z.min (stop s / c) (m - 1) + 1 - start s / c).
Proof.
  simpl. rewrite !length_fmap. unfold range. by rewrite length_seqZ.
Qed.

Lemma axis_chunks_lookup s c m j :
  let ax := axis_chunks s c m in
  let sc := start s / c in
  let ec := Z.min (stop s / c) (m - 1) in
  let i := sc + Z.of_nat j in
  let lstart := if i =? sc then start s - sc * c else 0 in
  let lstop := if i =? ec then stop s - Z.max 0 ec * c else c in
  (j < length (index_ax ax))%nat →
  index_ax ax !!! j = i
  ∧ ltarget ax !!! j = Slice lstart lstop
  ∧ gtarget ax !!! j = Slice (i * c - start s + lstart) (i * c - start s + lstop).
Proof.
  intros ax sc ec i lstart lstop Hj.
  destruct (axis_chunks_length s c m) as (_ & _ & Hlen).
  fold ax sc ec in Hlen.
  assert (index_ax ax !! j = Some i) as Hi.
  { apply lookup_seqZ. split; [done|]. lia. }
  split_and!; apply list_lookup_total_correct; [done| |];
    unfold ax, axis_chunks; cbn [ltarget gtarget];
    rewrite list_lookup_fmap; fold sc ec;
    change (range sc (ec + 1)) with (index_ax ax); by rewrite Hi.
Qed.

(** Everything the mapping promises about one axis: the touched chunk
    is in the grid, the local slice lies inside the chunk, the global
    slice is the local one moved to the coordinates of the request, and
    the points of the global slice are the points of the request that
    this chunk holds. *)
Lemma axis_record s c n m j :
  axis_ok n c m → slice_in_bounds s n →
  let ax := axis_chunks s c m in
  (j < length (index_ax ax))%nat →
  let i := index_ax ax !!! j in
  let l := ltarget ax !!! j in
  let g := gtarget ax !!! j in
  0 ≤ i < m
  ∧ (0 ≤ start l ≤ stop l ∧ stop l ≤ c)
  ∧ (start g = i * c + start l - start s ∧ stop g = i * c + stop l - start s)
  ∧ (0 ≤ start g ∧ stop g ≤ stop s - start s)
  ∧ ∀ x, start g ≤ x < stop g
         ↔ 0 ≤ x < stop s - start s
           ∧ Z.to_nat ((x + start s) / c - start s / c) = j.
Proof.
  intros [Hc Hm] [Hs1 Hs2] ax Hj i l g. subst i l g ax.
  destruct (axis_chunks_lookup s c m j Hj) as (-> & -> & ->).
  destruct (axis_chunks_length s c m) as (_ & _ & Hlen).
  rewrite Hlen in Hj.
  cbn [start stop].
  destruct (axis_arith c n m (start s) (stop s) (start s / c + Z.of_nat j)
              Hc Hm Hs1 Hs2) as (Hsc & Hec & Hrange).
  destruct Hrange as (Hl & Hl' & Hg & Hx); [lia|].
  split_and!; try lia.
  intros x. rewrite Hx. clear Hx. split.
  - intros [Hb Hq]. split; [done|]. rewrite Hq. lia.
  - intros [Hb Hq]. split; [done|].
    pose proof (axis_owner_touched c n m (start s) (stop s) x
                  Hc Hm Hs1 Hs2 Hb). lia.
Qed.

Lemma axis_owner_valid s c n m x :
  axis_ok n c m → slice_in_bounds s n →
  0 ≤ x < stop s - start s →
  (Z.to_nat ((x + start s) / c - start s / c)
   < length (index_ax (axis_chunks s c m)))%nat.
Proof.
  intros [Hc Hm] [Hs1 Hs2] Hx.
  destruct (axis_chunks_length s c m) as (_ & _ & ->).
  pose proof (axis_owner_touched c n m (start s) (stop s) x
                Hc Hm Hs1 Hs2 Hx). lia.
Qed.

(** The multi-indexes enumerated by [np.ndindex]. *)
Lemma elem_of_ndindex lens idx :
  idx ∈ ndindex lens ↔ Forall2 (λ (j n : nat), (j < n)%nat) idx lens.
Proof.
  revert idx. induction lens as [|n lens IH]; intros idx; cbn [ndindex].
  - rewrite list_elem_of_singleton. split; [by intros ->|].
    by intros ->%Forall2_nil_inv_r.
  - rewrite list_elem_of_bind. split.
    + intros (j & (idx' & -> & Hin)%list_elem_of_fmap & Hj%elem_of_seq).
      apply Forall2_cons; split; [lia|]. by apply IH.
    + intros (j & idx' & Hj & Hall & ->)%Forall2_cons_inv_r.
      exists j. split.
      * apply list_elem_of_fmap. exists idx'. split; [done|]. by apply IH.
      * apply elem_of_seq. lia.
Qed.

Lemma NoDup_ndindex lens : NoDup (ndindex lens).
Proof.
  induction lens as [|n lens IH]; cbn [ndindex].
  - apply NoDup_singleton.
  - apply NoDup_bind.
    + intros j1 j2 idx _ _ (? & -> & _)%list_elem_of_fmap
        (? & [= -> _] & _)%list_elem_of_fmap. done.
    + intros j _. apply NoDup_fmap; [|done]. by intros ?? [=].
    + apply NoDup_seq.
Qed.
Lemma axes_ok_intro ds slices :
  geometry_ok ds → in_bounds ds slices →
  axes_ok slices (shape ds) (chunk_size ds) (chunks ds).
Proof.
  unfold geometry_ok, in_bounds. intros Hgeo. revert slices.
  induction Hgeo as [|n c m extents sizes grid Hax _ IH]; intros slices Hb.
  - apply Forall2_nil_inv_r in Hb as ->. constructor.
  - apply Forall2_cons_inv_r in Hb as (s & slices' & Hs & Hb & ->).
    constructor; auto.
Qed.

(** The record picked for a multi-index of touched chunks. *)
Lemma pick_axes_spec slices extents sizes grid :
  axes_ok slices extents sizes grid →
  ∀ idx,
    Forall2 (λ (j n : nat), (j < n)%nat) idx
      (touched_lens (zip_axes slices sizes grid)) →
    let r := pick_axes (zip_axes slices sizes grid) idx in
    Forall2 (λ i m, 0 ≤ i < m) (rec_index r) grid
    ∧ local_global_agree slices sizes r
    ∧ ∀ p, in_slices p (rec_gslice r)
           ↔ in_box p (tshape slices) ∧ owner slices sizes p = idx.
Proof.
  induction 1 as [|s n c m slices extents sizes grid Hax Hs _ IH];
    intros idx Hidx; cbn [zip_axes touched_lens fmap list_fmap] in Hidx.
  - apply Forall2_nil_inv_r in Hidx as ->. cbn. split_and!; try done.
    intros p. unfold in_slices, in_box. cbn. split.
    + by intros ->%Forall2_nil_inv_r.
    + by intros [->%Forall2_nil_inv_r _].
  - apply Forall2_cons_inv_r in Hidx as (j & idx' & Hj & Hidx & ->).
    destruct (IH idx' Hidx) as (Hgrid & (Hl1 & Hl2 & Hl3 & Hagree) & Hcover).
    destruct (axis_record s c n m j Hax Hs Hj) as (Hi & Hl & Hg & Hg' & Hx).
    cbn [zip_axes pick_axes rec_index rec_lslice rec_gslice].
    generalize dependent (index_ax (axis_chunks s c m) !!! j).
    generalize dependent (ltarget (axis_chunks s c m) !!! j).
    generalize dependent (gtarget (axis_chunks s c m) !!! j).
    intros g0 Hg' Hx l0 Hl i0 Hi Hg.
    split_and!.
    + by apply Forall2_cons.
    + unfold local_global_agree.
      cbn [length rec_index rec_lslice rec_gslice].
      rewrite Hl1, Hl2, Hl3. split_and!; try done.
      intros [|k] s' c' i' l' g'; cbn.
      * intros [= <-] [= <-] [= <-] [= <-] [= <-]. split_and!; lia.
      * apply Hagree.
    + intros p. unfold in_slices, in_box in *.
      cbn [tshape fmap list_fmap]. split.
      * intros (x & p' & Hxg & Hp' & ->)%Forall2_cons_inv_r.
        apply Hx in Hxg as [Hxb Hxj]. apply Hcover in Hp' as [Hp' Hown].
        split; [by apply Forall2_cons|]. cbn [owner]. by rewrite Hxj, Hown.
      * intros [(x & p' & Hxb & Hp' & ->)%Forall2_cons_inv_r Hown].
        cbn [owner] in Hown. injection Hown as Hxj Hown.
        apply Forall2_cons. split; [apply Hx|apply Hcover]; done.
Qed.

(** The owner of a point of the requested region is a multi-index that
    the iterator enumerates. *)
Lemma owner_valid slices extents sizes grid p :
  axes_ok slices extents sizes grid →
  in_box p (tshape slices) →
  Forall2 (λ (j n : nat), (j < n)%nat) (owner slices sizes p)
    (touched_lens (zip_axes slices sizes grid)).
Proof.
  intros Hok. revert p.
  induction Hok as [|s n c m slices extents sizes grid Hax Hs _ IH];
    intros p Hp; unfold in_box in *; cbn [tshape fmap list_fmap] in Hp.
  - apply Forall2_nil_inv_r in Hp as ->. constructor.
  - apply Forall2_cons_inv_r in Hp as (x & p' & Hx & Hp' & ->).
    cbn [owner zip_axes touched_lens fmap list_fmap].
    apply Forall2_cons. split; [|by apply IH].
    by eapply axis_owner_valid.
Qed.
End chunk_slice_iterator.

(** Every point of the requested region lies in the global region of
    exactly one record, the one its owner picks; every record is in the
    grid and consistent with the request. *)
Lemma iterator_record_of_point ds slices :
  geometry_ok ds → in_bounds ds slices →
  let axes := zip_axes slices (chunk_size ds) (chunks ds) in
  let records := _get_chunk_slice_iterator ds slices in
  (∀ r, r ∈ records →
        in_grid ds (rec_index r) ∧ local_global_agree slices (chunk_size ds) r)
  ∧ ∀ p, in_box p (tshape slices) →
      let r := pick_axes axes (owner slices (chunk_size ds) p) in
      r ∈ records ∧ in_slices p (rec_gslice r)
      ∧ ∀ r', r' ∈ records → in_slices p (rec_gslice r') → r' = r.
Proof.
  intros Hgeo Hb axes records.
  pose proof (axes_ok_intro ds slices Hgeo Hb) as Hok.
  pose proof (pick_axes_spec _ _ _ _ Hok) as Hpick.
  unfold records, _get_chunk_slice_iterator. fold touched_lens. split.
  - intros r (idx & -> & Hidx%elem_of_ndindex)%list_elem_of_fmap.
    destruct (Hpick idx Hidx) as (? & ? & _). done.
  - intros p Hp. cbv zeta.
    pose proof (owner_valid _ _ _ _ p Hok Hp) as Hidx.
    split_and!.
    + apply list_elem_of_fmap. eexists. split; [done|]. by apply elem_of_ndindex.
    + by apply (Hpick _ Hidx).
    + intros r' (idx & -> & Hidx'%elem_of_ndindex)%list_elem_of_fmap Hp'.
      apply (Hpick _ Hidx') in Hp' as [_ <-]. done.
Qed.

(** C1. For a normalized in-bounds slice list, the records of the
    chunk/region mapping cover the requested region exactly: every chunk
    index lies in the chunk grid, the local and global slices of a record
    describe the same cells, the union of the global regions is the
    requested region (no gaps, nothing outside), and the global regions of
    two distinct records share no point. *)
Theorem chunk_slice_iterator_exact_cover (ds : Dataset) (slices : list slice) :
  geometry_ok ds → in_bounds ds slices →
  let records := _get_chunk_slice_iterator ds slices in
  (∀ r, r ∈ records →
        in_grid ds (rec_index r) ∧ local_global_agree slices (chunk_size ds) r)
  ∧ (∀ p, (∃ r, r ∈ records ∧ in_slices p (rec_gslice r))
          ↔ in_box p (tshape slices))
  ∧ (∀ i j r1 r2 p,
        records !! i = Some r1 → records !! j = Some r2 → i ≠ j →
        ¬ (in_slices p (rec_gslice r1) ∧ in_slices p (rec_gslice r2))).
Proof.
  intros Hgeo Hb records.
  pose proof (axes_ok_intro ds slices Hgeo Hb) as Hok.
  pose proof (pick_axes_spec _ _ _ _ Hok) as Hpick.
  unfold records, _get_chunk_slice_iterator. fold touched_lens.
  split_and!.
  - intros r (idx & -> & Hidx%elem_of_ndindex)%list_elem_of_fmap.
    destruct (Hpick idx Hidx) as (? & ? & _). done.
  - intros p. split.
    + intros (r & (idx & -> & Hidx%elem_of_ndindex)%list_elem_of_fmap & Hp).
      destruct (Hpick idx Hidx) as (_ & _ & Hcover). by apply Hcover in Hp as [? _].
    + intros Hp. pose proof (owner_valid _ _ _ _ p Hok Hp) as Hidx.
      exists (pick_axes (zip_axes slices (chunk_size ds) (chunks ds))
                (owner slices (chunk_size ds) p)).
      split.
      * apply list_elem_of_fmap. eexists. split; [done|]. by apply elem_of_ndindex.
      * by apply (Hpick _ Hidx).
  - intros i j r1 r2 p Hi Hj Hne [Hp1 Hp2].
    rewrite list_lookup_fmap in Hi, Hj.
    destruct (ndindex _ !! i) as [idx1|] eqn:H1; [|done].
    destruct (ndindex _ !! j) as [idx2|] eqn:H2; [|done].
    injection Hi as <-. injection Hj as <-.
    assert (idx1 ∈ ndindex (touched_lens (zip_axes slices (chunk_size ds) (chunks ds))))
      as Hv1%elem_of_ndindex by (by eapply list_elem_of_lookup_2).
    assert (idx2 ∈ ndindex (touched_lens (zip_axes slices (chunk_size ds) (chunks ds))))
      as Hv2%elem_of_ndindex by (by eapply list_elem_of_lookup_2).
    apply (Hpick _ Hv1) in Hp1 as [_ Ho1]. apply (Hpick _ Hv2) in Hp2 as [_ Ho2].
    apply Hne. eapply NoDup_lookup; [apply NoDup_ndindex|done|].
    by rewrite <- Ho1, Ho2.
Qed.

Lemma chunk_slice_iterator_exact_cover_witness :
  let ds := {| name := "d"; shape := [10; 7]; dtype := "int32";
               fillvalue := -1; chunks := [4; 2]; chunk_size := [3; 4];
               njobs := None; read_only := false |} in
  let slices := [Slice 2 9; Slice 0 7] in
  let records := _get_chunk_slice_iterator ds slices in
  (∀ r, r ∈ records →
        in_grid ds (rec_index r) ∧ local_global_agree slices (chunk_size ds) r)
  ∧ (∀ p, (∃ r, r ∈ records ∧ in_slices p (rec_gslice r))
          ↔ in_box p (tshape slices))
  ∧ (∀ i j r1 r2 p,
        records !! i = Some r1 → records !! j = Some r2 → i ≠ j →
        ¬ (in_slices p (rec_gslice r1) ∧ in_slices p (rec_gslice r2))).
Proof.
  intros ds slices.
  apply (chunk_slice_iterator_exact_cover ds slices).
  - repeat constructor; simpl; lia.
  - repeat constructor; simpl; lia.
Defined.

(** The mapping on the example of the specification: shape (10,), chunk
    size (3,), request [0:3]. The request ends on a chunk boundary, and
    the iterator also yields chunk 1 with an empty local and global slice. *)
Example chunk_slice_iterator_boundary :
  let ds := {| name := "d"; shape := [10]; dtype := "int32";
               fillvalue := -1; chunks := [4]; chunk_size := [3];
               njobs := None; read_only := false |} in
  _get_chunk_slice_iterator ds [Slice 0 3]
  = [ ChunkRecord [0] [Slice 0 3] [Slice 0 3];
      ChunkRecord [1] [Slice 0 0] [Slice 3 3] ].
Proof. reflexivity. Qed.

(** ** Chunk index normalization *)

Section transform_chunk_index.
Implicit Types (ds : Dataset) (dims idx : list Z).

Lemma prod_pos dims : Forall (λ m, 0 < m) dims → 0 < prod dims.
Proof.
  induction 1 as [|d dims Hd _ IH]; cbn [prod foldr]; [lia|].
  fold (prod dims). nia.
Qed.

(** [np.unravel_index] inverts the row-major flattening and stays in
    the grid. *)
Lemma unravel_spec dims i :
  Forall (λ m, 0 < m) dims → 0 ≤ i < prod dims →
  length (unravel i dims) = length dims
  ∧ Forall2 (λ c m, 0 ≤ c < m) (unravel i dims) dims
  ∧ ravel (unravel i dims) dims = i.
Proof.
  intros Hpos. revert i.
  induction Hpos as [|d dims Hd Hpos IH]; intros i Hi; cbn [unravel ravel].
  - cbn in Hi. split_and!; [done|constructor|lia].
  - cbn [prod foldr] in Hi. fold (prod dims) in Hi.
    pose proof (prod_pos dims Hpos) as HP.
    pose proof (Z.mod_pos_bound i (prod dims) HP) as Hmod.
    destruct (IH (i mod prod dims) Hmod) as (Hlen & Hgrid & Hravel).
    pose proof (Z.div_mod i (prod dims)) as Hdm.
    split_and!.
    + cbn [length]. by rewrite Hlen.
    + constructor; [|done]. split.
      * apply Z.div_pos; lia.
      * apply Z.div_lt_upper_bound; lia.
    + rewrite Hravel. lia.
Qed.

(** What [_transform_chunk_index] lets through has the rank of the
    dataset and every component below the extent of the grid. *)
Lemma transform_chunk_index_OK ds arg idx :
  _transform_chunk_index ds arg = OK idx →
  length idx = ndim ds
  ∧ ∀ k c m, idx !! k = Some c → chunks ds !! k = Some m → c < m.
Proof.
  unfold _transform_chunk_index.
  match goal with
  | |- rbind ?m _ = _ → _ => destruct m as [idx0|]; cbn [rbind]; [|done]
  end.
  match goal with
  | |- rbind ?m _ = _ → _ => destruct m as [idx'|]; cbn [rbind]; [|done]
  end.
  destruct (length idx' =? length (shape ds))%nat eqn:Hlen; [|done].
  destruct (existsb _ _) eqn:Hex; [done|]. intros [= ->].
  apply Nat.eqb_eq in Hlen. split; [done|].
  intros k c m Hc Hm.
  destruct (decide (c < m)) as [|Hge]; [done|].
  assert (existsb (λ '(c1, c2), c2 <=? c1) (zip idx (chunks ds)) = true)
    as Habs; [|congruence].
  apply existsb_exists. exists (c, m). split.
  - apply list_elem_of_In, list_elem_of_lookup. exists k.
    by apply lookup_zip_with_Some; eauto.
  - apply Z.leb_le. lia.
Qed.

(** A multi-axis index of the right rank with a component at or beyond
    the grid is rejected. *)
Lemma transform_chunk_index_out_of_grid ds l k c m :
  (1 < ndim ds)%nat → length l = ndim ds →
  l !! k = Some c → chunks ds !! k = Some m → m ≤ c →
  _transform_chunk_index ds (CSeq l)
  = Raise (DatasetException OutOfLimitsChunk).
Proof.
  intros Hrank Hlen Hc Hm Hle. unfold _transform_chunk_index.
  destruct l as [|c0 [|c1 l]]; cbn [length] in Hlen; [lia|lia|].
  cbn [rbind]. fold (ndim ds). rewrite <- Hlen, Nat.eqb_refl.
  assert (existsb (λ '(c1, c2), c2 <=? c1)
            (zip (c0 :: c1 :: l) (chunks ds)) = true) as ->; [|done].
  apply existsb_exists. exists (c, m). split.
  - apply list_elem_of_In, list_elem_of_lookup. exists k.
    by apply lookup_zip_with_Some; eauto.
  - by apply Z.leb_le.
Qed.

(** An index of neither rank 1 nor the rank of the dataset is rejected. *)
Lemma transform_chunk_index_wrong_rank ds l :
  (1 < length l)%nat → length l ≠ ndim ds →
  _transform_chunk_index ds (CSeq l)
  = Raise (DatasetException IncorrectChunkIndex).
Proof.
  intros Hl Hrank. unfold _transform_chunk_index.
  destruct l as [|c0 [|c1 l]]; cbn [length] in Hl; [lia|lia|].
  cbn [rbind]. fold (ndim ds).
  by apply Nat.eqb_neq in Hrank as ->.
Qed.
End transform_chunk_index.

(** C6. On a dataset of rank above 1, a single integer [i] with
    [0 ≤ i < total_chunks] given to a chunk operation is a flat index: it
    is unraveled against the chunk grid to the multi-axis index at flat
    position [i], which has the rank of the dataset and lies in the grid,
    and each public operation continues with that index. An index is
    only ever let through with the right rank and below the grid; a
    multi-axis index of the right rank beyond the grid is rejected with
    the out-of-grid error. *)
Theorem transform_chunk_index_flat (ds : Dataset) (i : Z) :
  (1 < ndim ds)%nat → length (chunks ds) = ndim ds →
  Forall (λ m, 0 < m) (chunks ds) →
  0 ≤ i < total_chunks ds →
  let idx := unravel i (chunks ds) in
  _transform_chunk_index ds (CInt i) = OK idx
  ∧ (length idx = ndim ds ∧ in_grid ds idx ∧ ravel idx (chunks ds) = i)
  ∧ (∀ σ, has_chunk ds (CInt i) σ = _has_chunk ds idx σ)
  ∧ (∀ σ, get_chunk ds (CInt i) σ = _get_chunk ds idx σ)
  ∧ (∀ σ, get_chunk_data ds (CInt i) None σ = _get_chunk_data ds idx None σ)
  ∧ (∀ σ data, set_chunk_data ds (CInt i) data None σ
               = _set_chunk_data ds idx data None σ)
  ∧ (∀ arg idx', _transform_chunk_index ds arg = OK idx' →
       length idx' = ndim ds
       ∧ ∀ k c m, idx' !! k = Some c → chunks ds !! k = Some m → c < m)
  ∧ (∀ l k c m, length l = ndim ds →
       l !! k = Some c → chunks ds !! k = Some m → m ≤ c →
       ∃ x, _transform_chunk_index ds (CSeq l) = Raise x ∧ InvalidIndex x).
Proof.
  intros Hrank Hlen Hpos Hi idx.
  destruct (unravel_spec (chunks ds) i Hpos Hi) as (Hl & Hgrid & Hravel).
  assert (_transform_chunk_index ds (CInt i) = OK idx) as Htr.
  { unfold _transform_chunk_index, np_unravel_index. cbn [rbind].
    unfold total_chunks in Hi.
    assert ((1 <? ndim ds)%nat = true) as -> by by apply Nat.ltb_lt.
    assert ((i <? total_chunks ds) = true) as ->
      by (apply Z.ltb_lt; unfold total_chunks; lia).
    assert ((0 <=? i) = true) as -> by (apply Z.leb_le; lia).
    assert ((i <? prod (chunks ds)) = true) as -> by (apply Z.ltb_lt; lia).
    cbn [andb rbind]. fold idx (ndim ds).
    assert ((length idx =? ndim ds)%nat = true) as ->
      by (apply Nat.eqb_eq; unfold idx; lia).
    destruct (existsb _ _) eqn:Hex; [|done].
    apply existsb_exists in Hex as ([c m] & Hin & Hle).
    apply list_elem_of_In, list_elem_of_lookup in Hin as [k Hk].
    apply lookup_zip_with_Some in Hk as (c' & m' & [= <- <-] & Hc & Hm).
    pose proof (Forall2_lookup_lr _ _ _ _ _ _ Hgrid Hc Hm) as Hcm.
    apply Z.leb_le in Hle. simpl in Hcm. lia. }
  split_and!.
  - done.
  - unfold idx, ndim. by rewrite Hl, Hlen.
  - done.
  - done.
  - intros σ. unfold has_chunk. by rewrite Htr.
  - intros σ. unfold get_chunk. by rewrite Htr.
  - intros σ. unfold get_chunk_data. by rewrite Htr.
  - intros σ data. unfold set_chunk_data. by rewrite Htr.
  - intros arg idx'. apply transform_chunk_index_OK.
  - intros l k c m Hll Hc Hm Hle. eexists. split.
    + by eapply transform_chunk_index_out_of_grid.
    + exact I.
Qed.

Lemma transform_chunk_index_flat_witness :
  let ds := {| name := "d"; shape := [10; 7]; dtype := "int32";
               fillvalue := -1; chunks := [4; 2]; chunk_size := [3; 4];
               njobs := None; read_only := false |} in
  _transform_chunk_index ds (CInt 5) = OK [2; 1]
  ∧ ravel [2; 1] (chunks ds) = 5.
Proof.
  intros ds.
  destruct (transform_chunk_index_flat ds 5) as (Htr & (_ & _ & Hravel) & _).
  - unfold ndim. simpl. lia.
  - reflexivity.
  - repeat constructor.
  - unfold total_chunks. simpl. lia.
  - split; [exact Htr|exact Hravel].
Defined.

(** ** Arrays *)

Section arrays.
Implicit Types (extents q : list Z) (f : list Z → Z).

Lemma elem_of_points extents q : q ∈ points extents ↔ in_box q extents.
Proof.
  unfold in_box. revert q.
  induction extents as [|n extents IH]; intros q; cbn [points].
  - rewrite list_elem_of_singleton. split; [by intros ->|].
    by intros ->%Forall2_nil_inv_r.
  - rewrite list_elem_of_bind. split.
    + intros (x & (q' & -> & Hin)%list_elem_of_fmap & Hx%elem_of_seqZ).
      apply Forall2_cons; split; [lia|]. by apply IH.
    + intros (x & q' & Hx & Hall & ->)%Forall2_cons_inv_r.
      exists x. split.
      * apply list_elem_of_fmap. exists q'. split; [done|]. by apply IH.
      * apply elem_of_seqZ. lia.
Qed.

Lemma NoDup_points extents : NoDup (points extents).
Proof.
  induction extents as [|n extents IH]; cbn [points].
  - apply NoDup_singleton.
  - apply NoDup_bind.
    + intros x1 x2 q _ _ (? & -> & _)%list_elem_of_fmap
        (? & [= -> _] & _)%list_elem_of_fmap. done.
    + intros x _. apply NoDup_fmap; [|done]. by intros ?? [=].
    + apply NoDup_seqZ.
Qed.

Lemma lookup_tabulate extents f q :
  tabulate extents f !! q
  = if decide (q ∈ points extents) then Some (f q) else None.
Proof.
  unfold tabulate. case_decide as Hq.
  - apply elem_of_list_to_map_1.
    + rewrite <- list_fmap_compose. rewrite list_fmap_id. apply NoDup_points.
    + apply list_elem_of_fmap. by exists q.
  - apply not_elem_of_list_to_map_1.
    by rewrite <- list_fmap_compose, list_fmap_id.
Qed.

Lemma lookup_tabulate_Some extents f q v :
  tabulate extents f !! q = Some v ↔ in_box q extents ∧ v = f q.
Proof.
  rewrite lookup_tabulate, <- elem_of_points.
  case_decide as Hq; split.
  - by intros [= <-].
  - by intros [_ ->].
  - done.
  - by intros [? _].
Qed.

Lemma forallb_nonneg extents :
  forallb (λ n, 0 <=? n) extents = true ↔ Forall (λ n, 0 ≤ n) extents.
Proof.
  rewrite forallb_forall, Forall_forall.
  split; intros H n Hn.
  - apply Z.leb_le, H. by apply list_elem_of_In.
  - apply Z.leb_le, H. by apply list_elem_of_In.
Qed.

(** [np.full]: the shape asked for, every cell the given value. *)
Lemma np_full_spec extents v dtype :
  Forall (λ n, 0 ≤ n) extents →
  ∃ a, np_full extents v dtype = OK a
       ∧ arr_shape a = extents ∧ arr_dtype a = dtype
       ∧ ∀ q, arr_cells a !! q = if decide (in_box q extents) then Some v else None.
Proof.
  intros Hpos. unfold np_full.
  apply forallb_nonneg in Hpos as ->. eexists. split_and!; try done.
  intros q. cbn. rewrite lookup_tabulate.
  repeat case_decide; try done; by rewrite elem_of_points in *.
Qed.
End arrays.

(** ** Lazy chunks *)

(** A normalized slice list never has a stop before its start. *)
Lemma process_entries_ordered ds i es final_slices squeeze_axis :
  process_entries ds i es = OK (final_slices, squeeze_axis) →
  Forall (λ s, start s ≤ stop s) final_slices.
Proof.
  revert i final_slices squeeze_axis.
  induction es as [|e es IH]; intros i fs sq; cbn [process_entries].
  - intros [= <- <-]. constructor.
  - destruct (process_entry ds i e) as [[sl b]|] eqn:He; cbn [rbind]; [|done].
    destruct (process_entries ds (S i) es) as [[fs' sq']|] eqn:Hes;
      cbn [rbind]; [|done].
    intros [= <- <-]. constructor; [|by eapply IH].
    clear Hes IH. unfold process_entry in He.
    destruct e as [z|a b' c| |]; try done.
    + injection He as <- <-. simpl. lia.
    + revert He. destruct (shape_at ds i) as [n|]; cbn [rbind];
        destruct b' as [b'|]; cbn [rbind]; try done;
        repeat (case_match; cbn [rbind]; try done);
        intros [= <- <-]; cbn [start stop]; lia.
Qed.

(** Without a backing object the existence check answers false and the
    read is the array that [np.full] makes; the pool is not touched. *)
Lemma get_chunk_data_absent ds σ chunk_idx slices :
  σ !! __chunkname ds chunk_idx = None →
  _has_chunk ds chunk_idx σ = (OK false, σ)
  ∧ _get_chunk_data ds chunk_idx slices σ
    = (np_full match slices with
               | None => chunk_size ds
               | Some sl => tshape sl
               end (fillvalue ds) (dtype ds), σ).
Proof.
  intros Hnone.
  assert (_has_chunk ds chunk_idx σ = (OK false, σ)) as Hhas.
  { unfold _has_chunk, pool_has_chunk. rewrite Hnone.
    by rewrite bool_decide_eq_false_2 by by intros [? ?]. }
  split; [done|].
  unfold _get_chunk_data, mbind_pool. rewrite Hhas. unfold lift.
  by destruct slices.
Qed.

(** C4. Reading the data of a chunk that has no backing object returns an
    array of the requested sub-shape (of the chunk shape when no
    sub-region is given) whose every cell holds the fill value; the pool
    is left as it was, and [_has_chunk] still answers false. *)
Theorem get_chunk_data_unwritten (ds : Dataset)
    (σ : gmap string pool_object) (chunk_idx : list Z)
    (slices : option (list slice)) :
  σ !! __chunkname ds chunk_idx = None →
  let extents := match slices with
                 | None => chunk_size ds
                 | Some sl => tshape sl
                 end in
  Forall (λ n, 0 ≤ n) extents →
  ∃ a σ',
    _get_chunk_data ds chunk_idx slices σ = (OK a, σ')
    ∧ arr_shape a = extents
    ∧ (∀ q, in_box q extents → arr_cells a !! q = Some (fillvalue ds))
    ∧ (∀ q v, arr_cells a !! q = Some v → v = fillvalue ds)
    ∧ σ' = σ
    ∧ _has_chunk ds chunk_idx σ' = (OK false, σ').
Proof.
  intros Hnone extents Hpos.
  destruct (np_full_spec extents (fillvalue ds) (dtype ds) Hpos)
    as (a & Hfull & Hshape & _ & Hcells).
  assert (_has_chunk ds chunk_idx σ = (OK false, σ)) as Hhas.
  { unfold _has_chunk, pool_has_chunk. rewrite Hnone.
    by rewrite bool_decide_eq_false_2 by by intros [? ?]. }
  exists a, σ. split_and!; try done.
  - unfold _get_chunk_data, mbind_pool. rewrite Hhas. unfold lift.
    destruct slices; by rewrite <- Hfull.
  - intros q Hq. rewrite Hcells. by rewrite decide_True.
  - intros q v. rewrite Hcells. case_decide; congruence.
Qed.

Lemma get_chunk_data_unwritten_witness :
  let ds := {| name := "d"; shape := [10; 7]; dtype := "int32";
               fillvalue := -1; chunks := [4; 2]; chunk_size := [3; 4];
               njobs := None; read_only := false |} in
  ∃ a σ',
    _get_chunk_data ds [1; 0] (Some [Slice 0 2; Slice 1 4]) ∅ = (OK a, σ')
    ∧ arr_shape a = [2; 3]
    ∧ (∀ q, in_box q [2; 3] → arr_cells a !! q = Some (-1))
    ∧ (∀ q v, arr_cells a !! q = Some v → v = -1)
    ∧ σ' = ∅
    ∧ _has_chunk ds [1; 0] σ' = (OK false, σ').
Proof.
  intros ds.
  apply (get_chunk_data_unwritten ds ∅ [1; 0] (Some [Slice 0 2; Slice 1 4])).
  - reflexivity.
  - repeat constructor; simpl; lia.
Defined.

(** The same through the public entry point: whatever index and
    sub-region the validation lets through, a chunk without a backing
    object reads as fill values and stays without one. *)
Lemma get_chunk_data_public_unwritten (ds : Dataset)
    (σ : gmap string pool_object) arg slices chunk_idx sl :
  Forall (λ n, 0 ≤ n) (chunk_size ds) →
  _transform_chunk_index ds arg = OK chunk_idx →
  process_optional_slices ds slices = OK sl →
  σ !! __chunkname ds chunk_idx = None →
  ∃ a, get_chunk_data ds arg slices σ = (OK a, σ)
       ∧ (∀ q v, arr_cells a !! q = Some v → v = fillvalue ds)
       ∧ has_chunk ds arg σ = (OK false, σ).
Proof.
  intros Hsize Htr Hsl Hnone.
  assert (Forall (λ n, 0 ≤ n)
            match sl with None => chunk_size ds | Some l => tshape l end) as Hpos.
  { destruct sl as [l|]; [|done]. destruct slices as [ix|]; [|done].
    cbn in Hsl. unfold _process_slices in Hsl.
    destruct (wrap_index ix) as [es|]; cbn [rbind] in Hsl; [|done].
    destruct (fit_to_rank ds es) as [es'|]; cbn [rbind] in Hsl; [|done].
    destruct (process_entries ds 0 es') as [[fs sq]|] eqn:Hes;
      cbn [rbind] in Hsl; [|done].
    injection Hsl as <-. apply process_entries_ordered in Hes.
    unfold tshape. apply Forall_fmap. eapply Forall_impl; [done|].
    simpl. intros s ?. lia. }
  destruct (get_chunk_data_absent ds σ chunk_idx sl Hnone) as [Hhas Hget].
  destruct (np_full_spec _ (fillvalue ds) (dtype ds) Hpos)
    as (a & Hfull & _ & _ & Hcells).
  rewrite Hfull in Hget.
  exists a. split_and!.
  - unfold get_chunk_data, mbind_pool, lift. by rewrite Htr, Hsl.
  - intros q v. rewrite Hcells. case_decide; congruence.
  - unfold has_chunk, mbind_pool, lift. by rewrite Htr.
Qed.

(** ** Dataset creation *)

Section create.
Variable pool_njobs : option Z.
Variable schedule : ∀ A : Type, list A → list A.

Local Abbreviation exists_error := (DatasetException ObjectAlreadyExists).

Lemma never_mret {A} e (a : A) : never_raises e (mret a).
Proof. by intros σ. Qed.

Lemma never_mraise {A} e e' : e' ≠ e → never_raises e (@mraise A e').
Proof. intros Hne σ. cbn. congruence. Qed.

Lemma never_lift {A} e (r : result A) : r ≠ Raise e → never_raises e (lift r).
Proof. by intros Hne σ. Qed.

Lemma never_bind {A B} e (m : M A) (k : A → M B) :
  never_raises e m → (∀ a, never_raises e (k a)) →
  never_raises e (mbind_pool m k).
Proof.
  intros Hm Hk σ. unfold mbind_pool. specialize (Hm σ).
  destruct (m σ) as [[a|e'] σ']; cbn in *; [apply Hk|congruence].
Qed.

Lemma never_after_OK {A B} e (m : M A) (k : A → M B) σ a σ' :
  m σ = (OK a, σ') → never_raises e (k a) →
  (mbind_pool m k σ).1 ≠ Raise e.
Proof. intros Hm Hk. unfold mbind_pool. rewrite Hm. apply Hk. Qed.

Lemma never_mfor {A} e (xs : list A) (body : A → M unit) :
  (∀ x, never_raises e (body x)) → never_raises e (mfor xs body).
Proof.
  intros Hbody. induction xs as [|x xs IH]; cbn [mfor].
  - apply never_mret.
  - apply never_bind; [apply Hbody|by intros _].
Qed.

(** The operations of the pool raise nothing but [ObjectNotFound] and
    [NoData]. *)
Lemma never_pool_has_chunk e oname : never_raises e (pool_has_chunk oname).
Proof. by intros σ. Qed.

Lemma never_pool_has_dataset e oname : never_raises e (pool_has_dataset oname).
Proof. by intros σ. Qed.

Lemma never_pool_write_full e oname data :
  never_raises e (pool_write_full oname data).
Proof. by intros σ. Qed.

Lemma never_pool_set_xattr e oname key v :
  never_raises e (pool_set_xattr oname key v).
Proof. by intros σ. Qed.

Lemma never_pool_read m oname :
  never_raises (DatasetException m) (pool_read oname).
Proof. intros σ. unfold pool_read. by destruct (σ !! oname). Qed.

Lemma never_pool_get_xattr m oname key :
  never_raises (DatasetException m) (pool_get_xattr oname key).
Proof.
  intros σ. unfold pool_get_xattr.
  destruct (σ !! oname) as [o|]; [|done]. by destruct (obj_xattrs o !! key).
Qed.

(** numpy raises no [DatasetException]. *)
Lemma np_full_not_ds shape v dtype m :
  np_full shape v dtype ≠ Raise (DatasetException m).
Proof. unfold np_full. by case_match. Qed.

Lemma np_getitem_not_ds a slices m :
  np_getitem a slices ≠ Raise (DatasetException m).
Proof. unfold np_getitem. by case_match. Qed.

Lemma np_setitem_not_ds a slices value m :
  np_setitem a slices value ≠ Raise (DatasetException m).
Proof. unfold np_setitem. by repeat case_match. Qed.

Lemma fromstring_not_ds elems dtype shape m :
  fromstring elems dtype shape ≠ Raise (DatasetException m).
Proof. unfold fromstring. by case_match. Qed.

Lemma rbind_not_raise {A B} e (m : result A) (k : A → result B) :
  m ≠ Raise e → (∀ a, k a ≠ Raise e) → rbind m k ≠ Raise e.
Proof.
  intros Hm Hk. destruct m; cbn [rbind]; [apply Hk|].
  intros [= ->]. by apply Hm.
Qed.

Lemma chunk_contents_not_exists shape dtype fill data slices :
  chunk_contents shape dtype fill data slices
  ≠ Raise (DatasetException ObjectAlreadyExists).
Proof.
  unfold chunk_contents. destruct data as [data|].
  - apply rbind_not_raise.
    + destruct slices; [apply np_getitem_not_ds|done].
    + intros data'. destruct shape as [shape|]; [|done].
      case_bool_decide; [done|]. destruct (forallb _ _); [|done].
      apply rbind_not_raise; [apply np_full_not_ds|]. intros cdata.
      apply rbind_not_raise; [apply np_setitem_not_ds|done].
  - destruct shape as [shape|]; [|done].
    apply rbind_not_raise; [apply np_full_not_ds|done].
Qed.

Lemma gchunk_bounds_not_ds ds idx m :
  _gchunk_bounds_slices ds idx ≠ Raise (DatasetException m).
Proof.
  unfold _gchunk_bounds_slices. generalize 0%nat (chunk_size ds).
  induction idx as [|i idx IH]; intros j sizes; cbn [gchunk_bounds_from];
    [done|].
  destruct sizes as [|s sizes]; [done|].
  unfold shape_at. destruct (shape ds !! j); cbn [rbind]; [|done].
  specialize (IH (S j) sizes).
  destruct (gchunk_bounds_from ds (S j) idx sizes); cbn [rbind]; congruence.
Qed.

Local Ltac never_step :=
  first
    [ apply never_mret
    | apply never_pool_has_chunk | apply never_pool_has_dataset
    | apply never_pool_write_full | apply never_pool_set_xattr
    | apply never_pool_read | apply never_pool_get_xattr
    | apply never_mraise; discriminate
    | apply never_lift; first [ apply np_full_not_ds | apply np_getitem_not_ds
                              | apply np_setitem_not_ds | apply fromstring_not_ds
                              | apply gchunk_bounds_not_ds
                              | apply chunk_contents_not_exists ]
    | apply never_bind; [|intros ?]
    | progress intros
    | match goal with
      | |- never_raises _ (match ?x with _ => _ end) => destruct x
      | |- never_raises _ (if ?b then _ else _) => destruct b
      | |- never_raises _ (let '(_, _) := ?x in _) => destruct x
      end ].

Lemma never_get_shape_xattr m oname key :
  never_raises (DatasetException m) (get_shape_xattr oname key).
Proof. unfold get_shape_xattr. repeat never_step. Qed.

Lemma never_get_text_xattr m oname key :
  never_raises (DatasetException m) (get_text_xattr oname key).
Proof. unfold get_text_xattr. repeat never_step. Qed.

Lemma never_get_value_xattr m oname key :
  never_raises (DatasetException m) (get_value_xattr oname key).
Proof. unfold get_value_xattr. repeat never_step. Qed.

Lemma never_DataChunk_init oname :
  never_raises exists_error (DataChunk_init oname).
Proof.
  unfold DataChunk_init.
  repeat first [ apply never_get_shape_xattr | apply never_get_text_xattr
               | never_step ].
Qed.

Lemma never_DataChunk_get_data chunk :
  never_raises exists_error (DataChunk_get_data chunk).
Proof. unfold DataChunk_get_data. repeat never_step. Qed.

Lemma never_set_chunk_data ds idx data slices :
  never_raises exists_error (_set_chunk_data ds idx data slices).
Proof.
  unfold _set_chunk_data, _has_chunk, _set_existing_chunk_data,
    _get_existing_chunk, _create_chunk, DataChunk_create,
    DataChunk_set_data, DataChunk_set_slices, DataChunk_write.
  repeat first [ apply never_DataChunk_init | apply never_DataChunk_get_data
               | never_step ].
Qed.

Lemma never_load ds data :
  never_raises exists_error (load schedule ds data).
Proof.
  unfold load, Parallel, _populate_dataset.
  repeat first [ apply never_mfor | apply never_set_chunk_data | never_step ].
Qed.
(** The preflight: a present object is the error, an absent one is the
    expected answer, caught and dropped. *)
Lemma create_preflight_present oname σ :
  is_Some (σ !! oname) →
  create_preflight oname σ = (Raise exists_error, σ).
Proof.
  intros [o Ho]. unfold create_preflight, try_except, mbind_pool, pool_stat.
  by rewrite Ho.
Qed.

Lemma create_preflight_absent oname σ :
  σ !! oname = None → create_preflight oname σ = (OK tt, σ).
Proof.
  intros Ho. unfold create_preflight, try_except, mbind_pool, pool_stat.
  by rewrite Ho.
Qed.

Lemma never_Dataset_init oname read_only njobs :
  never_raises exists_error (Dataset_init pool_njobs oname read_only njobs).
Proof.
  unfold Dataset_init.
  repeat first [ apply never_get_shape_xattr | apply never_get_text_xattr
               | apply never_get_value_xattr | never_step ].
Qed.

Lemma validate_chunk_shape_not_exists chunks shape :
  _validate_chunk_shape chunks shape ≠ Raise exists_error.
Proof.
  unfold _validate_chunk_shape. by repeat case_match.
Qed.

(** Creation on a free name with no source array: the object of the
    dataset is written with the signature marker and the five
    attributes, and the dataset read back has the geometry asked for. *)
Lemma create_fresh oname shape dtype fillvalue chunks read_only njobs
    chunk_size (σ : gmap string pool_object) :
  σ !! oname = None →
  _validate_chunk_shape chunks (Some shape) = OK chunk_size →
  create pool_njobs schedule oname (Some shape) dtype fillvalue chunks None
    read_only njobs σ
  = (OK {| name := oname; shape := shape; dtype := dtype;
           fillvalue := fillvalue;
           chunks := chunks_needed shape chunk_size;
           chunk_size := chunk_size;
           njobs := match njobs_or_pool pool_njobs njobs with
                    | None => pool_njobs
                    | Some n => Some n
                    end;
           read_only := read_only |},
     <[oname := PoolObject (PText signature)
                  (<["chunk_size" := AttrShape chunk_size]>
                   (<["chunks" := AttrShape (chunks_needed shape chunk_size)]>
                    (<["fillvalue" := AttrValue fillvalue]>
                     (<["dtype" := AttrText dtype]>
                      (<["shape" := AttrShape shape]> ∅)))))]> σ).
Proof.
  intros Ho Hcs. unfold create.
  unfold mbind_pool at 1. rewrite (create_preflight_absent _ _ Ho).
  unfold mbind_pool at 1. unfold lift at 1. rewrite Hcs.
  unfold mbind_pool, pool_write_full, pool_set_xattr, Dataset_init,
    pool_has_dataset, get_shape_xattr, get_text_xattr, get_value_xattr,
    pool_get_xattr, mbind_pool, mret.
  rewrite Ho. cbn [default].
  repeat (rewrite !lookup_insert_eq, !insert_insert_eq; cbn [obj_payload obj_xattrs]).
  rewrite bool_decide_eq_true_2 by done. cbn [negb].
  by simplify_map_eq.
Qed.
End create.

(** C5. [Dataset.create] raises its already-exists error exactly when an
    object of the given name exists. When [stat] answers, [create] raises
    and the pool is as it was; when [stat] raises [ObjectNotFound], the
    [try] statement catches it and creation goes on: with no source array
    and a valid chunk argument the dataset object is written and the
    dataset returned. *)
Theorem create_already_exists_iff (pool_njobs : option Z)
    (schedule : ∀ A : Type, list A → list A)
    (oname : string) (shape_arg : option (list Z)) (dtype_arg : string)
    (fill : Z) (chunks_arg : chunks_arg) (data : option ndarray)
    (ro : bool) (njobs_arg : option Z) (σ : gmap string pool_object) :
  let run := create pool_njobs schedule oname shape_arg dtype_arg fill
               chunks_arg data ro njobs_arg σ in
  (run.1 = Raise (DatasetException ObjectAlreadyExists) ↔ is_Some (σ !! oname))
  ∧ (is_Some (σ !! oname) → run.2 = σ)
  ∧ (σ !! oname = None → create_preflight oname σ = (OK tt, σ))
  ∧ (σ !! oname = None → data = None →
     ∀ shape' chunk_size',
       shape_arg = Some shape' →
       _validate_chunk_shape chunks_arg shape_arg = OK chunk_size' →
       ∃ ds σ', run = (OK ds, σ')
                ∧ name ds = oname ∧ shape ds = shape'
                ∧ chunk_size ds = chunk_size'
                ∧ (obj_payload <$> σ' !! oname) = Some (PText signature)).
Proof.
  intros run. split_and!.
  - split.
    + intros Hrun. destruct (σ !! oname) as [o|] eqn:Ho; [by eexists|].
      exfalso. revert Hrun. unfold run, create.
      apply (never_after_OK _ _ _ _ tt σ (create_preflight_absent _ _ Ho)).
      repeat first
        [ apply never_lift, validate_chunk_shape_not_exists
        | apply never_pool_write_full | apply never_pool_set_xattr
        | apply never_Dataset_init | apply never_mret
        | apply never_load
        | apply never_bind; [|intros ?]
        | match goal with
          | |- never_raises _ (match ?x with _ => _ end) => destruct x
          end ].
    + intros Ho. unfold run, create, mbind_pool.
      by rewrite (create_preflight_present _ _ Ho).
  - intros Ho. unfold run, create, mbind_pool.
    by rewrite (create_preflight_present _ _ Ho).
  - apply create_preflight_absent.
  - intros Ho -> shape' chunk_size' -> Hcs. unfold run.
    rewrite (create_fresh pool_njobs schedule _ _ _ _ _ _ _ _ _ Ho Hcs).
    eexists _, _. split_and!; try done.
    by rewrite lookup_insert_eq.
Qed.

Lemma create_already_exists_iff_witness :
  let σ : gmap string pool_object :=
    {[ "d" := PoolObject (PText signature) ∅ ]} in
  create None (λ A, reverse) "d" (Some [10]) "int32" (-1) ChunksNone None
    false None σ
  = (Raise (DatasetException ObjectAlreadyExists), σ)
  ∧ (create None (λ A, reverse) "e" (Some [10]) "int32" (-1) ChunksNone None
       false None σ).1
    ≠ Raise (DatasetException ObjectAlreadyExists).
Proof.
  intros σ. split.
  - destruct (create_already_exists_iff None (λ A, reverse) "d" (Some [10])
                "int32" (-1) ChunksNone None false None σ)
      as ([_ Hraise] & Hpool & _).
    assert (is_Some (σ !! "d")) as Hd by (by eexists).
    specialize (Hraise Hd). specialize (Hpool Hd).
    destruct (create _ _ _ _ _ _ _ _ _ _ σ) as [r σ']. simpl in *. by subst.
  - destruct (create_already_exists_iff None (λ A, reverse) "e" (Some [10])
                "int32" (-1) ChunksNone None false None σ)
      as ([Hraise _] & _).
    intros Habs. destruct (Hraise Habs) as [o Ho]. vm_compute in Ho.
    discriminate.
Defined.

(** ** Reading: the sequential and the parallel path *)

Section getitem.
Variable schedule : ∀ A : Type, list A → list A.
Variable np_squeeze : ndarray → list nat → result ndarray.
Hypothesis schedule_perm : ∀ (A : Type) (l : list A), schedule A l ≡ₚ l.

Implicit Types (ds : Dataset) (σ : gmap string pool_object)
  (r : chunk_record) (k q : list Z) (gs ls : list slice).

(** A slice inside an axis selects its own positions. *)
Lemma slice_indices_within g n :
  0 ≤ start g ≤ stop g ∧ stop g ≤ n →
  slice_indices g n = (start g, stop g - start g).
Proof.
  intros Hg. unfold slice_indices, clip.
  assert ((start g <? 0) = false) as -> by (apply Z.ltb_ge; lia).
  assert ((stop g <? 0) = false) as -> by (apply Z.ltb_ge; lia).
  f_equal; lia.
Qed.

Lemma selection_within gs extents :
  Forall2 (λ g n, 0 ≤ start g ≤ stop g ∧ stop g ≤ n) gs extents →
  selection gs extents = (λ g, (start g, stop g - start g)) <$> gs.
Proof.
  intros Hall. unfold selection.
  rewrite (Forall2_length _ _ _ Hall), drop_all, fmap_nil, app_nil_r.
  induction Hall as [|g n gs extents Hg _ IH]; [done|].
  cbn [zip_with fmap list_fmap]. by rewrite slice_indices_within, IH.
Qed.

Lemma in_selection_slices k gs :
  in_selection k ((λ g, (start g, stop g - start g)) <$> gs) = true
  ↔ in_slices k gs.
Proof.
  unfold in_selection, in_slices. rewrite andb_true_iff, length_fmap.
  revert k. induction gs as [|g gs IH]; intros k.
  - destruct k as [|x k]; cbn.
    + split; [constructor|done].
    + split; [by intros [[=] _]|by intros ?%Forall2_nil_inv_r].
  - destruct k as [|x k]; cbn [length fmap list_fmap zip zip_with forallb].
    + split; [by intros [[=] _]|by intros ?%Forall2_nil_inv_l].
    + rewrite Forall2_cons, <- IH, !andb_true_iff.
      cbn [Nat.eqb]. rewrite Z.leb_le, Z.ltb_lt.
      split; [intros (? & (? & ?) & ?)|intros ((? & ?) & ? & ?)];
        split_and!; try done; lia.
Qed.
Lemma broadcastable_refl extents : broadcastable extents extents = true.
Proof.
  unfold broadcastable. rewrite Nat.eqb_refl. cbn [andb].
  induction extents as [|n extents IH]; [done|].
  cbn [zip zip_with forallb]. by rewrite Z.eqb_refl, IH.
Qed.

Lemma snd_selection_within gs :
  ((λ g, (start g, stop g - start g)) <$> gs).*2 = tshape gs.
Proof. unfold tshape. by rewrite <- list_fmap_compose. Qed.

Lemma mbind_run {A B} (m : M A) (k : A → M B) σ a σ' :
  m σ = (OK a, σ') → mbind_pool m k σ = k a σ'.
Proof. intros Hm. unfold mbind_pool. by rewrite Hm. Qed.

Lemma get_shape_xattr_run σ oname key o l :
  σ !! oname = Some o → obj_xattrs o !! key = Some (AttrShape l) →
  get_shape_xattr oname key σ = (OK l, σ).
Proof.
  intros Ho Hk. unfold get_shape_xattr, mbind_pool, pool_get_xattr.
  by rewrite Ho, Hk.
Qed.

Lemma get_text_xattr_run σ oname key o t :
  σ !! oname = Some o → obj_xattrs o !! key = Some (AttrText t) →
  get_text_xattr oname key σ = (OK t, σ).
Proof.
  intros Ho Hk. unfold get_text_xattr, mbind_pool, pool_get_xattr.
  by rewrite Ho, Hk.
Qed.

Lemma pool_has_chunk_run σ oname o :
  σ !! oname = Some o → pool_has_chunk oname σ = (OK true, σ).
Proof.
  intros Ho. unfold pool_has_chunk. rewrite Ho.
  by rewrite bool_decide_eq_true_2.
Qed.

(** Opening and reading a well-formed chunk object. *)
Lemma DataChunk_init_ok ds σ oname o :
  σ !! oname = Some o → chunk_ok ds o →
  ∃ t, DataChunk_init oname σ
       = (OK {| dc_name := oname; dc_shape := chunk_size ds; dc_dtype := t |}, σ).
Proof.
  intros Ho (Hshape & [t Ht] & _). exists t. unfold DataChunk_init.
  rewrite (mbind_run _ _ _ _ _ (get_shape_xattr_run _ _ _ _ _ Ho Hshape)).
  rewrite (mbind_run _ _ _ _ _ (get_text_xattr_run _ _ _ _ _ Ho Ht)).
  by rewrite (mbind_run _ _ _ _ _ (pool_has_chunk_run _ _ _ Ho)).
Qed.

Lemma DataChunk_get_data_ok ds σ oname o t :
  σ !! oname = Some o → chunk_ok ds o →
  Forall (λ n, 0 ≤ n) (chunk_size ds) →
  ∃ data,
    DataChunk_get_data
      {| dc_name := oname; dc_shape := chunk_size ds; dc_dtype := t |} σ
    = (OK data, σ)
    ∧ arr_shape data = chunk_size ds.
Proof.
  intros Ho (_ & _ & elems & Hpay & Hlen) Hsize.
  unfold DataChunk_get_data, mbind_pool, pool_read, lift, fromstring.
  cbn [dc_name dc_shape dc_dtype]. rewrite Ho, Hpay.
  apply forallb_nonneg in Hsize as ->. apply Z.leb_le in Hlen as ->.
  cbn [andb]. by eexists.
Qed.

(** Reading the local slice of a record from a well-formed pool: the
    read succeeds, leaves the pool alone and returns an array of the
    shape of the slice. *)
Lemma get_chunk_data_ok ds σ chunk_idx ls :
  pool_chunks_ok ds σ →
  Forall2 (λ l c, 0 ≤ start l ≤ stop l ∧ stop l ≤ c) ls (chunk_size ds) →
  ∃ v, _get_chunk_data ds chunk_idx (Some ls) σ = (OK v, σ)
       ∧ arr_shape v = tshape ls.
Proof.
  intros Hpool Hls.
  assert (Forall (λ n, 0 ≤ n) (tshape ls)) as Hext.
  { unfold tshape. apply Forall_fmap.
    eapply Forall2_Forall_l; [done|]. apply Forall_true. simpl. lia. }
  assert (Forall (λ n, 0 ≤ n) (chunk_size ds)) as Hsize.
  { eapply Forall2_Forall_r; [done|]. apply Forall_true. simpl. lia. }
  unfold _get_chunk_data, _has_chunk.
  destruct (σ !! __chunkname ds chunk_idx) as [o|] eqn:Ho.
  - rewrite (mbind_run _ _ _ _ _ (pool_has_chunk_run _ _ _ Ho)).
    pose proof (Hpool _ _ Ho) as Hok.
    destruct (DataChunk_init_ok ds σ _ o Ho Hok) as [t Hinit].
    destruct (DataChunk_get_data_ok ds σ _ o t Ho Hok Hsize)
      as (data & Hdata & Hshape).
    unfold _get_existing_chunk_data, _get_existing_chunk.
    rewrite (mbind_run _ _ _ _ _ Hinit). unfold DataChunk_get_slices.
    rewrite (mbind_run _ _ _ _ _ Hdata). unfold lift, np_getitem.
    rewrite Hshape, (Forall2_length _ _ _ Hls), Nat.ltb_irrefl.
    rewrite (selection_within _ _ Hls), snd_selection_within.
    by eexists.
  - unfold mbind_pool, pool_has_chunk. rewrite Ho.
    rewrite bool_decide_eq_false_2 by by intros [? ?].
    destruct (np_full_spec (tshape ls) (fillvalue ds) (dtype ds) Hext)
      as (v & Hfull & Hshape & _).
    exists v. unfold lift, tshape in *. by rewrite Hfull.
Qed.

(** Storing a value of the right shape in a region inside the output. *)
Lemma np_setitem_within (out v : ndarray) gs :
  Forall2 (λ g n, 0 ≤ start g ≤ stop g ∧ stop g ≤ n) gs (arr_shape out) →
  arr_shape v = tshape gs →
  ∃ out', np_setitem out gs v = OK out'
    ∧ arr_shape out' = arr_shape out
    ∧ arr_dtype out' = arr_dtype out
    ∧ ∀ k, arr_cells out' !! k
           = (λ old, if in_selection k (selection gs (arr_shape out))
                     then arr_cells v
                            !!! broadcast_index (arr_shape v)
                                  (zip_with Z.sub k
                                     (selection gs (arr_shape out)).*1)
                     else old) <$> arr_cells out !! k.
Proof.
  intros Hgs Hv. unfold np_setitem.
  rewrite (Forall2_length _ _ _ Hgs), Nat.ltb_irrefl.
  rewrite (selection_within _ _ Hgs), snd_selection_within, Hv,
    broadcastable_refl.
  eexists. split_and!; try done.
  intros k. cbn [arr_cells]. rewrite map_lookup_imap.
  destruct (arr_cells out !! k) as [old|]; [|done]. cbn.
  by destruct (in_selection _ _).
Qed.

(** Running the tasks of a list of records, in the order of the list,
    on an output of the requested extents: all succeed, the pool is
    left alone and each cell of the output is painted by the tasks. *)
Lemma mfold_paint ds σ tsh records (out0 : ndarray) :
  pool_chunks_ok ds σ →
  (∀ r, r ∈ records → record_ready ds tsh r) →
  arr_shape out0 = tsh →
  ∃ out, mfold (_get_chunk_data_parallel ds) out0 records σ = (OK out, σ)
    ∧ arr_shape out = tsh
    ∧ arr_dtype out = arr_dtype out0
    ∧ ∀ k, arr_cells out !! k
           = paint ds σ tsh records k <$> arr_cells out0 !! k.
Proof.
  intros Hpool. revert out0.
  induction records as [|r records IH]; intros out0 Hready Hshape.
  - exists out0. split_and!; try done.
    intros k. cbn. by destruct (arr_cells out0 !! k).
  - destruct (Hready r) as (Hl & Hg & Hlg); [by left|].
    destruct (get_chunk_data_ok ds σ (rec_index r) _ Hpool Hl)
      as (v & Hget & Hv).
    rewrite <- Hshape in Hg. rewrite Hlg in Hv.
    destruct (np_setitem_within out0 v _ Hg Hv)
      as (out1 & Hset & Hshape1 & Hdtype1 & Hcells1).
    destruct (IH out1) as (out & Hfold & Hshape' & Hdtype' & Hcells').
    { intros r' Hr'. apply Hready. by right. }
    { congruence. }
    exists out. split_and!; [|done|congruence|].
    + cbn [mfold]. unfold mbind_pool at 1.
      unfold _get_chunk_data_parallel at 1. unfold mbind_pool at 1.
      rewrite Hget. unfold lift. by rewrite Hset.
    + intros k. rewrite Hcells', Hcells1, <- option_fmap_compose.
      destruct (arr_cells out0 !! k) as [old|]; [|done]. cbn.
      unfold paint. cbn [foldl]. rewrite <- Hshape.
      unfold painted_cell. by rewrite Hget.
Qed.

(** When exactly one of the tasks covers a cell, the cell ends with the
    value of that task, whatever it held and whatever the order. *)
Lemma paint_unique ds σ tsh records k r old :
  r ∈ records →
  in_selection k (selection (rec_gslice r) tsh) = true →
  (∀ r', r' ∈ records →
         in_selection k (selection (rec_gslice r') tsh) = true → r' = r) →
  paint ds σ tsh records k old = painted_cell ds σ tsh r k.
Proof.
  unfold paint.
  induction records as [|r' records IH] using rev_ind; intros Hin Hk Huniq.
  - by apply elem_of_nil in Hin.
  - rewrite foldl_snoc.
    destruct (in_selection k (selection (rec_gslice r') tsh)) eqn:Hk'.
    + f_equal. apply Huniq; [|done]. apply elem_of_app. right. by left.
    + apply IH; [|done|].
      * apply elem_of_app in Hin as [?|Hin%list_elem_of_singleton]; [done|].
        congruence.
      * intros r'' ? ?. apply Huniq; [|done]. apply elem_of_app. by left.
Qed.
(** The records of the mapping are ready to run. *)
Lemma agree_ready ds slices r :
  length (chunk_size ds) = length slices →
  local_global_agree slices (chunk_size ds) r →
  record_ready ds (tshape slices) r.
Proof.
  intros Hlen (Hl1 & Hl2 & Hl3 & Hagree).
  assert (∀ j l g, rec_lslice r !! j = Some l → rec_gslice r !! j = Some g →
            ∃ s c i, slices !! j = Some s
              ∧ (0 ≤ start l ≤ stop l ∧ stop l ≤ c)
              ∧ chunk_size ds !! j = Some c
              ∧ start g = i * c + start l - start s
              ∧ stop g = i * c + stop l - start s
              ∧ 0 ≤ start g ∧ stop g ≤ stop s - start s) as Hk.
  { intros j l g Hl Hg.
    pose proof (lookup_lt_Some _ _ _ Hl) as Hlt. rewrite Hl2 in Hlt.
    destruct (lookup_lt_is_Some_2 slices j Hlt) as [s Hs].
    destruct (lookup_lt_is_Some_2 (chunk_size ds) j) as [c Hc]; [lia|].
    destruct (lookup_lt_is_Some_2 (rec_index r) j) as [i Hi]; [lia|].
    destruct (Hagree j s c i l g Hs Hc Hi Hl Hg) as (? & ? & ? & ? & ?).
    exists s, c, i. split_and!; try done; lia. }
  assert (∀ j, j < length slices →
            ∃ l g, rec_lslice r !! j = Some l ∧ rec_gslice r !! j = Some g)%nat
    as Hboth.
  { intros j Hlt.
    destruct (lookup_lt_is_Some_2 (rec_lslice r) j) as [l Hl]; [lia|].
    destruct (lookup_lt_is_Some_2 (rec_gslice r) j) as [g Hg]; [lia|].
    by exists l, g. }
  split_and!.
  - apply Forall2_same_length_lookup_2; [lia|].
    intros j l c Hl Hc.
    destruct (Hboth j) as (l' & g & Hl' & Hg);
      [by rewrite <- Hl2; eapply lookup_lt_Some|].
    destruct (Hk j l g Hl Hg) as (s & c' & i & _ & ? & Hc' & _). congruence.
  - apply Forall2_same_length_lookup_2;
      [unfold tshape; rewrite length_fmap; lia|].
    intros j g n Hg Hn.
    destruct (Hboth j) as (l & g' & Hl & Hg');
      [by rewrite <- Hl3; eapply lookup_lt_Some|].
    destruct (Hk j l g Hl Hg) as (s & c & i & Hs & ? & _ & ? & ? & ? & ?).
    unfold tshape in Hn. rewrite list_lookup_fmap, Hs in Hn.
    injection Hn as <-. lia.
  - unfold tshape. apply list_eq. intros j. rewrite !list_lookup_fmap.
    destruct (decide (j < length slices)%nat) as [Hlt|Hge].
    + destruct (Hboth j Hlt) as (l & g & Hl & Hg).
      destruct (Hk j l g Hl Hg) as (s & c & i & _ & _ & _ & ? & ? & _).
      rewrite Hl, Hg. cbn. f_equal. lia.
    + rewrite !lookup_ge_None_2; [done|lia|lia].
Qed.

Lemma in_bounds_lengths ds slices :
  geometry_ok ds → in_bounds ds slices →
  length (chunk_size ds) = length slices
  ∧ Forall (λ n, 0 ≤ n) (tshape slices).
Proof.
  intros Hgeo Hb. split.
  - rewrite (Forall2_length _ _ _ Hb).
    symmetry. by eapply Forall3_length_lm.
  - unfold tshape. apply Forall_fmap. eapply Forall2_Forall_l; [done|].
    apply Forall_true. intros s n [? ?]. simpl. lia.
Qed.

(** The core of the equivalence: on an output of the requested extents,
    the tasks of the mapping give the same array whether they run in
    the order of the iterator on an output filled with [old1] or in the
    order of the scheduler on an output filled with [old2]. *)
Lemma tasks_any_order ds σ slices old1 old2 :
  geometry_ok ds → in_bounds ds slices → pool_chunks_ok ds σ →
  let records := _get_chunk_slice_iterator ds slices in
  ∃ out1 out2 out,
    np_full (tshape slices) old1 (dtype ds) = OK out1
    ∧ np_full (tshape slices) old2 (dtype ds) = OK out2
    ∧ mfold (_get_chunk_data_parallel ds) out1 records σ = (OK out, σ)
    ∧ mfold (_get_chunk_data_parallel ds) out2
        (schedule _ records) σ = (OK out, σ)
    ∧ arr_shape out = tshape slices
    ∧ ∀ k, in_box k (tshape slices) → is_Some (arr_cells out !! k).
Proof.
  intros Hgeo Hb Hpool records.
  destruct (in_bounds_lengths ds slices Hgeo Hb) as [Hlen Hext].
  destruct (iterator_record_of_point ds slices Hgeo Hb) as (Hrec & Hcover).
  fold records in Hrec, Hcover.
  assert (∀ r, r ∈ records → record_ready ds (tshape slices) r) as Hready.
  { intros r Hr. apply agree_ready; [done|]. by apply Hrec. }
  assert (∀ r, r ∈ schedule _ records →
               record_ready ds (tshape slices) r) as Hready'.
  { intros r Hr. apply Hready. by rewrite <- (schedule_perm _ records). }
  destruct (np_full_spec (tshape slices) old1 (dtype ds) Hext)
    as (out1 & Hfull1 & Hshape1 & Hdtype1 & Hcells1).
  destruct (np_full_spec (tshape slices) old2 (dtype ds) Hext)
    as (out2 & Hfull2 & Hshape2 & Hdtype2 & Hcells2).
  destruct (mfold_paint ds σ _ records out1 Hpool Hready Hshape1)
    as (o1 & Hfold1 & Hs1 & Hd1 & Hc1).
  destruct (mfold_paint ds σ _ (schedule _ records) out2 Hpool Hready' Hshape2)
    as (o2 & Hfold2 & Hs2 & Hd2 & Hc2).
  assert (∀ k, in_box k (tshape slices) →
            ∃ r, r ∈ records
              ∧ arr_cells o1 !! k = Some (painted_cell ds σ (tshape slices) r k)
              ∧ arr_cells o2 !! k = Some (painted_cell ds σ (tshape slices) r k))
    as Hpainted.
  { intros k Hk. destruct (Hcover k Hk) as (Hr & Hkr & Honly).
    set (r := pick_axes (zip_axes slices (chunk_size ds) (chunks ds))
                (owner slices (chunk_size ds) k)) in *.
    assert (∀ r', r' ∈ records →
              in_selection k (selection (rec_gslice r') (tshape slices)) = true
              ↔ in_slices k (rec_gslice r')) as Hsel.
    { intros r' Hr'. destruct (Hready r' Hr') as (_ & Hg & _).
      by rewrite (selection_within _ _ Hg), in_selection_slices. }
    assert (∀ r', r' ∈ records →
              in_selection k (selection (rec_gslice r') (tshape slices)) = true
              → r' = r) as Huniq.
    { intros r' Hr' Hk'%Hsel; [|done]. by apply Honly. }
    exists r. split_and!; [done| |].
    - rewrite Hc1, Hcells1, decide_True by done. cbn. f_equal.
      apply paint_unique; [done|by apply Hsel|done].
    - rewrite Hc2, Hcells2, decide_True by done. cbn. f_equal.
      apply paint_unique.
      + by rewrite (schedule_perm _ records).
      + by apply Hsel.
      + intros r' Hr'. apply Huniq. by rewrite <- (schedule_perm _ records). }
  assert (o2 = o1) as ->.
  { destruct o1 as [s1 d1 c1], o2 as [s2 d2 c2]. cbn in *.
    f_equal; [congruence|congruence|].
    apply map_eq. intros k.
    destruct (decide (in_box k (tshape slices))) as [Hk|Hk].
    - destruct (Hpainted k Hk) as (r & _ & -> & ->). done.
    - by rewrite Hc1, Hc2, Hcells1, Hcells2, !decide_False. }
  exists out1, out2, o1. split_and!; try done.
  intros k Hk. destruct (Hpainted k Hk) as (r & _ & -> & _). by eexists.
Qed.
End getitem.

(** The parallelism width matters to nothing but the choice of the path. *)
Lemma process_entries_set_njobs w ds i es :
  process_entries (set_njobs w ds) i es = process_entries ds i es.
Proof.
  revert i. induction es as [|e es IH]; intros i; [done|].
  cbn [process_entries]. by rewrite IH.
Qed.

Lemma process_slices_set_njobs w ds ix detect_squeeze :
  _process_slices (set_njobs w ds) ix detect_squeeze
  = _process_slices ds ix detect_squeeze.
Proof.
  unfold _process_slices. destruct (wrap_index ix) as [es|]; [|done].
  cbn [rbind].
  change (fit_to_rank (set_njobs w ds) es) with (fit_to_rank ds es).
  destruct (fit_to_rank ds es) as [es'|]; [|done]. cbn [rbind].
  by rewrite process_entries_set_njobs.
Qed.

Lemma chunk_slice_iterator_set_njobs w ds slices :
  _get_chunk_slice_iterator (set_njobs w ds) slices
  = _get_chunk_slice_iterator ds slices.
Proof. reflexivity. Qed.

Lemma get_chunk_data_parallel_set_njobs w ds :
  _get_chunk_data_parallel (set_njobs w ds) = _get_chunk_data_parallel ds.
Proof. reflexivity. Qed.

(** The extents of a region multiply to 0 exactly when a slice of the
    region is empty. *)
Lemma prod_tshape_nonempty slices :
  Forall (λ s, start s ≤ stop s) slices →
  (prod (tshape slices) =? 0) = bool_decide (¬ nonempty_region slices).
Proof.
  unfold nonempty_region, tshape.
  induction 1 as [|s slices Hs _ IH].
  - rewrite bool_decide_eq_false_2; [done|]. intros H. apply H. constructor.
  - cbn [fmap list_fmap prod foldr]. fold (prod ((λ x, stop x - start x) <$> slices)).
    destruct (Z.eqb_spec (prod ((λ x, stop x - start x) <$> slices)) 0)
      as [H0|H0]; symmetry in IH.
    + apply bool_decide_eq_true_1 in IH. rewrite H0, Z.mul_0_r.
      rewrite bool_decide_eq_true_2; [done|].
      by intros [_ ?]%Forall_cons.
    + apply bool_decide_eq_false_1 in IH.
      destruct (decide (start s < stop s)) as [Hlt|Hge].
      * rewrite bool_decide_eq_false_2.
        -- apply Z.eqb_neq. nia.
        -- intros Hn. apply Hn. constructor; [done|].
           by destruct (decide (Forall (λ s, start s < stop s) slices)).
      * assert (stop s - start s = 0) as -> by lia. rewrite Z.mul_0_l.
        rewrite bool_decide_eq_true_2; [done|].
        by intros [? _]%Forall_cons.
Qed.

Lemma in_bounds_ordered ds slices :
  in_bounds ds slices → Forall (λ s, start s ≤ stop s) slices.
Proof.
  intros Hb. eapply Forall2_Forall_l; [exact Hb|].
  apply Forall_true. intros n s [_ ?]. lia.
Qed.

(** On a pool whose chunk objects are well formed, reading an in-bounds
    region through the sequential path (width 1, or no width) returns
    an array and leaves the pool alone; the parallel path (width above
    1, the tasks run in whatever order the thread pool picks) returns
    the same array when the region holds a point, and raises when it
    holds none: the staged output cannot be mapped. *)
Lemma getitem_paths_agree
    (schedule : ∀ A : Type, list A → list A)
    (np_squeeze : ndarray → list nat → result ndarray)
    (ds : Dataset) (σ : gmap string pool_object) (ix : index) (n : Z)
    (slices : list slice) (squeeze_axis : option (list nat)) :
  (∀ (A : Type) (l : list A), schedule A l ≡ₚ l) →
  geometry_ok ds → pool_chunks_ok ds σ →
  _process_slices ds ix true = OK (slices, squeeze_axis) →
  in_bounds ds slices →
  1 < n →
  ∃ out,
    arr_shape out = tshape slices
    ∧ (∀ k, in_box k (tshape slices) → is_Some (arr_cells out !! k))
    ∧ let res := match squeeze_axis with
                    | Some (ax :: axes) => np_squeeze out (ax :: axes)
                    | _ => OK out
                    end in
      __getitem__ schedule np_squeeze (set_njobs (Some 1) ds) ix σ = (res, σ)
      ∧ __getitem__ schedule np_squeeze (set_njobs None ds) ix σ = (res, σ)
      ∧ __getitem__ schedule np_squeeze (set_njobs (Some n) ds) ix σ
        = (if decide (nonempty_region slices) then res else Raise ValueError, σ).
Proof.
  intros Hperm Hgeo Hpool Hproc Hb Hn.
  destruct (tasks_any_order schedule Hperm ds σ slices (-1) 0 Hgeo Hb Hpool)
    as (out1 & out2 & out & Hfull1 & Hfull2 & Hfold1 & Hfold2 & Hshape & Hcells).
  exists out. split_and!; [done|done|]. intros res.
  assert (∀ w, lift (_process_slices (set_njobs w ds) ix true) σ
               = (OK (slices, squeeze_axis), σ)) as Hrun.
  { intros w. unfold lift. by rewrite process_slices_set_njobs, Hproc. }
  assert (∀ (out' : ndarray),
            match squeeze_axis with
            | Some (ax :: axes) => lift (np_squeeze out' (ax :: axes))
            | _ => mret out'
            end σ
            = (match squeeze_axis with
               | Some (ax :: axes) => np_squeeze out' (ax :: axes)
               | _ => OK out'
               end, σ)) as Hfinish.
  { intros out'. by destruct squeeze_axis as [[|? ?]|]. }
  assert (∀ w, sequential (set_njobs w ds) = true →
            __getitem__ schedule np_squeeze (set_njobs w ds) ix σ = (res, σ))
    as Hseq.
  { intros w Hw. unfold __getitem__.
    rewrite (mbind_run _ _ _ _ _ (Hrun w)). rewrite Hw.
    unfold mbind_pool at 1. unfold mbind_pool at 1. unfold lift at 1.
    change (dtype (set_njobs w ds)) with (dtype ds). rewrite Hfull1.
    rewrite chunk_slice_iterator_set_njobs, get_chunk_data_parallel_set_njobs.
    rewrite Hfold1. apply Hfinish. }
  split_and!.
  - by apply Hseq.
  - by apply Hseq.
  - unfold __getitem__.
    rewrite (mbind_run _ _ _ _ _ (Hrun _)).
    assert (sequential (set_njobs (Some n) ds) = false) as ->.
    { cbn. apply Z.eqb_neq. lia. }
    unfold mbind_pool at 1. unfold mbind_pool at 1.
    unfold lift at 1, _make_temporary_memmap, np_memmap_new.
    rewrite (prod_tshape_nonempty slices (in_bounds_ordered ds slices Hb)).
    destruct (decide (nonempty_region slices)) as [Hne|Hempty].
    2:{ by rewrite bool_decide_eq_true_2. }
    rewrite bool_decide_eq_false_2 by (intros Hc; by apply Hc).
    change (dtype (set_njobs (Some n) ds)) with (dtype ds). rewrite Hfull2.
    unfold mbind_pool at 1, Parallel. cbn [njobs set_njobs].
    assert (n ≠ 0) as Hn0 by lia. destruct n as [|p|p]; [done| |];
      cbn [mret];
      rewrite chunk_slice_iterator_set_njobs, get_chunk_data_parallel_set_njobs;
      rewrite Hfold2; apply Hfinish.
Qed.

(** Outside the bounds the two paths do differ. The integer index 10 on
    a dataset of shape (10,) is let through by the normalization; it
    touches no chunk, so the sequential path returns its initial -1 and
    the parallel path the 0 of the fresh memory map. *)
Example getitem_out_of_bounds_integer :
  let ds := {| name := "d"; shape := [10]; dtype := "int32";
               fillvalue := 7; chunks := [2]; chunk_size := [5];
               njobs := None; read_only := false |} in
  __getitem__ (λ A, reverse) squeeze_axes (set_njobs (Some 1) ds)
    (IOne (EInt 10)) ∅
  = (OK (NdArray [] "int32" {[ [] := -1 ]}), ∅)
  ∧ __getitem__ (λ A, reverse) squeeze_axes (set_njobs (Some 4) ds)
      (IOne (EInt 10)) ∅
    = (OK (NdArray [] "int32" {[ [] := 0 ]}), ∅).
Proof. split; vm_compute; reflexivity. Qed.

(** ** The in-memory backend *)

Section ram.
Implicit Types (g : mem_node) (path : string).

(** [has_group] never returns true: when it returns, it returns [None]. *)
Lemma has_group_never_true g path v :
  MemGroup.has_group g path = OK v → v = None.
Proof.
  unfold MemGroup.has_group.
  destruct (MemGroup.get_group g path) as [group|]; cbn [rbind]; [|done].
  unfold MemGroup.truthy. by intros [= <-].
Qed.

(** The failure of [get_group] is passed on by [has_group], which never
    answers false. *)
Lemma has_group_propagates g path e :
  MemGroup.get_group g path = Raise e → MemGroup.has_group g path = Raise e.
Proof. intros Hget. unfold MemGroup.has_group. by rewrite Hget. Qed.

Lemma has_group_found g path group :
  MemGroup.get_group g path = OK group →
  MemGroup.has_group g path = OK None.
Proof. intros Hget. unfold MemGroup.has_group. by rewrite Hget. Qed.

(** As a consequence [del_group] cannot go past its guard. *)
Lemma del_group_always_raises g path :
  ∃ e, MemGroup.del_group g path = Raise e.
Proof.
  unfold MemGroup.del_group.
  destruct (MemGroup.has_group g path) as [v|e] eqn:Hhas; cbn [rbind].
  - apply has_group_never_true in Hhas as ->. by eexists.
  - by eexists.
Qed.

Lemma all_alnum_no_slash s : all_alnum s = true → s ≠ "/".
Proof. intros Hs ->. by vm_compute in Hs. Qed.

Lemma isalnum_not_root path : isalnum path = true → path ≠ "/".
Proof. intros Hs ->. by vm_compute in Hs. Qed.
End ram.

(** C8 (failing input). A root group with one child ["a"]: [get_group]
    finds the child, and [has_group] returns [None] instead of true; the
    guard of [del_group] then takes the group for missing. *)
Theorem has_group_returns_none :
  let child := GroupNode "a" None ∅ in
  let root := GroupNode "/" None {[ "a" := child ]} in
  MemGroup.get_group root "a" = OK child
  ∧ MemGroup.has_group root "a" = OK None
  ∧ MemGroup.has_group root "a" ≠ OK (Some true)
  ∧ MemGroup.del_group root "a" = Raise (GroupNotFoundError "a")
  ∧ MemGroup.has_group root "b" = Raise (GroupNotFoundError "b").
Proof. intros child root. by split_and!. Qed.

(** C10. In the connection-level [create_group] the branch for the root
    path is dead: a path that passes the alphanumeric check is not ["/"],
    so the error for an existing group is never raised for the root;
    [create_group("/")] fails with the non-alphanumeric error. *)
Theorem create_group_root_branch_unreachable :
  (∀ path, isalnum path = true → path ≠ "/")
  ∧ (∀ conn attrs,
       MemConnection.create_group conn "/" attrs = Raise (ExcNotAlphanumeric "/"))
  ∧ (∀ conn path attrs,
       MemConnection.create_group conn path attrs ≠ Raise (ExcGroupExists "/")).
Proof.
  split_and!.
  - apply isalnum_not_root.
  - done.
  - intros conn path attrs. unfold MemConnection.create_group.
    destruct (isalnum path) eqn:Halnum; cbn [negb]; [|done].
    pose proof (isalnum_not_root path Halnum) as Hroot.
    destruct (String.eqb_spec path "/") as [->|_]; [done|]. cbn [negb].
    unfold MemGroup.create_group. rewrite Halnum. cbn [negb].
    destruct (MemConnection.root_group conn) as [gname gattrs l|]; [|done].
    case_bool_decide; cbn [rbind]; [|done]. congruence.
Qed.

Section mem_data_chunk.
Implicit Types (c : MemDataChunk.t) (values : ndarray).

(** A new chunk: a dense array of the chunk shape, every cell the fill
    value. *)
Lemma mem_chunk_init shape dtype fillvalue :
  Forall (λ n, 0 ≤ n) shape →
  ∃ c, MemDataChunk.init shape dtype fillvalue = OK c
       ∧ arr_shape (MemDataChunk.data c) = shape
       ∧ ∀ q, arr_cells (MemDataChunk.data c) !! q
              = if decide (in_box q shape) then Some fillvalue else None.
Proof.
  intros Hpos. unfold MemDataChunk.init.
  destruct (np_full_spec shape fillvalue dtype Hpos)
    as (a & -> & Hshape & _ & Hcells).
  cbn [rbind]. by eexists.
Qed.

(** [get_data()] with no sub-region: the index [None] adds an axis. *)
Lemma mem_chunk_get_data_none c :
  ∃ a, MemDataChunk.get_data c None = OK a
       ∧ arr_shape a = 1 :: arr_shape (MemDataChunk.data c).
Proof. by eexists. Qed.

Lemma broadcast_index_box vshape q :
  in_box q vshape → broadcast_index vshape q = q.
Proof.
  unfold in_box, broadcast_index. intros Hq.
  induction Hq as [|x n q vshape Hx _ IH]; [done|]. cbn [zip_with].
  rewrite IH. destruct (Z.eqb_spec n 1) as [->|_]; [|done]. f_equal. lia.
Qed.

(** [set_data(values)] with no sub-region: a value of the chunk shape
    replaces every cell of the chunk. *)
Lemma mem_chunk_set_data_none c values :
  arr_shape values = arr_shape (MemDataChunk.data c) →
  (∀ q, is_Some (arr_cells (MemDataChunk.data c) !! q)
        → in_box q (arr_shape (MemDataChunk.data c))) →
  ∃ c', MemDataChunk.set_data c values None = OK c'
        ∧ arr_shape (MemDataChunk.data c') = arr_shape (MemDataChunk.data c)
        ∧ ∀ q, arr_cells (MemDataChunk.data c') !! q
               = (λ _, arr_cells values !!! q)
                   <$> arr_cells (MemDataChunk.data c) !! q.
Proof.
  intros Hshape Hdom. unfold MemDataChunk.set_data, np_setitem_none.
  rewrite Hshape, Nat.eqb_refl.
  assert (broadcastable (1 :: arr_shape (MemDataChunk.data c))
            (1 :: arr_shape (MemDataChunk.data c)) = true) as ->
    by apply broadcastable_refl.
  cbn [rbind]. eexists. split_and!; try done.
  intros q. cbn [MemDataChunk.data arr_cells]. rewrite map_lookup_imap.
  destruct (arr_cells (MemDataChunk.data c) !! q) as [old|] eqn:Hq; [|done].
  cbn. do 2 f_equal. unfold broadcast_index. cbn [zip_with drop].
  rewrite drop_0. apply broadcast_index_box, Hdom. by rewrite Hq.
Qed.
End mem_data_chunk.

(** C9 (failing input). A chunk of shape (2, 3) filled with 0: its
    backing array has the chunk shape and holds the fill value, but
    [get_data()] with no sub-region returns an array of shape (1, 2, 3),
    not of the chunk shape; [set_data(values)] with no sub-region does
    replace the whole chunk. *)
Theorem mem_chunk_get_data_extra_axis :
  ∃ c, MemDataChunk.init [2; 3] "float32" 0 = OK c
    ∧ arr_shape (MemDataChunk.data c) = [2; 3]
    ∧ arr_cells (MemDataChunk.data c) !! [1; 2] = Some 0
    ∧ (∃ a, MemDataChunk.get_data c None = OK a
            ∧ arr_shape a = [1; 2; 3]
            ∧ arr_shape a ≠ MemDataChunk.shape c
            ∧ arr_cells a !! [0; 1; 2] = Some 0
            ∧ arr_cells a !! [1; 2] = None)
    ∧ (∀ values, arr_shape values = [2; 3] →
         ∃ c', MemDataChunk.set_data c values None = OK c'
               ∧ ∀ q, in_box q [2; 3] →
                      arr_cells (MemDataChunk.data c') !! q
                      = Some (arr_cells values !!! q)).
Proof.
  destruct (mem_chunk_init [2; 3] "float32" 0) as (c & Hinit & Hshape & Hcells).
  { repeat constructor; lia. }
  exists c. split_and!; [done|done|by rewrite Hcells| |].
  - eexists. split_and!; [done|by cbn; rewrite Hshape| | |].
    + injection Hinit as <-. cbn. congruence.
    + injection Hinit as <-. by vm_compute.
    + injection Hinit as <-. by vm_compute.
  - intros values Hv.
    destruct (mem_chunk_set_data_none c values) as (c' & Hset & _ & Hcells').
    + congruence.
    + intros q [v Hq]. rewrite Hcells in Hq. rewrite Hshape.
      by case_decide.
    + exists c'. split; [done|]. intros q Hq.
      rewrite Hcells', Hcells. by rewrite decide_True.
Qed.

(** ** Loading leaves well-formed chunks *)

Section load.
Variable schedule : ∀ A : Type, list A → list A.

Implicit Types (ds : Dataset) (σ : gmap string pool_object).

Lemma length_bind_const {A B} (f : A → list B) (l : list A) (c : nat) :
  (∀ x, length (f x) = c) → length (l ≫= f) = (length l * c)%nat.
Proof.
  intros Hf. induction l as [|x l IH]; [done|].
  rewrite bind_cons, length_app, Hf, IH. cbn [length]. lia.
Qed.

Lemma length_points extents :
  Forall (λ n, 0 ≤ n) extents →
  Z.of_nat (length (points extents)) = prod extents.
Proof.
  induction 1 as [|n extents Hn _ IH]; [done|].
  cbn [points prod foldr]. fold (prod extents).
  rewrite (length_bind_const _ _ (length (points extents)))
    by (intros x; by rewrite length_fmap).
  rewrite length_seqZ. lia.
Qed.

Lemma length_tobytes (a : ndarray) :
  Forall (λ n, 0 ≤ n) (arr_shape a) →
  Z.of_nat (length (tobytes a)) = prod (arr_shape a).
Proof. intros Hpos. unfold tobytes. by rewrite length_fmap, length_points. Qed.

Lemma np_setitem_shape (a value a' : ndarray) slices :
  np_setitem a slices value = OK a' → arr_shape a' = arr_shape a.
Proof.
  unfold np_setitem. repeat case_match; try done. by intros [= <-].
Qed.

(** Writing the payload of a well-formed chunk of the chunk shape keeps
    the pool well formed. *)
Lemma write_chunks_ok ds σ oname o (data : ndarray) :
  Forall (λ n, 0 ≤ n) (chunk_size ds) →
  pool_chunks_ok ds σ → σ !! oname = Some o → chunk_ok ds o →
  arr_shape data = chunk_size ds →
  pool_chunks_ok ds (pool_write_full oname (PBytes (tobytes data)) σ).2.
Proof.
  intros Hsize Hpool Ho (Hshape & Ht & _) Hdata chunk_idx o'.
  unfold pool_write_full. cbn [snd]. rewrite Ho.
  destruct (decide (oname = __chunkname ds chunk_idx)) as [->|Hne].
  - rewrite lookup_insert_eq. intros [= <-]. split_and!; [done|done|].
    eexists. split; [done|]. rewrite length_tobytes; rewrite Hdata; [lia|done].
  - rewrite lookup_insert_ne by done. apply Hpool.
Qed.

Lemma chunk_contents_shape shape dtype fill data slices cdata shape' t :
  chunk_contents (Some shape) dtype fill data slices = OK (cdata, shape', t) →
  shape' = shape ∧ arr_shape cdata = shape.
Proof.
  assert (∀ v d (a : ndarray), np_full shape v d = OK a → arr_shape a = shape)
    as Hfull.
  { intros v d a. unfold np_full. destruct (forallb _ _); [|done].
    by intros [= <-]. }
  unfold chunk_contents. destruct data as [data|].
  - destruct (match slices with Some sl => _ | None => _ end) as [data'|];
      cbn [rbind]; [|done].
    case_bool_decide as Hshape; [by intros [= <- <- _]|].
    destruct (forallb _ _); [|done].
    destruct (np_full _ _ _) as [c0|] eqn:Hc0; cbn [rbind]; [|done].
    destruct (np_setitem _ _ _) as [c1|] eqn:Hc1; cbn [rbind]; [|done].
    intros [= <- <- _]. split; [done|].
    apply np_setitem_shape in Hc1. rewrite Hc1. by eapply Hfull.
  - destruct (np_full _ _ _) as [c0|] eqn:Hc0; cbn [rbind]; [|done].
    intros [= <- <- _]. split; [done|]. by eapply Hfull.
Qed.

(** The pool after [DataChunk.create] on a free name, asked for the
    chunk shape: unchanged when the preparation of the data raised, else
    with a well-formed object under the name. *)
Lemma DataChunk_create_state ds σ oname dtype fill data slices :
  Forall (λ n, 0 ≤ n) (chunk_size ds) →
  σ !! oname = None →
  let σ' := (DataChunk_create oname (Some (chunk_size ds)) dtype fill data
               slices σ).2 in
  σ' = σ ∨ ∃ o, σ' = <[oname := o]> σ ∧ chunk_ok ds o.
Proof.
  intros Hsize Ho σ'. subst σ'. unfold DataChunk_create.
  unfold mbind_pool at 1, lift at 1.
  destruct (chunk_contents _ _ _ _ _) as [[[cdata shape'] t]|] eqn:Hc;
    [|by left].
  apply chunk_contents_shape in Hc as [-> Hcdata]. right.
  set (o := PoolObject (PBytes (tobytes cdata))
              (<["dtype" := AttrText t]>
                 (<["shape" := AttrShape (chunk_size ds)]> ∅))).
  assert (chunk_ok ds o) as Hok.
  { split_and!; [done|by eexists|]. eexists. split; [done|].
    rewrite length_tobytes; rewrite Hcdata; [lia|done]. }
  exists o. split; [|done].
  unfold mbind_pool, lift, pool_write_full, pool_set_xattr. rewrite Ho.
  rewrite !lookup_insert_eq, !insert_insert_eq.
  cbn [obj_payload obj_xattrs]. fold o.
  assert (<[oname := o]> σ !! oname = Some o) as Ho' by apply lookup_insert_eq.
  by destruct (DataChunk_init_ok ds _ oname o Ho' Hok) as [t' ->].
Qed.

(** Writing a chunk, existing or not, keeps the pool well formed,
    whether the write succeeds or raises. *)
Lemma set_chunk_data_chunks_ok ds σ chunk_idx data slices :
  Forall (λ n, 0 ≤ n) (chunk_size ds) →
  pool_chunks_ok ds σ →
  pool_chunks_ok ds (_set_chunk_data ds chunk_idx data slices σ).2.
Proof.
  intros Hsize Hpool. unfold _set_chunk_data, _has_chunk.
  destruct (σ !! __chunkname ds chunk_idx) as [o|] eqn:Ho.
  - rewrite (mbind_run _ _ _ _ _ (pool_has_chunk_run _ _ _ Ho)).
    pose proof (Hpool _ _ Ho) as Hok.
    destruct (DataChunk_init_ok ds σ _ o Ho Hok) as [t Hinit].
    unfold _set_existing_chunk_data, _get_existing_chunk.
    rewrite (mbind_run _ _ _ _ _ Hinit).
    destruct slices as [sl|].
    + unfold DataChunk_set_slices.
      destruct (DataChunk_get_data_ok ds σ _ o t Ho Hok Hsize)
        as (data0 & Hdata0 & Hshape0).
      rewrite (mbind_run _ _ _ _ _ Hdata0).
      unfold mbind_pool, lift.
      destruct (np_setitem data0 sl data) as [data1|] eqn:Hset; [|done].
      unfold DataChunk_write. cbn [dc_name].
      eapply write_chunks_ok; try done.
      apply np_setitem_shape in Hset. congruence.
    + unfold DataChunk_set_data. cbn [dc_shape].
      case_bool_decide as Hshape; [|done].
      unfold DataChunk_write. cbn [dc_name].
      by eapply write_chunks_ok.
  - unfold mbind_pool at 1, pool_has_chunk. rewrite Ho.
    rewrite bool_decide_eq_false_2 by by intros [? ?].
    unfold _create_chunk.
    pose proof (DataChunk_create_state ds σ (__chunkname ds chunk_idx)
                  (dtype ds) (Some (fillvalue ds)) (Some data) slices
                  Hsize Ho) as Hstate.
    unfold mbind_pool at 1.
    destruct (DataChunk_create _ _ _ _ _ _ σ) as [[chunk|e] σ'];
      cbn [snd mret] in *;
      (destruct Hstate as [->|(o & -> & Hok)]; [done|]);
      intros idx' o';
      (destruct (decide (__chunkname ds chunk_idx = __chunkname ds idx'))
         as [<-|Hne];
       [rewrite lookup_insert_eq; by intros [= <-]
       |rewrite lookup_insert_ne by done; apply Hpool]).
Qed.

Lemma mfor_chunks_ok {A} ds σ (xs : list A) (body : A → M unit) :
  (∀ x σ0, pool_chunks_ok ds σ0 → pool_chunks_ok ds (body x σ0).2) →
  pool_chunks_ok ds σ → pool_chunks_ok ds (mfor xs body σ).2.
Proof.
  intros Hbody. revert σ. induction xs as [|x xs IH]; intros σ Hpool; [done|].
  cbn [mfor]. unfold mbind_pool. specialize (Hbody x σ Hpool).
  destruct (body x σ) as [[[]|e] σ0]; cbn [snd] in *; [by apply IH|done].
Qed.

(** [load] leaves every chunk object of the dataset well formed, in
    either mode and whatever the source array. *)
Lemma load_chunks_ok ds σ data :
  Forall (λ n, 0 ≤ n) (chunk_size ds) →
  pool_chunks_ok ds σ →
  pool_chunks_ok ds (load schedule ds data σ).2.
Proof.
  intros Hsize Hpool.
  assert (∀ idx σ0, pool_chunks_ok ds σ0 →
            pool_chunks_ok ds (_populate_dataset ds data idx σ0).2) as Hbody.
  { intros idx σ0 Hpool0. unfold _populate_dataset, mbind_pool, lift.
    destruct (_gchunk_bounds_slices ds idx); [|done].
    by apply set_chunk_data_chunks_ok. }
  unfold load. destruct (sequential ds).
  - by apply mfor_chunks_ok.
  - unfold mbind_pool, Parallel.
    destruct (njobs ds) as [[|?|?]|]; cbn [mret mraise snd]; try done;
      by apply mfor_chunks_ok.
Qed.
End load.

Lemma geometry_chunk_size_nonneg ds :
  geometry_ok ds → Forall (λ n, 0 ≤ n) (chunk_size ds).
Proof.
  unfold geometry_ok. induction 1 as [|n c m ? ? ? [Hc _] _ IH];
    constructor; [lia|done].
Qed.

(** For a dataset populated via [load], reading an in-bounds region
    that holds a point with parallelism width 1 (or none: the
    sequential path) and with a width above 1 (the parallel path: one
    task per touched chunk, run in whatever order the thread pool picks,
    scattering into the staged output) gives the same array, and the
    pool is left as [load] left it. *)
Lemma getitem_parallel_equals_sequential
    (schedule : ∀ A : Type, list A → list A)
    (np_squeeze : ndarray → list nat → result ndarray)
    (ds : Dataset) (σ0 : gmap string pool_object) (data : ndarray)
    (ix : index) (n : Z)
    (slices : list slice) (squeeze_axis : option (list nat)) :
  (∀ (A : Type) (l : list A), schedule A l ≡ₚ l) →
  geometry_ok ds → pool_chunks_ok ds σ0 →
  _process_slices ds ix true = OK (slices, squeeze_axis) →
  in_bounds ds slices → nonempty_region slices →
  1 < n →
  let σ := (load schedule ds data σ0).2 in
  ∃ out,
    arr_shape out = tshape slices
    ∧ (∀ k, in_box k (tshape slices) → is_Some (arr_cells out !! k))
    ∧ let res := match squeeze_axis with
                 | Some (ax :: axes) => np_squeeze out (ax :: axes)
                 | _ => OK out
                 end in
      __getitem__ schedule np_squeeze (set_njobs (Some 1) ds) ix σ = (res, σ)
      ∧ __getitem__ schedule np_squeeze (set_njobs None ds) ix σ = (res, σ)
      ∧ __getitem__ schedule np_squeeze (set_njobs (Some n) ds) ix σ = (res, σ).
Proof.
  intros Hperm Hgeo Hpool Hproc Hb Hne Hn σ.
  destruct (getitem_paths_agree schedule np_squeeze ds σ ix n slices
              squeeze_axis Hperm Hgeo) as (out & Hshape & Hcells & Hres);
    try done.
  { apply load_chunks_ok; [|done]. by apply geometry_chunk_size_nonneg. }
  exists out. split_and!; [done|done|]. cbv zeta in Hres |- *.
  destruct Hres as (H1 & H2 & H3). split_and!; [done|done|].
  by rewrite decide_True in H3.
Qed.

(** C3 (failing input). A dataset of shape (10,) in two chunks of 5,
    populated via [load]. The region [3:3] passes the normalization, is
    in bounds and holds no point. With width 1 the read returns the
    empty array; with width 4 the staged output is a memory map of no
    bytes, which cannot be made, and the read raises. On the region
    [2:9] the two widths return the same array. *)
Theorem getitem_parallel_raises_on_empty_region :
  let ds := {| name := "d"; shape := [10]; dtype := "int32";
               fillvalue := 7; chunks := [2]; chunk_size := [5];
               njobs := None; read_only := false |} in
  let data := NdArray [10] "int32" (tabulate [10] (λ q, 2 * q !!! 0%nat)) in
  let σ := (load (λ A, reverse) ds data ∅).2 in
  let empty := ISeq [ESlice (Some 3) (Some 3) None] in
  let part := ISeq [ESlice (Some 2) (Some 9) None] in
  (load (λ A, reverse) ds data ∅).1 = OK tt
  ∧ _process_slices ds empty true = OK ([Slice 3 3], Some [])
  ∧ in_bounds ds [Slice 3 3]
  ∧ __getitem__ (λ A, reverse) squeeze_axes (set_njobs (Some 1) ds) empty σ
    = (OK (NdArray [0] "int32" ∅), σ)
  ∧ __getitem__ (λ A, reverse) squeeze_axes (set_njobs (Some 4) ds) empty σ
    = (Raise ValueError, σ)
  ∧ __getitem__ (λ A, reverse) squeeze_axes (set_njobs (Some 4) ds) part σ
    = __getitem__ (λ A, reverse) squeeze_axes (set_njobs (Some 1) ds) part σ
  ∧ (__getitem__ (λ A, reverse) squeeze_axes (set_njobs (Some 1) ds) part σ).1
    = OK (NdArray [7] "int32" (tabulate [7] (λ q, 2 * (q !!! 0%nat + 2)))).
Proof.
  intros ds data σ empty part. split_and!.
  - by vm_compute.
  - by vm_compute.
  - repeat constructor; simpl; lia.
  - by vm_compute.
  - by vm_compute.
  - by vm_compute.
  - by vm_compute.
Qed.

(** ** The geometry that creation records *)

Lemma ceil_div n c : 0 < c → - ((- n) / c) = (n + c - 1) / c.
Proof.
  intros Hc. symmetry. apply div_unique_interval; [done|].
  pose proof (div_bounds (- n) c Hc). nia.
Qed.

(** *** The grid in double precision *)

Lemma half_even_spec num den :
  0 < den → 0 ≤ num →
  num / den ≤ half_even num den ≤ num / den + 1
  ∧ (num mod den = 0 → half_even num den = num / den)
  ∧ (den < 2 * (num mod den) → half_even num den = num / den + 1).
Proof.
  intros Hden Hnum. unfold half_even.
  destruct (Z.ltb_spec (2 * (num mod den)) den);
    [|destruct (Z.ltb_spec den (2 * (num mod den)));
      [|destruct (Z.even (num / den))]];
    split_and!; intros; lia.
Qed.

Lemma binade_lower p q :
  0 < p → 0 < q →
  2 ^ 52 * (scaled p q (binade p q)).2 ≤ (scaled p q (binade p q)).1.
Proof.
  intros Hp Hq. unfold binade.
  pose proof (Z.log2_spec p Hp) as [Hp1 Hp2].
  pose proof (Z.log2_spec q Hq) as [Hq1 Hq2].
  pose proof (Z.log2_nonneg p) as Hlp. pose proof (Z.log2_nonneg q) as Hlq.
  set (lp := Z.log2 p) in *. set (lq := Z.log2 q) in *.
  set (e1 := lp - lq - 52).
  destruct (scaled p q e1) as [num1 den1] eqn:Hs1.
  destruct (Z.ltb_spec num1 (2 ^ 52 * den1)) as [Hlt|Hge].
  - unfold scaled. destruct (Z.leb_spec 0 (e1 - 1)) as [He|He]; cbn [fst snd].
    + assert (2 ^ lp = 2 ^ (e1 - 1) * 2 ^ Z.succ lq * 2 ^ 52) as Hpow.
      { rewrite <- !Z.pow_add_r by lia. f_equal. lia. }
      pose proof (Z.pow_pos_nonneg 2 (e1 - 1) ltac:(lia) He). nia.
    + assert (2 ^ lp * 2 ^ (- (e1 - 1)) = 2 ^ 52 * 2 ^ Z.succ lq) as Hpow.
      { rewrite <- !Z.pow_add_r by lia. f_equal. lia. }
      pose proof (Z.pow_pos_nonneg 2 (- (e1 - 1)) ltac:(lia) ltac:(lia)). nia.
  - rewrite Hs1. cbn [fst snd]. lia.
Qed.

Lemma round_double_ceil_exact p q :
  0 < p ≤ 2 ^ 53 → 0 < q ≤ 2 ^ 53 →
  let '(m, e) := round_double p q in
  (if 0 <=? e then m * 2 ^ e else - ((- m) / 2 ^ (- e))) = - ((- p) / q).
Proof.
  intros Hp Hq. unfold round_double.
  pose proof (binade_lower p q ltac:(lia) ltac:(lia)) as Hlow.
  set (e := binade p q) in *. unfold scaled in *.
  destruct (Z.leb_spec 0 e) as [He|He]; cbn [fst snd] in Hlow.
  - (* the quotient is at least 2^52: it is an integer *)
    assert (e = 0 ∨ e = 1) as [->| ->].
    { destruct (decide (e ≤ 1)); [lia|].
      assert (2 ^ 2 ≤ 2 ^ e) by (apply Z.pow_le_mono_r; lia). nia. }
    + rewrite Z.pow_0_r, Z.mul_1_r in *.
      assert (q = 1 ∨ q = 2) as [->| ->] by lia.
      * destruct (half_even_spec p 1 ltac:(lia) ltac:(lia)) as (_ & Hexact & _).
        change (1 * 1) with 1. change (0 <=? 0) with true. cbn iota.
        rewrite (Hexact (Z.mod_1_r p)), !Z.div_1_r. lia.
      * assert (p = 2 ^ 53) as -> by lia. by vm_compute.
    + assert (q = 1) as -> by lia. assert (p = 2 ^ 53) as -> by lia.
      by vm_compute.
  - rewrite (proj2 (Z.leb_gt 0 e) He).
    set (d := 2 ^ (- e)) in *.
    assert (2 ≤ d) as Hd.
    { unfold d. change 2 with (2 ^ 1) at 1. apply Z.pow_le_mono_r; lia. }
    destruct (half_even_spec (p * d) q ltac:(lia) ltac:(nia))
      as (Hm & Hexact & Hup).
    set (m := half_even (p * d) q) in *.
    pose proof (Z.div_mod p q ltac:(lia)) as Hdm.
    pose proof (Z.mod_pos_bound p q ltac:(lia)) as Hr.
    set (k := p / q) in *. set (r := p mod q) in *.
    destruct (decide (r = 0)) as [Hr0|Hr0].
    + assert (p * d = k * d * q) as Hpd by nia.
      assert ((p * d) mod q = 0) as Hmod0 by (rewrite Hpd; apply Z.mod_mul; lia).
      assert ((p * d) / q = k * d) as Hdiv by (rewrite Hpd; apply Z.div_mul; lia).
      rewrite (Hexact Hmod0), Hdiv.
      replace (- (k * d)) with ((- k) * d) by lia. rewrite Z.div_mul by lia.
      replace (- p) with ((- k) * q) by nia. rewrite Z.div_mul by lia. lia.
    + assert (- ((- p) / q) = k + 1) as ->.
      { assert ((- p) / q = - k - 1); [|lia].
        symmetry. apply Z.div_unique_pos with (q - r); lia. }
      assert (k * d < m ≤ (k + 1) * d) as Hmk.
      { split.
        - destruct (decide (q ≤ r * d)) as [Hbig|Hsmall].
          + assert (k * d + 1 ≤ (p * d) / q); [|lia].
            apply Z.div_le_lower_bound; nia.
          + assert ((p * d) / q = k * d ∧ (p * d) mod q = r * d) as [Hdiv Hmod].
            { assert (p * d = q * (k * d) + r * d) as Hpd by nia.
              split; symmetry.
              - apply Z.div_unique_pos with (r * d); [nia|done].
              - apply Z.mod_unique_pos with (k * d); [nia|done]. }
            assert (q < 2 * (r * d)) as Hhalf.
            { destruct (decide (q = 2 * (r * d))) as [Heq|]; [|nia].
              exfalso.
              assert (r = 1 ∧ p = 2 ^ 53) as [Hr1 Hp53] by nia.
              assert (2 ^ 53 mod q = 0) as Hz.
              { rewrite Heq, Hr1. unfold d.
                replace (2 * (1 * 2 ^ (- e))) with (2 ^ (1 - e)).
                2:{ rewrite Z.mul_1_l. replace (1 - e) with (1 + (- e)) by lia.
                    rewrite Z.pow_add_r by lia. done. }
                assert (1 - e ≤ 53) as He53.
                { destruct (decide (1 - e ≤ 53)); [done|].
                  assert (2 ^ 54 ≤ 2 ^ (1 - e)) by (apply Z.pow_le_mono_r; lia).
                  assert (q = 2 ^ (1 - e)).
                  { rewrite Heq, Hr1. unfold d. rewrite Z.mul_1_l.
                    replace (1 - e) with (1 + (- e)) by lia.
                    by rewrite Z.pow_add_r by lia. }
                  lia. }
                replace 53 with ((53 - (1 - e)) + (1 - e)) at 1 by lia.
                rewrite Z.pow_add_r by lia. apply Z.mod_mul.
                apply Z.pow_nonzero; lia. }
              unfold r in Hr1. rewrite Hp53 in Hr1. lia. }
            rewrite (Hup ltac:(lia)) by lia. lia.
        - assert ((p * d) / q < (k + 1) * d); [|lia].
          apply Z.div_lt_upper_bound; nia. }
      assert ((- m) / d = - k - 1); [|lia].
      symmetry. apply Z.div_unique_pos with ((k + 1) * d - m); lia.
Qed.

Lemma float_of_int_exact n : Z.abs n ≤ 2 ^ 53 → float_of_int n = n.
Proof.
  intros Hn. unfold float_of_int.
  destruct (Z.ltb_spec (Z.abs n) (2 ^ 53)) as [|Hge]; [done|].
  assert (n = 2 ^ 53 ∨ n = - 2 ^ 53) as [->| ->] by lia; by vm_compute.
Qed.

Lemma np_ceil_div_exact n c :
  0 ≤ n ≤ 2 ^ 53 → 0 < c ≤ 2 ^ 53 → np_ceil_div n c = - ((- n) / c).
Proof.
  intros Hn Hc. unfold np_ceil_div.
  rewrite !float_of_int_exact by lia.
  destruct (Z.eqb_spec c 0) as [|_]; [lia|].
  destruct (Z.eqb_spec n 0) as [->|Hn0].
  { rewrite Z.div_0_l; lia. }
  rewrite !Z.abs_eq by lia.
  pose proof (round_double_ceil_exact n c ltac:(lia) ltac:(lia)) as Hex.
  destruct (round_double n c) as [m e].
  rewrite !Z.sgn_pos by lia. rewrite !Z.mul_1_l, Hex.
  unfold int_of_float.
  assert (0 ≤ - ((- n) / c) ≤ 2 ^ 53) as Hrange.
  { pose proof (Z.div_mod (- n) c ltac:(lia)).
    pose proof (Z.mod_pos_bound (- n) c ltac:(lia)). nia. }
  destruct (Z.leb_spec (- 2 ^ 63) (- ((- n) / c))); [|lia].
  destruct (Z.ltb_spec (- ((- n) / c)) (2 ^ 63)); [done|lia].
Qed.

(** Above [2 ^ 53] the grid is not the ceiling: the extent
    [2 ^ 53 + 1] is not a double, and [create] records one chunk
    less than the extent needs. A chunk size of 0 gives no exception
    but the conversion of an infinity. *)
Example chunks_needed_inexact :
  chunks_needed [2 ^ 53 + 1] [1] = [2 ^ 53]
  ∧ chunks_needed [10; 0] [0; 0] = [INT64_MIN; INT64_MIN].
Proof. split; by vm_compute. Qed.

(** The chunk grid that [create] computes from a shape and positive chunk
    sizes satisfies the geometry assumed of a dataset, as long as the
    extents and chunk sizes are at most [2 ^ 53]. *)
Lemma chunks_needed_geometry (extents sizes : list Z) :
  Forall2 exact_axis extents sizes →
  Forall3 axis_ok extents sizes (chunks_needed extents sizes).
Proof.
  induction 1 as [|n c extents sizes [Hn Hc] _ IH]; [constructor|].
  cbn [chunks_needed zip_with]. constructor; [|exact IH].
  split; [lia|]. rewrite np_ceil_div_exact by done. apply ceil_div. lia.
Qed.

(** * Further properties *)

(** ** Slice normalization, beyond the rank-3 example *)

Section process_slices_more.
Implicit Types (ds : Dataset) (es : list entry) (e : entry).

(** What an entry that is let through has become. *)
Lemma process_entry_OK ds i e s b :
  process_entry ds i e = OK (s, b) →
  (∃ z, e = EInt z ∧ s = Slice z (z + 1) ∧ b = true)
  ∨ (∃ n a' b' c', shape ds !! i = Some n ∧ e = ESlice a' b' c'
       ∧ slice_in_bounds s n ∧ b = false
       ∧ start s = default 0 a' ∧ stop s = default n b').
Proof.
  destruct e as [z|a' b' c'| |]; cbn [process_entry]; [|
    |discriminate|discriminate].
  - intros [= <- <-]. left. by exists z.
  - intros He. right. unfold shape_at in He.
    destruct (shape ds !! i) as [n|] eqn:Hn.
    + exists n, a', b', c'.
      destruct b' as [b'|]; cbn [rbind default] in He |- *;
        repeat (case_match; cbn [rbind] in He; try discriminate);
        injection He as <- <-; unfold slice_in_bounds; cbn [start stop];
        split_and!; try done; lia.
    + destruct b' as [b'|]; cbn [rbind] in He; try discriminate;
        repeat (case_match; cbn [rbind] in He; try discriminate).
Qed.

Lemma process_entries_OK ds i es sl sq :
  process_entries ds i es = OK (sl, sq) →
  length sl = length es
  ∧ ∀ k s, sl !! k = Some s →
      (∃ z, es !! k = Some (EInt z) ∧ s = Slice z (z + 1))
      ∨ (∃ n, shape ds !! (i + k)%nat = Some n ∧ slice_in_bounds s n).
Proof.
  revert i sl sq. induction es as [|e es IH]; intros i sl sq;
    cbn [process_entries].
  - intros [= <- <-]. split; [done|]. intros k s. by rewrite lookup_nil.
  - destruct (process_entry ds i e) as [[s0 b0]|] eqn:He; cbn [rbind]; [|done].
    destruct (process_entries ds (S i) es) as [[fs sq']|] eqn:Hes;
      cbn [rbind]; [|done].
    intros [= <- <-]. destruct (IH _ _ _ Hes) as [Hlen Hk].
    split; [cbn; by rewrite Hlen|].
    intros [|k] s; cbn [lookup list_lookup].
    + intros [= <-]. apply process_entry_OK in He
        as [(z & -> & -> & _)|(n & ? & ? & ? & Hn & _ & Hb & _)].
      * left. by exists z.
      * right. exists n. by rewrite Nat.add_0_r.
    + intros Hs. destruct (Hk k s Hs) as [?|(n & Hn & ?)]; [by left|].
      right. exists n. by rewrite <- Nat.add_succ_comm.
Qed.

Lemma drop_lookup_head {A} (l : list A) (j : nat) (x : A) (rest : list A) :
  drop j l = x :: rest → l !! j = Some x ∧ drop (S j) l = rest.
Proof.
  intros Hdrop. split.
  - pose proof (lookup_drop l j 0) as Hl.
    rewrite Hdrop, Nat.add_0_r in Hl. done.
  - replace (S j) with (j + 1)%nat by lia. by rewrite <- drop_drop, Hdrop.
Qed.

Lemma process_entries_linked ds es :
  ∀ i sl sq ns,
    process_entries ds i es = OK (sl, sq) →
    drop i (shape ds) = ns → length es = length ns →
    Forall3 entry_slice es sl ns.
Proof.
  induction es as [|e es IH]; intros i sl sq ns; cbn [process_entries].
  - intros [= <- <-] _ Hlen. destruct ns; [constructor|done].
  - destruct (process_entry ds i e) as [[s0 b0]|] eqn:He; cbn [rbind]; [|done].
    destruct (process_entries ds (S i) es) as [[fs sq']|] eqn:Hes;
      cbn [rbind]; [|done].
    intros [= <- <-] Hdrop Hlen. destruct ns as [|n ns]; [done|].
    destruct (drop_lookup_head _ _ _ _ Hdrop) as [Hn Hrest].
    constructor.
    + apply process_entry_OK in He
        as [(z & -> & -> & _)|(n' & a' & b' & c' & Hn' & -> & Hb & _ & Hs1 & Hs2)].
      * done.
      * cbn. rewrite Hn in Hn'. injection Hn' as <-. done.
    + eapply IH; [exact Hes|exact Hrest|]. cbn in Hlen. lia.
Qed.

Lemma elem_of_expand_all e nmiss es :
  e ∈ expand_all nmiss es → e ∈ es ∨ e = full_slice.
Proof.
  unfold expand_all. intros (e' & He & He')%list_elem_of_bind.
  destruct (is_ellipsis e').
  - right. by apply elem_of_replicate in He as [? _].
  - apply list_elem_of_singleton in He as ->. by left.
Qed.

(** What [fit_to_rank] lets through: entries of the index or whole-axis
    slices; exactly as many as the rank when the index holds at most one
    [Ellipsis]. *)
Lemma fit_to_rank_entries ds es fitted :
  fit_to_rank ds es = OK fitted →
  (∀ e, e ∈ fitted → e ∈ es ∨ e = full_slice)
  ∧ ((count_ellipsis es ≤ 1)%nat → length fitted = ndim ds).
Proof.
  intros Hfit.
  destruct (decide (length es ≤ ndim ds)%nat) as [Hle|Hgt].
  - rewrite (fit_to_rank_OK ds es Hle) in Hfit. cbv zeta in Hfit.
    pose proof (expand_all_length (ndim ds - length es) es) as Hlen.
    split.
    + intros e He. destruct (_ <? _)%nat; injection Hfit as <-.
      * apply elem_of_app in He as [He|He].
        -- by eapply elem_of_expand_all.
        -- right. by apply elem_of_replicate in He as [? _].
      * by eapply elem_of_expand_all.
    + intros Hc.
      assert (count_ellipsis es = 0 ∨ count_ellipsis es = 1)%nat
        as [Hz|Hz] by lia; rewrite Hz in Hlen;
        (destruct (_ <? _)%nat eqn:Hlt; injection Hfit as <-;
         [apply Nat.ltb_lt in Hlt; rewrite length_app, length_replicate
         |apply Nat.ltb_ge in Hlt]); lia.
  - rewrite fit_to_rank_too_long in Hfit by lia. done.
Qed.

Lemma wrap_index_entries ix es :
  wrap_index ix = OK es →
  (∀ e, e ∈ es → e ∈ index_entries ix ∨ e = full_slice)
  ∧ (count_ellipsis es ≤ count_ellipsis (index_entries ix))%nat.
Proof.
  destruct ix as [[z|a b c| |]|l]; cbn; intros [= <-]; split;
    try (intros e He; by left); try done.
  - intros e ->%list_elem_of_singleton. by right.
  - vm_compute. lia.
Qed.
End process_slices_more.

(** X1. When the normalization succeeds on an index with at most one
    [Ellipsis], the index fitted to the rank has one entry per axis,
    each an entry of the index or a whole-axis slice, and the result
    has one slice per axis, made from the entry of that axis: a slice
    entry gives a slice that lies inside its axis, with its bounds or
    the ends of the axis; an integer entry [z] gives [slice(z, z + 1)],
    wherever [z] lies. So an index without integer entries always gives
    an in-bounds region. *)
Theorem process_slices_rank_and_bounds (ds : Dataset) (ix : index)
    (detect_squeeze : bool) (sl : list slice) (sq : option (list nat)) :
  _process_slices ds ix detect_squeeze = OK (sl, sq) →
  (count_ellipsis (index_entries ix) ≤ 1)%nat →
  ∃ fitted,
    (es ←! wrap_index ix; fit_to_rank ds es) = OK fitted
    ∧ (∀ e, e ∈ fitted → e ∈ index_entries ix ∨ e = full_slice)
    ∧ length sl = ndim ds
    ∧ Forall3 (λ e s n,
                 match e with
                 | EInt z => s = Slice z (z + 1)
                 | ESlice a b c =>
                     slice_in_bounds s n
                     ∧ start s = default 0 a ∧ stop s = default n b
                 | EEllipsis | EOther => False
                 end) fitted sl (shape ds)
    ∧ ((∀ e, e ∈ index_entries ix → ∀ z, e ≠ EInt z) → in_bounds ds sl).
Proof.
  unfold _process_slices. intros Hrun Hcount.
  destruct (wrap_index ix) as [es|] eqn:Hwrap; cbn [rbind] in Hrun |- *; [|done].
  destruct (fit_to_rank ds es) as [fitted|] eqn:Hfit; cbn [rbind] in Hrun; [|done].
  destruct (process_entries ds 0 fitted) as [[fs sq']|] eqn:Hes;
    cbn [rbind] in Hrun; [|done].
  injection Hrun as <- <-.
  destruct (wrap_index_entries _ _ Hwrap) as [Hwin Hwc].
  destruct (fit_to_rank_entries _ _ _ Hfit) as [Hfin Hflen].
  destruct (process_entries_OK _ _ _ _ _ Hes) as [Hlen Hk].
  assert (length fitted = ndim ds) as Hfrank by (apply Hflen; lia).
  assert (length fs = ndim ds) as Hrank by (by rewrite Hlen).
  exists fitted. split_and!; [done| |done| |].
  - intros e He. destruct (Hfin _ He) as [He'|]; [|by right].
    by apply Hwin.
  - exact (process_entries_linked ds fitted 0 fs sq' (shape ds) Hes eq_refl Hfrank).
  - intros Hnoint. apply Forall2_same_length_lookup_2; [done|].
    intros k s n Hs Hn.
    destruct (Hk k s Hs) as [(z & Hz & _)|(n' & Hn' & ?)].
    + apply list_elem_of_lookup_2 in Hz.
      destruct (Hfin _ Hz) as [He|He]; [|done].
      destruct (Hwin _ He) as [He'|He']; [|done].
      by destruct (Hnoint _ He' z).
    + cbn in Hn'. congruence.
Qed.

Lemma process_slices_rank_and_bounds_witness :
  let ds := {| name := "d"; shape := [10; 7; 4]; dtype := "int32";
               fillvalue := -1; chunks := [4; 2; 1]; chunk_size := [3; 4; 4];
               njobs := None; read_only := false |} in
  let ix := ISeq [ESlice (Some 2) (Some 3) None; EEllipsis; EInt 9] in
  let sl := [Slice 2 3; Slice 0 7; Slice 9 10] in
  ∃ fitted,
    (es ←! wrap_index ix; fit_to_rank ds es) = OK fitted
    ∧ (∀ e, e ∈ fitted → e ∈ index_entries ix ∨ e = full_slice)
    ∧ length sl = ndim ds
    ∧ Forall3 (λ e s n,
                 match e with
                 | EInt z => s = Slice z (z + 1)
                 | ESlice a b c =>
                     slice_in_bounds s n
                     ∧ start s = default 0 a ∧ stop s = default n b
                 | EEllipsis | EOther => False
                 end) fitted sl (shape ds)
    ∧ ((∀ e, e ∈ index_entries ix → ∀ z, e ≠ EInt z) → in_bounds ds sl).
Proof.
  intros ds ix sl.
  apply (process_slices_rank_and_bounds ds ix true sl (Some [2%nat])).
  - reflexivity.
  - vm_compute. lia.
Defined.

(** X2. An [Ellipsis] stands, at its position, for as many whole-axis
    slices as the index is short of the rank; an index without
    [Ellipsis] that is shorter than the rank is completed at its end. *)
Theorem process_slices_ellipsis_fills (ds : Dataset) (pre post : list entry)
    (detect_squeeze : bool) :
  EEllipsis ∉ pre → EEllipsis ∉ post →
  (length pre + length post < ndim ds)%nat →
  let missing := replicate (ndim ds - length pre - length post) full_slice in
  _process_slices ds (ISeq (pre ++ EEllipsis :: post)) detect_squeeze
  = _process_slices ds (ISeq (pre ++ missing ++ post)) detect_squeeze
  ∧ _process_slices ds (ISeq (pre ++ post)) detect_squeeze
    = _process_slices ds (ISeq (pre ++ post ++ missing)) detect_squeeze.
Proof.
  intros Hpre Hpost Hlen missing.
  assert (∀ es, EEllipsis ∉ es →
            count_ellipsis es = 0%nat ∧ ∀ nmiss, expand_all nmiss es = es)
    as Hplain.
  { intros es Hes. apply index_of_ellipsis_None.
    destruct (index_of_ellipsis es) as [idx|] eqn:Hidx; [|done].
    apply index_of_ellipsis_Some in Hidx as (p & q & -> & _).
    destruct Hes. apply elem_of_app. right. by left. }
  destruct (Hplain pre Hpre) as [Hcpre Hxpre].
  destruct (Hplain post Hpost) as [Hcpost Hxpost].
  assert (∀ nmiss, expand_all nmiss missing = missing) as Hxmiss.
  { intros nmiss. apply expand_all_replicate. }
  assert (length missing = (ndim ds - length pre - length post)%nat) as Hmiss
    by apply length_replicate.
  unfold _process_slices. cbn [wrap_index rbind].
  assert (fit_to_rank ds (pre ++ EEllipsis :: post)
          = OK (pre ++ missing ++ post)) as ->.
  { rewrite fit_to_rank_OK by (rewrite length_app; cbn; lia). cbv zeta.
    rewrite expand_all_app, Hxpre, expand_all_cons, Hxpost. cbn [is_ellipsis].
    replace (S (ndim ds - length (pre ++ EEllipsis :: post)))
      with (ndim ds - length pre - length post)%nat
      by (rewrite length_app; cbn [length]; lia).
    fold missing.
    assert ((length (pre ++ missing ++ post) <? ndim ds)%nat = false) as ->;
      [|done].
    apply Nat.ltb_ge. rewrite !length_app. lia. }
  assert (fit_to_rank ds (pre ++ missing ++ post)
          = OK (pre ++ missing ++ post)) as ->.
  { rewrite fit_to_rank_OK by (rewrite !length_app; lia). cbv zeta.
    rewrite !expand_all_app, Hxpre, Hxpost.
    rewrite Hxmiss.
    assert ((length (pre ++ missing ++ post) <? ndim ds)%nat = false) as ->;
      [|done].
    apply Nat.ltb_ge. rewrite !length_app. lia. }
  assert (fit_to_rank ds (pre ++ post) = OK (pre ++ post ++ missing)) as ->.
  { rewrite fit_to_rank_OK by (rewrite !length_app; lia). cbv zeta.
    rewrite !expand_all_app, Hxpre, Hxpost.
    assert ((length (pre ++ post) <? ndim ds)%nat = true) as ->.
    { apply Nat.ltb_lt. rewrite !length_app. lia. }
    rewrite <- app_assoc. do 3 f_equal. unfold missing. f_equal.
    rewrite length_app. lia. }
  assert (fit_to_rank ds (pre ++ post ++ missing)
          = OK (pre ++ post ++ missing)) as ->.
  { rewrite fit_to_rank_OK by (rewrite !length_app; lia). cbv zeta.
    rewrite !expand_all_app, Hxpre, Hxpost.
    rewrite Hxmiss.
    assert ((length (pre ++ post ++ missing) <? ndim ds)%nat = false) as ->;
      [|done].
    apply Nat.ltb_ge. rewrite !length_app. lia. }
  done.
Qed.

Lemma process_slices_ellipsis_fills_witness :
  let ds := {| name := "d"; shape := [10; 7; 4; 5]; dtype := "int32";
               fillvalue := -1; chunks := [4; 2; 1; 1];
               chunk_size := [3; 4; 4; 5];
               njobs := None; read_only := false |} in
  _process_slices ds (ISeq [EInt 3; EEllipsis; ESlice (Some 1) None None]) true
  = _process_slices ds
      (ISeq [EInt 3; full_slice; full_slice; ESlice (Some 1) None None]) true
  ∧ _process_slices ds (ISeq [EInt 3; ESlice (Some 1) None None]) true
    = _process_slices ds
        (ISeq [EInt 3; ESlice (Some 1) None None; full_slice; full_slice]) true.
Proof.
  intros ds.
  apply (process_slices_ellipsis_fills ds [EInt 3]
           [ESlice (Some 1) None None] true).
  - by intros [=]%list_elem_of_singleton.
  - by intros [=]%list_elem_of_singleton.
  - vm_compute. lia.
Defined.

(** X3. A normalized in-bounds region, written back as an index of
    [slice(start, stop)] entries, normalizes to itself, with no axis to
    squeeze. *)
Theorem process_slices_normalized_fixpoint (ds : Dataset) (sl : list slice)
    (detect_squeeze : bool) :
  in_bounds ds sl →
  _process_slices ds (ISeq (slice_entry <$> sl)) detect_squeeze
  = OK (sl, if detect_squeeze then Some [] else None).
Proof.
  intros Hb. pose proof (Forall2_length _ _ _ Hb) as Hlen.
  assert (∀ nmiss, expand_all nmiss (slice_entry <$> sl) = slice_entry <$> sl)
    as Hx.
  { intros nmiss. clear. induction sl as [|s sl IH]; [done|].
    cbn [fmap list_fmap]. rewrite expand_all_cons. cbn. by rewrite IH. }
  unfold _process_slices. cbn [wrap_index rbind].
  rewrite fit_to_rank_OK by (rewrite length_fmap; unfold ndim; lia).
  cbv zeta. rewrite Hx, length_fmap.
  assert ((length sl <? ndim ds)%nat = false) as ->
    by (apply Nat.ltb_ge; unfold ndim; lia).
  cbn [rbind].
  assert (∀ i, Forall2 slice_in_bounds sl (drop i (shape ds)) →
            process_entries ds i (slice_entry <$> sl) = OK (sl, [])) as Hgo.
  { clear. induction sl as [|s sl IH]; intros i Hall; [done|].
    destruct (drop i (shape ds)) as [|n rest] eqn:Hdrop;
      [by apply Forall2_nil_inv_r in Hall|].
    apply Forall2_cons in Hall as [[Hs1 Hs2] Hall].
    assert (shape ds !! i = Some n) as Hn.
    { pose proof (lookup_drop (shape ds) i 0) as Hl.
      rewrite Hdrop, Nat.add_0_r in Hl. done. }
    assert (drop (S i) (shape ds) = rest) as Hrest.
    { replace (S i) with (i + 1)%nat by lia.
      by rewrite <- drop_drop, Hdrop. }
    cbn [fmap list_fmap process_entries]. unfold slice_entry at 1.
    cbn [process_entry default rbind]. unfold shape_at, id. rewrite Hn.
    cbn [rbind].
    assert ((start s <? 0) = false) as -> by (apply Z.ltb_ge; lia).
    assert ((n <=? start s) = false) as -> by (apply Z.leb_gt; lia).
    assert ((stop s <? 0) = false) as -> by (apply Z.ltb_ge; lia).
    assert ((n <? stop s) = false) as -> by (apply Z.ltb_ge; lia).
    assert ((stop s <? start s) = false) as -> by (apply Z.ltb_ge; lia).
    cbn [rbind orb]. rewrite IH by (by rewrite Hrest). cbn [rbind].
    by destruct s. }
  rewrite Hgo by done. done.
Qed.

Lemma process_slices_normalized_fixpoint_witness :
  let ds := {| name := "d"; shape := [10; 7]; dtype := "int32";
               fillvalue := -1; chunks := [4; 2]; chunk_size := [3; 4];
               njobs := None; read_only := false |} in
  _process_slices ds (ISeq (slice_entry <$> [Slice 2 9; Slice 0 7])) true
  = OK ([Slice 2 9; Slice 0 7], Some []).
Proof.
  intros ds.
  apply (process_slices_normalized_fixpoint ds [Slice 2 9; Slice 0 7] true).
  repeat constructor; simpl; lia.
Defined.

(** ** The chunk/region mapping, further *)

Section iterator_more.
Implicit Types (ds : Dataset) (slices : list slice) (axes : list axis_targets).

Lemma rec_index_pick_cons ax axes (j : nat) (idx : list nat) :
  rec_index (pick_axes (ax :: axes) (j :: idx))
  = (index_ax ax !!! j) :: rec_index (pick_axes axes idx).
Proof. reflexivity. Qed.

(** The chunk index of a record determines the position it was picked
    at. *)
Lemma pick_axes_index_inj slices sizes grid (idx1 idx2 : list nat) :
  let axes := zip_axes slices sizes grid in
  Forall2 (λ (j n : nat), (j < n)%nat) idx1 (touched_lens axes) →
  Forall2 (λ (j n : nat), (j < n)%nat) idx2 (touched_lens axes) →
  rec_index (pick_axes axes idx1) = rec_index (pick_axes axes idx2) →
  idx1 = idx2.
Proof.
  cbv zeta. revert sizes grid idx1 idx2.
  induction slices as [|s slices IH]; intros sizes grid idx1 idx2.
  - cbn. by intros ->%Forall2_nil_inv_r ->%Forall2_nil_inv_r.
  - destruct sizes as [|c sizes];
      [cbn; by intros ->%Forall2_nil_inv_r ->%Forall2_nil_inv_r|].
    destruct grid as [|m grid];
      [cbn; by intros ->%Forall2_nil_inv_r ->%Forall2_nil_inv_r|].
    cbn [zip_axes touched_lens fmap list_fmap].
    intros (j1 & idx1' & Hj1 & H1 & ->)%Forall2_cons_inv_r
           (j2 & idx2' & Hj2 & H2 & ->)%Forall2_cons_inv_r.
    rewrite !rec_index_pick_cons. intros [= Hhead Htail].
    destruct (axis_chunks_lookup s c m j1 Hj1) as (Hi1 & _).
    destruct (axis_chunks_lookup s c m j2 Hj2) as (Hi2 & _).
    unfold axis_chunks in Hi1, Hi2. cbn [index_ax] in Hi1, Hi2.
    rewrite Hi1, Hi2 in Hhead. f_equal; [lia|].
    by eapply IH.
Qed.
End iterator_more.

(** X4. No chunk is visited twice: the chunk indexes of the records of
    the mapping are pairwise different, whatever the request. *)
Theorem chunk_slice_iterator_visits_once (ds : Dataset) (slices : list slice) :
  NoDup (rec_index <$> _get_chunk_slice_iterator ds slices).
Proof.
  unfold _get_chunk_slice_iterator. fold touched_lens.
  rewrite <- list_fmap_compose.
  apply NoDup_fmap_2_strong; [|apply NoDup_ndindex].
  intros idx1 idx2 H1%elem_of_ndindex H2%elem_of_ndindex Heq.
  by eapply pick_axes_index_inj.
Qed.

Section whole_dataset.
Implicit Types (ds : Dataset) (extents sizes grid : list Z).

Lemma fmap_bind_list {A B C} (f : B → C) (g : A → list B) (l : list A) :
  f <$> (l ≫= g) = l ≫= (λ x, f <$> g x).
Proof.
  induction l as [|x l IH]; [done|].
  by rewrite !bind_cons, fmap_app, IH.
Qed.

Lemma bind_lookup_total {A B} `{!Inhabited A} (f : A → list B) (l : list A) :
  seq 0 (length l) ≫= (λ j, f (l !!! j)) = l ≫= f.
Proof.
  induction l as [|x l IH]; [done|].
  cbn [length seq]. rewrite !bind_cons. f_equal.
  rewrite <- fmap_S_seq, list_fmap_bind. exact IH.
Qed.

(** The arithmetic of one axis requested whole. *)
Lemma axis_whole_arith n c m :
  axis_ok n c m → 0 < n →
  0 / c = 0 ∧ Z.min (n / c) (m - 1) = m - 1 ∧ 1 ≤ m
  ∧ (m - 1) * c < n ≤ m * c.
Proof.
  intros [Hc ->] Hn.
  pose proof (div_bounds (n + c - 1) c Hc) as H1.
  pose proof (div_bounds n c Hc) as H2.
  split_and!; [by apply Z.div_0_l; lia|nia|nia|nia|nia].
Qed.

Lemma axis_whole n c m :
  axis_ok n c m → 0 < n →
  let ax := axis_chunks (Slice 0 n) c m in
  index_ax ax = seqZ 0 m
  ∧ ∀ j, (j < length (index_ax ax))%nat →
      let i := Z.of_nat j in
      index_ax ax !!! j = i
      ∧ ltarget ax !!! j = Slice 0 (Z.min ((i + 1) * c) n - i * c)
      ∧ gtarget ax !!! j = Slice (i * c) (Z.min ((i + 1) * c) n).
Proof.
  intros Hok Hn ax.
  destruct (axis_whole_arith n c m Hok Hn) as (H0 & Hec & Hm & Hlo & Hhi).
  split.
  - unfold ax, axis_chunks, range. cbn [index_ax start stop].
    rewrite H0, Hec. f_equal. lia.
  - intros j Hj i.
    pose proof (axis_chunks_length (Slice 0 n) c m) as (_ & _ & Hlen).
    fold ax in Hlen. cbn [start stop] in Hlen. rewrite H0, Hec in Hlen.
    destruct (axis_chunks_lookup (Slice 0 n) c m j Hj) as (Hi & Hl & Hg).
    fold ax in Hi, Hl, Hg. cbn [start stop] in Hi, Hl, Hg.
    rewrite H0, Z.add_0_l in Hi. rewrite H0, Hec, !Z.add_0_l in Hl, Hg.
    fold i in Hi, Hl, Hg.
    assert (0 ≤ i < m) as Hrange by lia.
    split_and!; [done| |].
    + rewrite Hl. destruct (Z.eqb_spec i 0), (Z.eqb_spec i (m - 1));
        f_equal; nia.
    + rewrite Hg. destruct (Z.eqb_spec i 0), (Z.eqb_spec i (m - 1));
        f_equal; nia.
Qed.

(** The records of the request for the whole dataset carry the bounds
    of their chunk. *)
Lemma whole_records extents sizes grid :
  Forall3 axis_ok extents sizes grid → Forall (λ n, 0 < n) extents →
  let axes := zip_axes ((λ n, Slice 0 n) <$> extents) sizes grid in
  ∀ ds j idx,
    drop j (shape ds) = extents →
    Forall2 (λ (j n : nat), (j < n)%nat) idx (touched_lens axes) →
    let r := pick_axes axes idx in
    lchunk_bounds_from ds j (rec_index r) sizes = OK (rec_lslice r)
    ∧ gchunk_bounds_from ds j (rec_index r) sizes = OK (rec_gslice r).
Proof.
  intros Hgeo. induction Hgeo as [|n c m extents sizes grid Hok Hgeo IH];
    intros Hpos; cbv zeta; intros ds j idx Hdrop Hidx.
  - cbn in Hidx. apply Forall2_nil_inv_r in Hidx as ->. done.
  - apply Forall_cons in Hpos as [Hn Hpos].
    cbn [fmap list_fmap zip_axes touched_lens] in Hidx |- *.
    apply Forall2_cons_inv_r in Hidx as (j0 & idx' & Hj0 & Hidx' & ->).
    destruct (drop_lookup_head _ _ _ _ Hdrop) as [Hsh Hdrop'].
    destruct (axis_whole n c m Hok Hn) as [_ Hax].
    destruct (Hax j0 Hj0) as (Hi & Hl & Hg).
    destruct (IH Hpos ds (S j) idx' Hdrop' Hidx') as [IHl IHg].
    cbn [pick_axes rec_index rec_lslice rec_gslice
         lchunk_bounds_from gchunk_bounds_from].
    unfold shape_at. rewrite Hsh. cbn [rbind].
    rewrite IHl, IHg. cbn [rbind]. by rewrite Hi, Hl, Hg.
Qed.

Lemma whole_indexes extents sizes grid :
  Forall3 axis_ok extents sizes grid → Forall (λ n, 0 < n) extents →
  let axes := zip_axes ((λ n, Slice 0 n) <$> extents) sizes grid in
  rec_index <$> (pick_axes axes <$> ndindex (touched_lens axes)) = points grid.
Proof.
  intros Hgeo. induction Hgeo as [|n c m extents sizes grid Hok Hgeo IH];
    intros Hpos; cbv zeta; [done|].
  apply Forall_cons in Hpos as [Hn Hpos].
  cbn [fmap list_fmap zip_axes touched_lens ndindex points].
  destruct (axis_whole n c m Hok Hn) as [Hidx _].
  set (ax := axis_chunks (Slice 0 n) c m) in *.
  set (axes := zip_axes ((λ n, Slice 0 n) <$> extents) sizes grid) in *.
  rewrite !fmap_bind_list.
  erewrite list_bind_ext; [|intros j|reflexivity].
  2:{ rewrite <- !list_fmap_compose.
      change (rec_index ∘ pick_axes (ax :: axes) ∘ cons j)
        with (cons (index_ax ax !!! j) ∘ (rec_index ∘ pick_axes axes)).
      rewrite list_fmap_compose, (list_fmap_compose (pick_axes axes)).
      fold (touched_lens axes). rewrite (IH Hpos). reflexivity. }
  rewrite (bind_lookup_total (λ x, cons x <$> points grid) (index_ax ax)).
  by rewrite Hidx.
Qed.
End whole_dataset.

(** X5. Requested whole, the dataset is walked chunk by chunk: the
    records of the mapping carry the chunk indexes of the grid in
    row-major order, and the local and global slices of each record are
    the bounds of its chunk as [_lchunk_bounds_slices] and
    [_gchunk_bounds_slices] compute them. *)
Theorem chunk_slice_iterator_whole_dataset (ds : Dataset) :
  geometry_ok ds → Forall (λ n, 0 < n) (shape ds) →
  let records := _get_chunk_slice_iterator ds (whole ds) in
  rec_index <$> records = points (chunks ds)
  ∧ ∀ r, r ∈ records →
      _lchunk_bounds_slices ds (rec_index r) = OK (rec_lslice r)
      ∧ _gchunk_bounds_slices ds (rec_index r) = OK (rec_gslice r).
Proof.
  intros Hgeo Hpos records. unfold records, _get_chunk_slice_iterator, whole.
  fold touched_lens. split.
  - by apply whole_indexes.
  - intros r (idx & -> & Hidx%elem_of_ndindex)%list_elem_of_fmap.
    by apply (whole_records _ _ _ Hgeo Hpos ds 0%nat idx).
Qed.

Lemma chunk_slice_iterator_whole_dataset_witness :
  let ds := {| name := "d"; shape := [10; 7]; dtype := "int32";
               fillvalue := -1; chunks := [4; 2]; chunk_size := [3; 4];
               njobs := None; read_only := false |} in
  let records := _get_chunk_slice_iterator ds (whole ds) in
  rec_index <$> records = points (chunks ds)
  ∧ ∀ r, r ∈ records →
      _lchunk_bounds_slices ds (rec_index r) = OK (rec_lslice r)
      ∧ _gchunk_bounds_slices ds (rec_index r) = OK (rec_gslice r).
Proof.
  intros ds. apply (chunk_slice_iterator_whole_dataset ds).
  - repeat constructor; simpl; lia.
  - repeat constructor.
Defined.

(** ** Chunk indexes, further *)

(** X6. A multi-axis chunk index is accepted exactly when it has the
    rank of the dataset and every component is below the grid on its
    axis. Nothing bounds a component from below: a negative component is
    accepted. *)
Theorem transform_chunk_index_accepts (ds : Dataset) (l : list Z) :
  (1 < length l)%nat → length (chunks ds) = ndim ds →
  _transform_chunk_index ds (CSeq l) = OK l
  ↔ length l = ndim ds ∧ Forall2 (λ c m, c < m) l (chunks ds).
Proof.
  intros Hl Hgrid. unfold _transform_chunk_index.
  destruct l as [|c0 [|c1 l]]; cbn [length] in Hl; [lia|lia|].
  cbn [rbind]. fold (ndim ds).
  destruct (Nat.eqb_spec (length (c0 :: c1 :: l)) (ndim ds)) as [Hlen|Hlen];
    [|split; [done|by intros [? _]]].
  assert (∀ (idx grid : list Z), length idx = length grid →
            existsb (λ '(c1, c2), c2 <=? c1) (zip idx grid) = false
            ↔ Forall2 (λ c m, c < m) idx grid) as Hall.
  { clear. induction idx as [|c idx IH]; intros [|m grid] Hlen;
      cbn [length] in Hlen; try done.
    cbn [zip zip_with existsb]. rewrite orb_false_iff, Z.leb_gt, Forall2_cons.
    rewrite IH by lia. done. }
  specialize (Hall (c0 :: c1 :: l) (chunks ds) ltac:(lia)).
  destruct (existsb _ _); split.
  - done.
  - intros [_ Hlt]. by apply Hall in Hlt.
  - intros _. split; [done|]. by apply Hall.
  - done.
Qed.

Lemma transform_chunk_index_accepts_witness :
  let ds := {| name := "d"; shape := [10; 7]; dtype := "int32";
               fillvalue := -1; chunks := [4; 2]; chunk_size := [3; 4];
               njobs := None; read_only := false |} in
  _transform_chunk_index ds (CSeq [-1; 0]) = OK [-1; 0]
  ↔ length [-1; 0] = ndim ds ∧ Forall2 (λ c m, c < m) [-1; 0] (chunks ds).
Proof.
  intros ds. apply (transform_chunk_index_accepts ds [-1; 0]).
  - simpl. lia.
  - reflexivity.
Defined.

(** X7. On a dataset of rank above 1, a single integer outside
    [0, total_chunks) is not answered with the out-of-grid error: an
    integer at or above the number of chunks is kept as a one-element
    index and fails the rank test; a negative one reaches
    [np.unravel_index], which raises [ValueError]. *)
Theorem transform_chunk_index_flat_out_of_range (ds : Dataset) (i : Z) :
  (1 < ndim ds)%nat →
  (total_chunks ds ≤ i →
   _transform_chunk_index ds (CInt i)
   = Raise (DatasetException IncorrectChunkIndex))
  ∧ (i < 0 → i < total_chunks ds →
     _transform_chunk_index ds (CInt i) = Raise ValueError).
Proof.
  intros Hrank. unfold _transform_chunk_index. cbn [rbind].
  apply Nat.ltb_lt in Hrank as Hrank'. rewrite Hrank'. cbn [andb]. split.
  - intros Hi. apply Z.ltb_ge in Hi as ->. cbn [rbind length].
    fold (ndim ds).
    destruct (Nat.eqb_spec 1 (ndim ds)) as [Heq|_]; [lia|done].
  - intros Hneg Hi. apply Z.ltb_lt in Hi as ->. unfold np_unravel_index.
    apply Z.leb_gt in Hneg as ->. done.
Qed.

Lemma transform_chunk_index_flat_out_of_range_witness :
  let ds := {| name := "d"; shape := [10; 7]; dtype := "int32";
               fillvalue := -1; chunks := [4; 2]; chunk_size := [3; 4];
               njobs := None; read_only := false |} in
  (total_chunks ds ≤ 8 →
   _transform_chunk_index ds (CInt 8)
   = Raise (DatasetException IncorrectChunkIndex))
  ∧ (8 < 0 → 8 < total_chunks ds →
     _transform_chunk_index ds (CInt 8) = Raise ValueError).
Proof.
  intros ds. apply (transform_chunk_index_flat_out_of_range ds 8).
  unfold ndim. simpl. lia.
Defined.

(** ** Creation, further *)

Section create_more.
Variable pool_njobs : option Z.
Variable schedule : ∀ A : Type, list A → list A.

Lemma validate_chunk_shape_length chunks shape cs :
  _validate_chunk_shape chunks (Some shape) = OK cs →
  length cs = length shape.
Proof.
  unfold _validate_chunk_shape.
  destruct chunks as [|c|l|[c| |]]; try done.
  - by intros [= <-].
  - intros [= <-]. apply length_replicate.
  - destruct (Nat.eqb_spec (length l) (length shape)); [|done].
    by intros [= <-].
  - intros [= <-]. apply length_replicate.
Qed.
End create_more.

(** X8. The chunk size that the validation of the [chunks] argument
    lets through has one entry per axis of the shape. The error meant
    for a mismatch, 'Dimension of chunks does not match the data shape',
    is raised only for an object on which [int()] raises [ValueError]; a
    sequence of the wrong length raises the [TypeError] of [int()]. *)
Theorem validate_chunk_shape_rank (chunks : chunks_arg) (shape_arg : list Z) :
  (∀ cs, _validate_chunk_shape chunks (Some shape_arg) = OK cs →
         length cs = length shape_arg)
  ∧ (_validate_chunk_shape chunks (Some shape_arg)
     = Raise (DatasetException ChunkDimMismatch)
     ↔ chunks = ChunksOther IntValueError)
  ∧ (∀ l, length l ≠ length shape_arg →
          _validate_chunk_shape (ChunksSeq l) (Some shape_arg) = Raise TypeError).
Proof.
  split_and!.
  - intros cs. apply validate_chunk_shape_length.
  - unfold _validate_chunk_shape. split.
    + destruct chunks as [|c|l|[c| |]]; try done.
      by destruct (_ =? _)%nat.
    + by intros ->.
  - intros l Hl. unfold _validate_chunk_shape.
    by destruct (Nat.eqb_spec (length l) (length shape_arg)).
Qed.



(** ** Arrays, further *)

Section arrays_more.
Implicit Types (a v : ndarray) (gs : list slice) (q k extents : list Z).

Lemma wf_array_lookup a q :
  wf_array a → in_box q (arr_shape a) →
  arr_cells a !! q = Some (arr_cells a !!! q).
Proof.
  intros [_ Hdom] Hq. apply Hdom in Hq as [x Hx].
  by rewrite (lookup_total_correct _ _ _ Hx).
Qed.

Lemma wf_array_outside a q :
  wf_array a → ¬ in_box q (arr_shape a) → arr_cells a !! q = None.
Proof.
  intros [_ Hdom] Hq. apply eq_None_not_Some. by rewrite Hdom.
Qed.

(** Two well-formed arrays with the same shape, element type and
    content are the same array. *)
Lemma wf_array_eq a v :
  wf_array a → wf_array v →
  arr_shape a = arr_shape v → arr_dtype a = arr_dtype v →
  (∀ q, in_box q (arr_shape a) → arr_cells a !!! q = arr_cells v !!! q) →
  a = v.
Proof.
  intros Ha Hv Hshape Hdtype Hcells.
  assert (arr_cells a = arr_cells v) as Hc.
  { apply map_eq. intros q.
    destruct (decide (in_box q (arr_shape a))) as [Hq|Hq].
    - rewrite (wf_array_lookup _ _ Ha Hq), (Hcells q Hq).
      rewrite Hshape in Hq. by rewrite (wf_array_lookup _ _ Hv Hq).
    - rewrite (wf_array_outside _ _ Ha Hq).
      rewrite Hshape in Hq. by rewrite (wf_array_outside _ _ Hv Hq). }
  destruct a, v; cbn in *; congruence.
Qed.

Lemma wf_tabulate extents dtype (f : list Z → Z) :
  Forall (λ n, 0 ≤ n) extents →
  wf_array (NdArray extents dtype (tabulate extents f)).
Proof.
  intros Hpos. split; [done|]. intros q. cbn.
  rewrite lookup_tabulate, <- elem_of_points.
  case_decide; split; try done; by intros [? ?].
Qed.

Lemma lookup_total_tabulate extents (f : list Z → Z) q :
  in_box q extents → tabulate extents f !!! q = f q.
Proof.
  intros Hq. apply lookup_total_correct.
  by apply lookup_tabulate_Some.
Qed.

Lemma np_full_wf extents x dtype a :
  np_full extents x dtype = OK a →
  wf_array a ∧ arr_shape a = extents ∧ arr_dtype a = dtype
  ∧ ∀ q, in_box q extents → arr_cells a !!! q = x.
Proof.
  unfold np_full. destruct (forallb _ _) eqn:Hpos; [|done].
  apply forallb_nonneg in Hpos. intros [= <-]. split_and!; try done.
  - by apply wf_tabulate.
  - intros q Hq. cbn. by rewrite lookup_total_tabulate.
Qed.

(** What [fromstring] reads is a well-formed array of the shape asked
    for. *)
Lemma fromstring_wf elems dtype extents a :
  fromstring elems dtype extents = OK a →
  wf_array a ∧ arr_shape a = extents ∧ arr_dtype a = dtype.
Proof.
  unfold fromstring.
  destruct (forallb _ _) eqn:Hpos; cbn [andb]; [|done].
  destruct (Z.leb_spec (prod extents) (Z.of_nat (length elems))) as [Hlen|];
    [|done].
  apply forallb_nonneg in Hpos. intros [= <-]. split_and!; try done.
  split; [done|]. intros q. cbn [arr_cells arr_shape].
  rewrite <- elem_of_points, <- not_eq_None_Some, <- not_elem_of_list_to_map.
  rewrite fst_zip by (pose proof (length_points extents Hpos); lia).
  split; [apply dec_stable|by intros ? ?].
Qed.

(** Reading back the elements of a well-formed array gives its cells. *)
Lemma fromstring_tobytes a dtype :
  wf_array a →
  fromstring (tobytes a) dtype (arr_shape a)
  = OK (NdArray (arr_shape a) dtype (arr_cells a)).
Proof.
  intros Ha. pose proof Ha as [Hpos Hdom]. unfold fromstring.
  pose proof (length_tobytes a Hpos) as Hlen.
  apply forallb_nonneg in Hpos as Hpos'. rewrite Hpos'. cbn [andb].
  destruct (Z.leb_spec (prod (arr_shape a)) (Z.of_nat (length (tobytes a))))
    as [_|]; [|lia].
  do 2 f_equal. unfold tobytes.
  rewrite zip_with_fmap_r, zip_with_diag.
  change (list_to_map ((λ q, (q, arr_cells a !!! q)) <$> points (arr_shape a)))
    with (tabulate (arr_shape a) (λ q, arr_cells a !!! q)).
  apply map_eq. intros q. rewrite lookup_tabulate.
  case_decide as Hq; rewrite elem_of_points in Hq.
  - by rewrite (wf_array_lookup _ _ Ha Hq).
  - by rewrite (wf_array_outside _ _ Ha Hq).
Qed.

(** Positions inside a region, relative to its origin and absolute. *)
Lemma in_slices_shift gs q :
  in_box q (tshape gs) →
  in_slices (zip_with Z.add (start <$> gs) q) gs
  ∧ zip_with Z.sub (zip_with Z.add (start <$> gs) q) (start <$> gs) = q.
Proof.
  unfold in_box, in_slices, tshape. revert q.
  induction gs as [|g gs IH]; intros q Hq; cbn [fmap list_fmap] in Hq |- *.
  - apply Forall2_nil_inv_r in Hq as ->. split; [constructor|done].
  - apply Forall2_cons_inv_r in Hq as (x & q' & Hx & Hq' & ->).
    destruct (IH _ Hq') as [IH1 IH2]. cbn [zip_with]. split.
    + constructor; [lia|done].
    + rewrite IH2. f_equal. lia.
Qed.

Lemma in_slices_unshift gs k :
  in_slices k gs →
  in_box (zip_with Z.sub k (start <$> gs)) (tshape gs)
  ∧ zip_with Z.add (start <$> gs) (zip_with Z.sub k (start <$> gs)) = k.
Proof.
  unfold in_box, in_slices, tshape. revert k.
  induction gs as [|g gs IH]; intros k Hk; cbn [fmap list_fmap] in Hk |- *.
  - apply Forall2_nil_inv_r in Hk as ->. split; [constructor|done].
  - apply Forall2_cons_inv_r in Hk as (x & k' & Hx & Hk' & ->).
    destruct (IH _ Hk') as [IH1 IH2]. cbn [zip_with]. split.
    + constructor; [lia|done].
    + rewrite IH2. f_equal. lia.
Qed.

Lemma fst_selection_within gs :
  ((λ g, (start g, stop g - start g)) <$> gs).*1 = start <$> gs.
Proof. by rewrite <- list_fmap_compose. Qed.

(** [a[gs]] for slices inside the array: the region, re-based. *)
Lemma np_getitem_within a gs :
  Forall2 (λ g n, 0 ≤ start g ≤ stop g ∧ stop g ≤ n) gs (arr_shape a) →
  ∃ v, np_getitem a gs = OK v
    ∧ wf_array v ∧ arr_shape v = tshape gs ∧ arr_dtype v = arr_dtype a
    ∧ ∀ q, in_box q (tshape gs) →
           arr_cells v !!! q
           = arr_cells a !!! zip_with Z.add (start <$> gs) q.
Proof.
  intros Hgs. unfold np_getitem.
  rewrite (Forall2_length _ _ _ Hgs), Nat.ltb_irrefl.
  rewrite (selection_within _ _ Hgs), snd_selection_within,
    fst_selection_within.
  assert (Forall (λ n, 0 ≤ n) (tshape gs)) as Hpos.
  { unfold tshape. apply Forall_fmap. eapply Forall2_Forall_l; [done|].
    apply Forall_true. simpl. lia. }
  eexists. split; [reflexivity|]. split_and!; try done.
  - by apply wf_tabulate.
  - intros q Hq. cbn. by rewrite lookup_total_tabulate.
Qed.

Lemma broadcast_index_in_box vshape q :
  in_box q vshape → broadcast_index vshape q = q.
Proof.
  unfold in_box, broadcast_index. revert q.
  induction vshape as [|n vshape IH]; intros q Hq.
  - by apply Forall2_nil_inv_r in Hq as ->.
  - apply Forall2_cons_inv_r in Hq as (x & q' & Hx & Hq' & ->).
    cbn [zip_with]. rewrite IH by done.
    destruct (Z.eqb_spec n 1); [|done]. f_equal. lia.
Qed.

(** [a[gs] = v] for slices inside the array and a value of the shape
    of the region: the region takes the value, the rest stays. *)
Lemma np_setitem_region a v gs :
  wf_array a →
  Forall2 (λ g n, 0 ≤ start g ≤ stop g ∧ stop g ≤ n) gs (arr_shape a) →
  arr_shape v = tshape gs →
  ∃ a', np_setitem a gs v = OK a'
    ∧ wf_array a' ∧ arr_shape a' = arr_shape a ∧ arr_dtype a' = arr_dtype a
    ∧ ∀ q, in_box q (arr_shape a) →
           arr_cells a' !!! q
           = if decide (in_slices q gs)
             then arr_cells v !!! zip_with Z.sub q (start <$> gs)
             else arr_cells a !!! q.
Proof.
  intros Ha Hgs Hv.
  destruct (np_setitem_within a v gs Hgs Hv)
    as (a' & Hset & Hshape & Hdtype & Hcells).
  exists a'. split_and!; try done.
  - split; [rewrite Hshape; apply Ha|]. intros q.
    rewrite Hcells, Hshape, fmap_is_Some. apply Ha.
  - intros q Hq. apply lookup_total_correct. rewrite Hcells.
    rewrite (wf_array_lookup _ _ Ha Hq). cbn. f_equal.
    rewrite (selection_within _ _ Hgs), fst_selection_within.
    destruct (in_selection _ _) eqn:Hsel.
    + apply in_selection_slices in Hsel. rewrite decide_True by done.
      rewrite broadcast_index_in_box; [done|].
      rewrite Hv. by apply in_slices_unshift.
    + rewrite decide_False; [done|].
      intros Hq'%in_selection_slices. congruence.
Qed.
End arrays_more.

(** ** Chunk names *)

Section chunk_names.
Implicit Types (s x y : string) (l : list string).

Lemma pretty_N_go_no_dot (n : N) s : no_dot s → no_dot (pretty_N_go n s).
Proof.
  revert s. induction (N.lt_wf_0 n) as [n _ IH]; intros s Hs.
  assert (n = 0 ∨ 0 < n)%N as [->|Hn] by lia.
  - by rewrite pretty_N_go_0.
  - rewrite pretty_N_go_step by done. apply IH.
    { by apply N.div_lt. }
    split; [|done]. unfold pretty_N_char. by repeat case_match.
Qed.

Lemma pretty_N_go_length (n : N) s :
  (String.length s ≤ String.length (pretty_N_go n s))%nat.
Proof.
  revert s. induction (N.lt_wf_0 n) as [n _ IH]; intros s.
  assert (n = 0 ∨ 0 < n)%N as [->|Hn] by lia.
  - by rewrite pretty_N_go_0.
  - rewrite pretty_N_go_step by done.
    etrans; [|by eapply IH, N.div_lt]. simpl. lia.
Qed.

Lemma pretty_N_no_dot (n : N) : no_dot (pretty n) ∧ pretty n ≠ "".
Proof.
  unfold pretty, pretty_N. case_decide as Hn; [done|]. split.
  - by apply pretty_N_go_no_dot.
  - rewrite pretty_N_go_step by lia. intros Heq.
    pose proof (pretty_N_go_length (n `div` 10)
                  (String (pretty_N_char (n `mod` 10)) "")) as Hlen.
    rewrite Heq in Hlen. simpl in Hlen. lia.
Qed.

Lemma pretty_Z_no_dot (z : Z) : no_dot (pretty z) ∧ pretty z ≠ "".
Proof.
  destruct z as [|p|p]; unfold pretty, pretty_Z.
  - done.
  - apply (pretty_N_no_dot (Npos p)).
  - destruct (pretty_N_no_dot (Npos p)) as [Hd _]. split; [|done].
    split; [done|]. exact Hd.
Qed.

Lemma app_nil_l s : "" +:+ s = s.
Proof. reflexivity. Qed.

Lemma app_cons (c : Ascii.ascii) x s : String c x +:+ s = String c (x +:+ s).
Proof. reflexivity. Qed.

(** A text without a dot is cut from what follows it at the first
    dot. *)
Lemma dot_split x y s1 s2 :
  no_dot x → no_dot y →
  x +:+ "." +:+ s1 = y +:+ "." +:+ s2 → x = y ∧ s1 = s2.
Proof.
  revert y. induction x as [|c x IH]; intros [|d y] Hx Hy;
    repeat (rewrite app_cons || rewrite app_nil_l).
  - by intros [= ->].
  - intros [= <- _]. by destruct Hy.
  - intros [= -> _]. by destruct Hx.
  - intros [= <- Heq]. destruct Hx as [_ Hx], Hy as [_ Hy].
    destruct (IH y Hx Hy Heq) as [-> ->]. done.
Qed.

Lemma no_dot_app x y s : no_dot x → x ≠ y +:+ "." +:+ s.
Proof.
  revert y. induction x as [|c x IH]; intros [|d y] Hx;
    repeat (rewrite app_cons || rewrite app_nil_l); try done.
  - intros [= -> _]. by destruct Hx.
  - intros [= _ Heq]. destruct Hx as [_ Hx]. by eapply IH.
Qed.

Lemma join_cons2 x y l : join "." (x :: y :: l) = x +:+ "." +:+ join "." (y :: l).
Proof. reflexivity. Qed.

Lemma join_dot_inj l1 l2 :
  Forall (λ x, no_dot x ∧ x ≠ "") l1 → Forall (λ x, no_dot x ∧ x ≠ "") l2 →
  join "." l1 = join "." l2 → l1 = l2.
Proof.
  intros H1. revert l2.
  induction H1 as [|x l1 [Hx Hxe] H1 IH]; intros l2 H2.
  - destruct H2 as [|y l2 [Hy Hye] H2]; [done|].
    destruct l2 as [|y2 l2]; cbn; [congruence|].
    destruct y; [done|]. discriminate.
  - destruct H2 as [|y l2 [Hy Hye] H2].
    + destruct l1 as [|x2 l1]; cbn; [congruence|].
      destruct x; [done|]. discriminate.
    + destruct l1 as [|x2 l1], l2 as [|y2 l2].
      * cbn. by intros ->.
      * rewrite join_cons2. cbn [join]. intros Heq.
        by destruct (no_dot_app _ _ _ Hx Heq).
      * rewrite join_cons2. cbn [join]. intros Heq. symmetry in Heq.
        by destruct (no_dot_app _ _ _ Hy Heq).
      * rewrite !join_cons2. intros [-> Heq]%dot_split; [|done|done].
        f_equal. by apply IH.
Qed.

(** Two chunk indexes of a dataset with the same object name are the
    same index. *)
Lemma chunkname_inj (ds : Dataset) (idx1 idx2 : list Z) :
  __chunkname ds idx1 = __chunkname ds idx2 → idx1 = idx2.
Proof.
  unfold __chunkname. intros Heq.
  do 3 apply (inj (String.app _)) in Heq.
  apply join_dot_inj in Heq.
  - by apply (inj (fmap pretty)) in Heq.
  - apply Forall_fmap, Forall_true. intros z. apply pretty_Z_no_dot.
  - apply Forall_fmap, Forall_true. intros z. apply pretty_Z_no_dot.
Qed.

Lemma length_append x y :
  String.length (x +:+ y) = (String.length x + String.length y)%nat.
Proof.
  induction x as [|c x IH]; [done|]. rewrite app_cons. cbn. by rewrite IH.
Qed.

Lemma chunkname_not_dataset (ds : Dataset) (idx : list Z) :
  __chunkname ds idx ≠ name ds.
Proof.
  unfold __chunkname. intros Heq.
  apply (f_equal String.length) in Heq.
  rewrite !length_append in Heq. simpl in Heq. lia.
Qed.
End chunk_names.

(** X10. The object names of the chunks of one dataset: two chunk
    indexes have the same name only when they are the same index, and no
    chunk has the name of the dataset itself. *)
Theorem chunkname_unique (ds : Dataset) (idx1 idx2 : list Z) :
  (__chunkname ds idx1 = __chunkname ds idx2 ↔ idx1 = idx2)
  ∧ __chunkname ds idx1 ≠ name ds.
Proof.
  split; [split|].
  - apply chunkname_inj.
  - by intros ->.
  - apply chunkname_not_dataset.
Qed.

(** ** The chunks in the pool *)

Section chunk_store.
Implicit Types (ds : Dataset) (σ : gmap string pool_object)
  (idx q : list Z) (ls : list slice).

Lemma reads_only_mret {A} n (a : A) : reads_only n (mret a).
Proof. by intros σ1 σ2 _. Qed.

Lemma reads_only_mraise {A} n e : reads_only n (@mraise A e).
Proof. by intros σ1 σ2 _. Qed.

Lemma reads_only_lift {A} n (r : result A) : reads_only n (lift r).
Proof. by intros σ1 σ2 _. Qed.

Lemma reads_only_bind {A B} n (m : M A) (k : A → M B) :
  reads_only n m → (∀ a, reads_only n (k a)) → reads_only n (mbind_pool m k).
Proof.
  intros Hm Hk σ1 σ2 Heq. unfold mbind_pool.
  destruct (Hm σ1 σ2 Heq) as [H1 H2].
  destruct (Hm σ2 σ1 (eq_sym Heq)) as [_ H3].
  destruct (m σ1) as [r1 σ1'], (m σ2) as [r2 σ2']. cbn in *. subst.
  destruct r2 as [a|e]; [|done]. by apply Hk.
Qed.

Lemma reads_only_pool_has_chunk n : reads_only n (pool_has_chunk n).
Proof. intros σ1 σ2 Heq. unfold pool_has_chunk. cbn. by rewrite Heq. Qed.

Lemma reads_only_pool_read n : reads_only n (pool_read n).
Proof.
  intros σ1 σ2 Heq. unfold pool_read. rewrite Heq.
  by destruct (σ2 !! n).
Qed.

Lemma reads_only_pool_get_xattr n key : reads_only n (pool_get_xattr n key).
Proof.
  intros σ1 σ2 Heq. unfold pool_get_xattr. rewrite Heq.
  destruct (σ2 !! n) as [o|]; [|done]. by destruct (obj_xattrs o !! key).
Qed.

Local Ltac reads_step :=
  first
    [ apply reads_only_mret | apply reads_only_mraise | apply reads_only_lift
    | apply reads_only_pool_has_chunk | apply reads_only_pool_read
    | apply reads_only_pool_get_xattr
    | apply reads_only_bind; [|intros ?]
    | match goal with
      | |- reads_only _ (match ?x with _ => _ end) => destruct x
      | |- reads_only _ (if ?b then _ else _) => destruct b
      end ].

Lemma reads_only_DataChunk_init n : reads_only n (DataChunk_init n).
Proof.
  unfold DataChunk_init, get_shape_xattr, get_text_xattr.
  repeat reads_step.
Qed.

Lemma reads_only_DataChunk_get_data chunk :
  reads_only (dc_name chunk) (DataChunk_get_data chunk).
Proof. unfold DataChunk_get_data. repeat reads_step. Qed.

(** A read of a chunk looks at the object of the chunk only, and leaves
    the pool as it is. *)
Lemma reads_only_get_chunk_data ds idx sl :
  reads_only (__chunkname ds idx) (_get_chunk_data ds idx sl).
Proof.
  unfold _get_chunk_data, _has_chunk. apply reads_only_bind;
    [apply reads_only_pool_has_chunk|].
  intros [|]; [|apply reads_only_lift].
  unfold _get_existing_chunk_data, _get_existing_chunk.
  intros σ1 σ2 Heq. unfold mbind_pool.
  destruct (reads_only_DataChunk_init (__chunkname ds idx) σ1 σ2 Heq)
    as [H1 H2].
  destruct (reads_only_DataChunk_init (__chunkname ds idx) σ2 σ1 (eq_sym Heq))
    as [_ H3].
  destruct (DataChunk_init _ σ1) as [r1 σ1'] eqn:E1,
           (DataChunk_init _ σ2) as [r2 σ2'] eqn:E2. cbn in *. subst.
  destruct r2 as [chunk|e]; [|done].
  assert (dc_name chunk = __chunkname ds idx) as Hname.
  { unfold DataChunk_init, mbind_pool in E2.
    repeat (case_match; simplify_eq; try done).
    unfold mret in E2. by injection E2 as <- _. }
  rewrite <- Hname in Heq.
  destruct sl as [sl|].
  - unfold DataChunk_get_slices.
    apply (reads_only_bind _ _ _ (reads_only_DataChunk_get_data chunk));
      [|done]. intros ?. apply reads_only_lift.
  - by apply reads_only_DataChunk_get_data.
Qed.

Lemma get_chunk_data_local ds idx sl σ1 σ2 :
  σ1 !! __chunkname ds idx = σ2 !! __chunkname ds idx →
  (_get_chunk_data ds idx sl σ1).1 = (_get_chunk_data ds idx sl σ2).1.
Proof. intros Heq. by apply reads_only_get_chunk_data. Qed.

Lemma chunk_cell_local ds idx q σ1 σ2 :
  σ1 !! __chunkname ds idx = σ2 !! __chunkname ds idx →
  chunk_cell ds σ1 idx q = chunk_cell ds σ2 idx q.
Proof.
  intros Heq. unfold chunk_cell.
  by rewrite (get_chunk_data_local ds idx None σ1 σ2 Heq).
Qed.

(** The whole of an existing, well-formed chunk. *)
Lemma chunk_read_whole ds σ idx o :
  σ !! __chunkname ds idx = Some o → chunk_ok ds o →
  Forall (λ n, 0 ≤ n) (chunk_size ds) →
  ∃ t a,
    DataChunk_init (__chunkname ds idx) σ
    = (OK {| dc_name := __chunkname ds idx; dc_shape := chunk_size ds;
             dc_dtype := t |}, σ)
    ∧ obj_xattrs o !! "dtype" = Some (AttrText t)
    ∧ DataChunk_get_data
        {| dc_name := __chunkname ds idx; dc_shape := chunk_size ds;
           dc_dtype := t |} σ = (OK a, σ)
    ∧ _get_chunk_data ds idx None σ = (OK a, σ)
    ∧ wf_array a ∧ arr_shape a = chunk_size ds ∧ arr_dtype a = t.
Proof.
  intros Ho Hok Hsize. pose proof Hok as (Hshape & [t Ht] & elems & Hpay & Hlen).
  exists t.
  assert (DataChunk_init (__chunkname ds idx) σ
          = (OK {| dc_name := __chunkname ds idx; dc_shape := chunk_size ds;
                   dc_dtype := t |}, σ)) as Hinit.
  { unfold DataChunk_init.
    rewrite (mbind_run _ _ _ _ _ (get_shape_xattr_run _ _ _ _ _ Ho Hshape)).
    rewrite (mbind_run _ _ _ _ _ (get_text_xattr_run _ _ _ _ _ Ho Ht)).
    by rewrite (mbind_run _ _ _ _ _ (pool_has_chunk_run _ _ _ Ho)). }
  destruct (fromstring elems t (chunk_size ds)) as [a|] eqn:Hfrom.
  2:{ unfold fromstring in Hfrom.
      apply forallb_nonneg in Hsize. apply Z.leb_le in Hlen.
      by rewrite Hsize, Hlen in Hfrom. }
  assert (DataChunk_get_data
            {| dc_name := __chunkname ds idx; dc_shape := chunk_size ds;
               dc_dtype := t |} σ = (OK a, σ)) as Hget.
  { unfold DataChunk_get_data, mbind_pool, pool_read, lift.
    cbn [dc_name dc_shape dc_dtype]. by rewrite Ho, Hpay, Hfrom. }
  exists a. destruct (fromstring_wf _ _ _ _ Hfrom) as (? & ? & ?).
  split_and!; try done.
  unfold _get_chunk_data, _has_chunk.
  rewrite (mbind_run _ _ _ _ _ (pool_has_chunk_run _ _ _ Ho)).
  unfold _get_existing_chunk_data, _get_existing_chunk.
  by rewrite (mbind_run _ _ _ _ _ Hinit).
Qed.

Lemma chunk_cell_absent ds σ idx q :
  σ !! __chunkname ds idx = None →
  Forall (λ n, 0 ≤ n) (chunk_size ds) → in_box q (chunk_size ds) →
  chunk_cell ds σ idx q = fillvalue ds.
Proof.
  intros Ho Hsize Hq. unfold chunk_cell.
  destruct (get_chunk_data_absent ds σ idx None Ho) as [_ ->]. cbn [fst].
  destruct (np_full_spec (chunk_size ds) (fillvalue ds) (dtype ds) Hsize)
    as (a & Hfull & _). rewrite Hfull.
  by apply (np_full_wf _ _ _ _ Hfull).
Qed.

(** Reading a region of a chunk, existing or not: the cells of the
    chunk at the positions of the region. *)
Lemma get_chunk_data_region ds σ idx ls :
  pool_chunks_ok ds σ →
  Forall2 (λ l c, 0 ≤ start l ≤ stop l ∧ stop l ≤ c) ls (chunk_size ds) →
  ∃ v, _get_chunk_data ds idx (Some ls) σ = (OK v, σ)
    ∧ wf_array v ∧ arr_shape v = tshape ls
    ∧ ∀ q, in_box q (tshape ls) →
           arr_cells v !!! q
           = chunk_cell ds σ idx (zip_with Z.add (start <$> ls) q).
Proof.
  intros Hpool Hls.
  assert (Forall (λ n, 0 ≤ n) (chunk_size ds)) as Hsize.
  { eapply Forall2_Forall_r; [done|]. apply Forall_true. simpl. lia. }
  destruct (σ !! __chunkname ds idx) as [o|] eqn:Ho.
  - destruct (chunk_read_whole ds σ idx o Ho (Hpool _ _ Ho) Hsize)
      as (t & a & Hinit & _ & Hget & Hwhole & Ha & Hshape & _).
    rewrite <- Hshape in Hls.
    destruct (np_getitem_within a ls Hls) as (v & Hv & Hwf & Hvs & _ & Hcells).
    exists v. split_and!; try done.
    + unfold _get_chunk_data, _has_chunk.
      rewrite (mbind_run _ _ _ _ _ (pool_has_chunk_run _ _ _ Ho)).
      unfold _get_existing_chunk_data, _get_existing_chunk.
      rewrite (mbind_run _ _ _ _ _ Hinit). unfold DataChunk_get_slices.
      rewrite (mbind_run _ _ _ _ _ Hget). unfold lift. by rewrite Hv.
    + intros q Hq. rewrite (Hcells q Hq). unfold chunk_cell.
      by rewrite Hwhole.
  - destruct (get_chunk_data_absent ds σ idx (Some ls) Ho) as [_ Hget].
    assert (Forall (λ n, 0 ≤ n) (tshape ls)) as Hext.
    { unfold tshape. apply Forall_fmap. eapply Forall2_Forall_l; [done|].
      apply Forall_true. simpl. lia. }
    destruct (np_full_spec (tshape ls) (fillvalue ds) (dtype ds) Hext)
      as (v & Hfull & _).
    destruct (np_full_wf _ _ _ _ Hfull) as (Hwf & Hvs & _ & Hcells).
    exists v. rewrite Hget, Hfull. split_and!; try done.
    intros q Hq. rewrite (Hcells q Hq), chunk_cell_absent; try done.
    destruct (in_slices_shift ls q Hq) as [Hin _].
    unfold in_slices in Hin. unfold in_box.
    clear -Hin Hls. revert Hin Hls.
    generalize (zip_with Z.add (start <$> ls) q). intros p Hin.
    revert p Hin. generalize (chunk_size ds). intros sizes p Hin Hls.
    revert p Hin. induction Hls as [|l c ls sizes Hl _ IH]; intros p Hin.
    + apply Forall2_nil_inv_r in Hin as ->. constructor.
    + apply Forall2_cons_inv_r in Hin as (x & p' & Hx & Hin & ->).
      constructor; [lia|by apply IH].
Qed.
End chunk_store.

(** ** Writing chunks *)

Section chunk_write.
Implicit Types (ds : Dataset) (σ : gmap string pool_object)
  (idx q : list Z) (ls : list slice) (part : ndarray).

(** Creating a chunk from prepared contents: the object written, and
    what a read of the whole chunk then returns. *)
Lemma create_chunk_run ds σ idx data slices cdata t :
  σ !! __chunkname ds idx = None →
  Forall (λ n, 0 ≤ n) (chunk_size ds) →
  chunk_contents (Some (chunk_size ds)) (dtype ds) (Some (fillvalue ds))
    data slices = OK (cdata, chunk_size ds, t) →
  wf_array cdata →
  ∃ chunk o,
    _create_chunk ds idx data slices σ
    = (OK chunk, <[__chunkname ds idx := o]> σ)
    ∧ chunk_ok ds o
    ∧ _get_chunk_data ds idx None (<[__chunkname ds idx := o]> σ)
      = (OK (NdArray (chunk_size ds) t (arr_cells cdata)),
         <[__chunkname ds idx := o]> σ).
Proof.
  intros Ho Hsize Hc Hwf.
  pose proof (chunk_contents_shape _ _ _ _ _ _ _ _ Hc) as [_ Hshape].
  set (o := PoolObject (PBytes (tobytes cdata))
              (<["dtype" := AttrText t]>
                 (<["shape" := AttrShape (chunk_size ds)]> ∅))).
  assert (chunk_ok ds o) as Hok.
  { split_and!; [done|by eexists|]. eexists. split; [done|].
    rewrite length_tobytes; rewrite Hshape; [lia|done]. }
  set (σ' := <[__chunkname ds idx := o]> σ).
  assert (σ' !! __chunkname ds idx = Some o) as Ho' by apply lookup_insert_eq.
  destruct (chunk_read_whole ds σ' idx o Ho' Hok Hsize)
    as (t' & a & Hinit & Ht' & Hget & Hwhole & _).
  assert (t' = t) as -> by (cbn in Ht'; by simplify_map_eq).
  assert (a = NdArray (chunk_size ds) t (arr_cells cdata)) as ->.
  { unfold DataChunk_get_data, mbind_pool, pool_read, lift in Hget.
    cbn [dc_name dc_shape dc_dtype] in Hget. rewrite Ho' in Hget.
    cbn [obj_payload o] in Hget.
    rewrite <- Hshape, (fromstring_tobytes cdata t Hwf) in Hget.
    rewrite Hshape in Hget. by injection Hget as <-. }
  eexists _, o. split_and!; [|done|done].
  unfold _create_chunk, DataChunk_create.
  unfold mbind_pool at 1, lift at 1. rewrite Hc.
  unfold mbind_pool, pool_write_full, pool_set_xattr. rewrite Ho.
  rewrite !lookup_insert_eq, !insert_insert_eq.
  cbn [obj_payload obj_xattrs]. fold o. fold σ'. by rewrite Hinit.
Qed.

Lemma zip_add_zero ls q :
  Forall (λ l, start l = 0) ls → length q = length ls →
  zip_with Z.add (start <$> ls) q = q
  ∧ zip_with Z.sub q (start <$> ls) = q.
Proof.
  intros Hz. revert q. induction Hz as [|l ls Hl _ IH]; intros [|x q] Hlen;
    cbn in Hlen; try done.
  cbn [fmap list_fmap zip_with]. destruct (IH q) as [-> ->]; [lia|].
  rewrite Hl. split; f_equal; lia.
Qed.

(** Writing a region of a chunk through [_set_chunk_data]: the object
    of the chunk is replaced (or made), and the cells of the region take
    the values written. On a chunk without an object this holds for a
    region that starts at the origin of the chunk. *)
Lemma set_chunk_data_step ds σ idx ls part :
  pool_chunks_ok ds σ →
  Forall2 (λ l c, 0 ≤ start l ≤ stop l ∧ stop l ≤ c) ls (chunk_size ds) →
  wf_array part → arr_shape part = tshape ls →
  is_Some (σ !! __chunkname ds idx) ∨ Forall (λ l, start l = 0) ls →
  ∃ o,
    _set_chunk_data ds idx part (Some ls) σ
    = (OK tt, <[__chunkname ds idx := o]> σ)
    ∧ chunk_ok ds o
    ∧ ∀ q, in_box q (chunk_size ds) →
        chunk_cell ds (<[__chunkname ds idx := o]> σ) idx q
        = if decide (in_slices q ls)
          then arr_cells part !!! zip_with Z.sub q (start <$> ls)
          else chunk_cell ds σ idx q.
Proof.
  intros Hpool Hls Hpart Hpshape Hcase.
  assert (Forall (λ n, 0 ≤ n) (chunk_size ds)) as Hsize.
  { eapply Forall2_Forall_r; [done|]. apply Forall_true. simpl. lia. }
  destruct (σ !! __chunkname ds idx) as [o|] eqn:Ho.
  - (* the chunk exists: [set_slices] *)
    clear Hcase. pose proof (Hpool _ _ Ho) as Hok.
    destruct (chunk_read_whole ds σ idx o Ho Hok Hsize)
      as (t & old & Hinit & Ht & Hget & Hwhole & Hold & Hoshape & Hodtype).
    rewrite <- Hoshape in Hls.
    destruct (np_setitem_region old part ls Hold Hls Hpshape)
      as (new & Hset & Hnew & Hnshape & Hndtype & Hcells).
    set (o' := PoolObject (PBytes (tobytes new)) (obj_xattrs o)).
    assert (chunk_ok ds o') as Hok'.
    { destruct Hok as (Hs & Hd & _). split_and!; [done|done|].
      eexists. split; [done|].
      rewrite length_tobytes; rewrite Hnshape, Hoshape; [lia|done]. }
    exists o'. split_and!; [|done|].
    + unfold _set_chunk_data, _has_chunk.
      rewrite (mbind_run _ _ _ _ _ (pool_has_chunk_run _ _ _ Ho)).
      unfold _set_existing_chunk_data, _get_existing_chunk.
      rewrite (mbind_run _ _ _ _ _ Hinit). unfold DataChunk_set_slices.
      rewrite (mbind_run _ _ _ _ _ Hget).
      unfold mbind_pool at 1, lift at 1. rewrite Hset.
      unfold DataChunk_write, pool_write_full. cbn [dc_name].
      by rewrite Ho.
    + intros q Hq.
      set (σ' := <[__chunkname ds idx := o']> σ).
      assert (σ' !! __chunkname ds idx = Some o') as Ho'
        by apply lookup_insert_eq.
      destruct (chunk_read_whole ds σ' idx o' Ho' Hok' Hsize)
        as (t' & a & _ & Ht' & Hget' & Hwhole' & _).
      assert (a = NdArray (chunk_size ds) t' (arr_cells new)) as ->.
      { unfold DataChunk_get_data, mbind_pool, pool_read, lift in Hget'.
        cbn [dc_name dc_shape dc_dtype] in Hget'. rewrite Ho' in Hget'.
        cbn [obj_payload o'] in Hget'.
        rewrite <- Hoshape, <- Hnshape,
          (fromstring_tobytes new t' Hnew) in Hget'.
        rewrite Hnshape, Hoshape in Hget'. by injection Hget' as <-. }
      unfold chunk_cell. rewrite Hwhole', Hwhole. cbn [fst arr_cells].
      apply Hcells. by rewrite Hoshape.
  - (* no object: [DataChunk.create] *)
    destruct Hcase as [[? [=]]|Hzero].
    pose proof (Forall2_length _ _ _ Hls) as Hlen.
    assert (Forall2 (λ g n, 0 ≤ start g ≤ stop g ∧ stop g ≤ n) ls
              (arr_shape part)) as Hinpart.
    { rewrite Hpshape. unfold tshape. apply Forall2_fmap_r.
      apply Forall_Forall2_diag. rewrite Forall_forall in Hzero.
      apply Forall_forall. intros l Hl.
      assert (0 ≤ start l ≤ stop l) as Hb.
      { apply list_elem_of_lookup in Hl as [j Hj].
        destruct (Forall2_lookup_l _ _ _ _ _ Hls Hj) as (c & _ & ?). lia. }
      cbn. rewrite (Hzero l Hl) in Hb |- *. lia. }
    destruct (np_getitem_within part ls Hinpart)
      as (part' & Hget & Hwf' & Hshape' & Hdtype' & Hcells').
    assert (part' = part) as ->.
    { apply wf_array_eq; try done; [congruence|].
      intros q Hq. rewrite Hshape' in Hq. rewrite (Hcells' q Hq).
      destruct (zip_add_zero ls q Hzero) as [-> _]; [|done].
      unfold in_box, tshape in Hq. apply Forall2_length in Hq.
      by rewrite length_fmap in Hq. }
    assert (∀ q, in_box q (chunk_size ds) →
              chunk_cell ds σ idx q = fillvalue ds) as Hfill.
    { intros q Hq. by apply chunk_cell_absent. }
    assert (∃ cdata t,
              chunk_contents (Some (chunk_size ds)) (dtype ds)
                (Some (fillvalue ds)) (Some part) (Some ls)
              = OK (cdata, chunk_size ds, t)
              ∧ wf_array cdata
              ∧ ∀ q, in_box q (chunk_size ds) →
                  arr_cells cdata !!! q
                  = if decide (in_slices q ls)
                    then arr_cells part !!! zip_with Z.sub q (start <$> ls)
                    else fillvalue ds) as (cdata & t & Hc & Hcwf & Hccells).
    { unfold chunk_contents. rewrite Hget. cbn [rbind].
      case_bool_decide as Heqshape.
      - exists part, (arr_dtype part). rewrite Heqshape.
        split_and!; [done|done|].
        intros q Hq.
        destruct (zip_add_zero ls q Hzero) as [_ ->].
        { apply Forall2_length in Hq. lia. }
        rewrite decide_True; [done|].
        assert (in_box q (tshape ls)) as Hq' by congruence.
        destruct (in_slices_shift ls q Hq') as [Hin _].
        destruct (zip_add_zero ls q Hzero) as [Hid _].
        { apply Forall2_length in Hq. lia. }
        by rewrite Hid in Hin.
      - assert (forallb (λ '(ds0, cs), ds0 <=? cs)
                  (zip (arr_shape part) (chunk_size ds)) = true) as ->.
        { rewrite Hpshape. unfold tshape. clear -Hls.
          induction Hls as [|l c ls sizes Hl _ IH]; [done|].
          cbn [fmap list_fmap zip zip_with forallb]. rewrite IH.
          rewrite andb_true_r. apply Z.leb_le. lia. }
        destruct (np_full_spec (chunk_size ds) (fillvalue ds) (dtype ds) Hsize)
          as (c0 & Hfull & _).
        destruct (np_full_wf _ _ _ _ Hfull) as (Hc0 & Hc0s & Hc0d & Hc0c).
        rewrite <- Hc0s in Hls.
        destruct (np_setitem_region c0 part ls Hc0 Hls Hpshape)
          as (c1 & Hset & Hc1 & Hc1s & Hc1d & Hc1c).
        exists c1, (dtype ds). cbn [from_option]. unfold id.
        rewrite Hfull. cbn [rbind].
        rewrite Hset. cbn [rbind]. split_and!; [done|done|].
        intros q Hq. rewrite Hc1c by congruence.
        case_decide; [done|]. by apply Hc0c. }
    destruct (create_chunk_run ds σ idx (Some part) (Some ls) cdata t
                Ho Hsize Hc Hcwf) as (chunk & o & Hrun & Hok & Hread).
    exists o. split_and!; [|done|].
    + unfold _set_chunk_data, _has_chunk, mbind_pool at 1, pool_has_chunk.
      rewrite Ho. rewrite bool_decide_eq_false_2 by (by intros [? ?]).
      unfold mbind_pool. by rewrite Hrun.
    + intros q Hq. unfold chunk_cell at 1. rewrite Hread. cbn [fst arr_cells].
      rewrite (Hccells q Hq). case_decide; [done|]. symmetry. by apply Hfill.
Qed.
End chunk_write.

(** ** Points, chunks and records *)

Section points.
Implicit Types (ds : Dataset) (slices ls gs : list slice) (p q k : list Z).

Lemma zip_add_sub ls q :
  length q = length ls →
  zip_with Z.add (start <$> ls) (zip_with Z.sub q (start <$> ls)) = q.
Proof.
  revert q. induction ls as [|l ls IH]; intros [|x q] Hlen; cbn in Hlen;
    try done.
  cbn [fmap list_fmap zip_with]. rewrite IH by lia. f_equal. lia.
Qed.

(** One axis: the chunk and the offset of an absolute position against
    the local and global slice of a record. *)
Lemma axis_point c i (l g s : slice) x :
  0 < c → 0 ≤ start l ≤ stop l ∧ stop l ≤ c →
  start g = i * c + start l - start s → stop g = i * c + stop l - start s →
  (x / c = i →
   (start l ≤ x mod c < stop l ↔ start g ≤ x - start s < stop g))
  ∧ (start g ≤ x - start s < stop g →
     x / c = i ∧ x mod c - start l = x - start s - start g).
Proof.
  intros Hc Hl Hg1 Hg2.
  pose proof (Z.div_mod x c ltac:(lia)) as Hdm.
  pose proof (Z.mod_pos_bound x c Hc) as Hmod.
  split.
  - intros <-. split; intros ?; nia.
  - intros Hx.
    assert (x / c = i) as Hi by (apply div_unique_interval; [done|nia]).
    split; [done|]. subst i. nia.
Qed.

Lemma pick_axes_point slices extents sizes grid :
  axes_ok slices extents sizes grid →
  ∀ (idx : list nat),
    Forall2 (λ (j n : nat), (j < n)%nat) idx
      (touched_lens (zip_axes slices sizes grid)) →
    let r := pick_axes (zip_axes slices sizes grid) idx in
    ∀ p, length p = length slices →
      (zip_with Z.div p sizes = rec_index r →
       (in_slices (zip_with Z.modulo p sizes) (rec_lslice r)
        ↔ in_slices (zip_with Z.sub p (start <$> slices)) (rec_gslice r)))
      ∧ (in_slices (zip_with Z.sub p (start <$> slices)) (rec_gslice r) →
         zip_with Z.div p sizes = rec_index r
         ∧ zip_with Z.sub (zip_with Z.modulo p sizes) (start <$> rec_lslice r)
           = zip_with Z.sub (zip_with Z.sub p (start <$> slices))
               (start <$> rec_gslice r)).
Proof.
  induction 1 as [|s n c m slices extents sizes grid Hax Hs Hok IH];
    intros idx Hidx; cbv zeta; intros p Hlen.
  - destruct p; [|done]. cbn in Hidx. apply Forall2_nil_inv_r in Hidx as ->.
    cbn. split; [|done]. intros _. split; intros _; constructor.
  - destruct p as [|x p]; [done|]. cbn [length] in Hlen.
    cbn [zip_axes touched_lens fmap list_fmap] in Hidx.
    apply Forall2_cons_inv_r in Hidx as (j & idx' & Hj & Hidx' & ->).
    destruct (axis_record s c n m j Hax Hs Hj)
      as (Hi & Hl & [Hg1 Hg2] & _ & _).
    destruct (axis_point c _ _ _ s x (proj1 Hax) Hl Hg1 Hg2) as [Ha Hb].
    destruct (IH idx' Hidx' p ltac:(lia)) as [IHa IHb].
    cbn [zip_axes pick_axes rec_index rec_lslice rec_gslice zip_with
         fmap list_fmap].
    unfold in_slices in *. split.
    + intros [= Hx Hp]. rewrite !Forall2_cons.
      rewrite (Ha Hx), (IHa Hp). done.
    + rewrite !Forall2_cons. intros [Hx Hp].
      destruct (Hb Hx) as [-> ->]. destruct (IHb Hp) as [-> ->]. done.
Qed.

(** The offset of a point in its chunk lies in the chunk. *)
Lemma offset_in_box p sizes :
  Forall (λ c, 0 < c) sizes → length p = length sizes →
  in_box (zip_with Z.modulo p sizes) sizes.
Proof.
  intros Hpos. revert p. induction Hpos as [|c sizes Hc _ IH];
    intros [|x p] Hlen; cbn in Hlen; try done; [constructor|].
  cbn [zip_with]. constructor; [|apply IH; lia].
  apply Z.mod_pos_bound. lia.
Qed.

Lemma geometry_sizes_pos ds :
  geometry_ok ds → Forall (λ c, 0 < c) (chunk_size ds).
Proof.
  unfold geometry_ok. induction 1 as [|n c m ? ? ? [Hc _] _ IH];
    constructor; done.
Qed.
End points.

(** ** The content of a dataset *)

Section dataset_content.
Variable schedule : ∀ A : Type, list A → list A.
Variable np_squeeze : ndarray → list nat → result ndarray.
Hypothesis schedule_perm : ∀ (A : Type) (l : list A), schedule A l ≡ₚ l.

Implicit Types (ds : Dataset) (σ : gmap string pool_object)
  (slices : list slice) (r : chunk_record) (p q k : list Z).

(** The value a record stores in a cell of its global region is the
    stored content of the dataset at that point. *)
Lemma painted_cell_stored ds σ slices k :
  geometry_ok ds → pool_chunks_ok ds σ → in_bounds ds slices →
  in_box k (tshape slices) →
  let r := pick_axes (zip_axes slices (chunk_size ds) (chunks ds))
             (owner slices (chunk_size ds) k) in
  painted_cell ds σ (tshape slices) r k
  = stored_cell ds σ (zip_with Z.add (start <$> slices) k).
Proof.
  intros Hgeo Hpool Hb Hk r.
  destruct (in_bounds_lengths ds slices Hgeo Hb) as [Hlen Hext].
  destruct (iterator_record_of_point ds slices Hgeo Hb) as (Hrec & Hcover).
  destruct (Hcover k Hk) as (Hr & Hkr & _). fold r in Hr, Hkr.
  destruct (Hrec r Hr) as [_ Hagree].
  destruct (agree_ready ds slices r Hlen Hagree) as (Hl & Hg & Hlg).
  destruct (get_chunk_data_region ds σ (rec_index r) (rec_lslice r) Hpool Hl)
    as (v & Hget & Hv & Hvs & Hcells).
  unfold painted_cell. rewrite Hget. cbn [fst].
  rewrite (selection_within _ _ Hg), fst_selection_within.
  destruct (in_slices_unshift _ _ Hkr) as [Hq _].
  rewrite broadcast_index_in_box by (by rewrite Hvs, Hlg).
  rewrite Hcells by (by rewrite Hlg).
  pose proof (axes_ok_intro ds slices Hgeo Hb) as Hok.
  pose proof (owner_valid _ _ _ _ k Hok Hk) as Hidx.
  set (p := zip_with Z.add (start <$> slices) k).
  destruct (in_slices_shift slices k Hk) as [Hp Hpk]. fold p in Hp, Hpk.
  assert (length p = length slices) as Hplen.
  { apply Forall2_length in Hp. done. }
  destruct (pick_axes_point _ _ _ _ Hok _ Hidx p Hplen) as [_ Hpoint].
  fold r in Hpoint. rewrite Hpk in Hpoint.
  destruct (Hpoint Hkr) as [Hchunk Hoff].
  unfold stored_cell, chunk_of, offset_in_chunk. rewrite Hchunk, <- Hoff.
  rewrite zip_add_sub; [done|].
  rewrite length_zip_with, Hplen, <- Hlen, Nat.min_id.
  apply Forall2_length in Hl. lia.
Qed.

(** Running the tasks of the records of a request, in any order, on an
    output of the requested extents filled with anything: every cell
    ends with the stored content at its point. *)
Lemma getitem_fold ds σ slices init order :
  geometry_ok ds → pool_chunks_ok ds σ → in_bounds ds slices →
  order ≡ₚ _get_chunk_slice_iterator ds slices →
  ∃ out0 out,
    np_full (tshape slices) init (dtype ds) = OK out0
    ∧ mfold (_get_chunk_data_parallel ds) out0 order σ = (OK out, σ)
    ∧ wf_array out ∧ arr_shape out = tshape slices
    ∧ arr_dtype out = dtype ds
    ∧ ∀ k, in_box k (tshape slices) →
           arr_cells out !!! k
           = stored_cell ds σ (zip_with Z.add (start <$> slices) k).
Proof.
  intros Hgeo Hpool Hb Horder.
  destruct (in_bounds_lengths ds slices Hgeo Hb) as [Hlen Hext].
  destruct (iterator_record_of_point ds slices Hgeo Hb) as (Hrec & Hcover).
  assert (∀ r, r ∈ order → record_ready ds (tshape slices) r) as Hready.
  { intros r Hr. rewrite Horder in Hr. apply agree_ready; [done|].
    by apply Hrec. }
  destruct (np_full_spec (tshape slices) init (dtype ds) Hext)
    as (out0 & Hfull & Hshape0 & Hdtype0 & Hcells0).
  destruct (mfold_paint ds σ _ order out0 Hpool Hready Hshape0)
    as (out & Hfold & Hshape & Hdtype & Hcells).
  exists out0, out. split_and!; try done; [|congruence|].
  - split; [by rewrite Hshape|]. intros k.
    rewrite Hcells, fmap_is_Some, Hcells0, Hshape.
    case_decide; split; try done; by intros [? ?].
  - intros k Hk. apply lookup_total_correct.
    rewrite Hcells, Hcells0, decide_True by done. cbn. f_equal.
    rewrite <- (painted_cell_stored ds σ slices k Hgeo Hpool Hb Hk).
    destruct (Hcover k Hk) as (Hr & Hkr & Honly).
    assert (∀ r', r' ∈ order →
              in_selection k (selection (rec_gslice r') (tshape slices)) = true
              ↔ in_slices k (rec_gslice r')) as Hsel.
    { intros r' Hr'. destruct (Hready r' Hr') as (_ & Hg & _).
      by rewrite (selection_within _ _ Hg), in_selection_slices. }
    apply paint_unique.
    + by rewrite Horder.
    + apply Hsel; [by rewrite Horder|done].
    + intros r' Hr' Hk'. apply Honly; [by rewrite <- Horder|].
      by apply Hsel.
Qed.

(** Reading a region: both paths return the stored content of the
    region and leave the pool as it is; the parallel path needs a
    region that holds a point. *)
Lemma getitem_cells ds σ ix slices squeeze_axis :
  geometry_ok ds → pool_chunks_ok ds σ →
  _process_slices ds ix true = OK (slices, squeeze_axis) →
  in_bounds ds slices → njobs ds ≠ Some 0 →
  sequential ds = true ∨ nonempty_region slices →
  ∃ out,
    __getitem__ schedule np_squeeze ds ix σ
    = (match squeeze_axis with
       | Some (ax :: axes) => np_squeeze out (ax :: axes)
       | _ => OK out
       end, σ)
    ∧ wf_array out ∧ arr_shape out = tshape slices
    ∧ arr_dtype out = dtype ds
    ∧ ∀ k, in_box k (tshape slices) →
           arr_cells out !!! k
           = stored_cell ds σ (zip_with Z.add (start <$> slices) k).
Proof.
  intros Hgeo Hpool Hproc Hb Hjobs Hstage.
  assert (∀ (out' : ndarray),
            match squeeze_axis with
            | Some (ax :: axes) => lift (np_squeeze out' (ax :: axes))
            | _ => mret out'
            end σ
            = (match squeeze_axis with
               | Some (ax :: axes) => np_squeeze out' (ax :: axes)
               | _ => OK out'
               end, σ)) as Hfinish.
  { intros out'. by destruct squeeze_axis as [[|? ?]|]. }
  unfold __getitem__.
  rewrite (mbind_run _ _ (OK (slices, squeeze_axis), σ).2 (slices, squeeze_axis) σ)
    by (unfold lift; by rewrite Hproc).
  cbn [snd]. destruct (sequential ds) eqn:Hseq.
  - destruct (getitem_fold ds σ slices (-1) _ Hgeo Hpool Hb (reflexivity _))
      as (out0 & out & Hfull & Hfold & Hout).
    exists out. split; [|done].
    unfold mbind_pool at 1. unfold mbind_pool at 1. unfold lift at 1.
    rewrite Hfull, Hfold. apply Hfinish.
  - destruct (getitem_fold ds σ slices 0 _ Hgeo Hpool Hb
                (schedule_perm _ (_get_chunk_slice_iterator ds slices)))
      as (out0 & out & Hfull & Hfold & Hout).
    exists out. split; [|done].
    unfold mbind_pool at 1. unfold mbind_pool at 1.
    destruct Hstage as [|Hne]; [done|].
    unfold lift at 1, _make_temporary_memmap, np_memmap_new.
    rewrite (prod_tshape_nonempty slices (in_bounds_ordered ds slices Hb)).
    rewrite bool_decide_eq_false_2 by (intros Hc; by apply Hc).
    rewrite Hfull.
    unfold mbind_pool at 1, Parallel.
    destruct (njobs ds) as [[|n|n]|]; try done; cbn [mret];
      rewrite Hfold; apply Hfinish.
Qed.
End dataset_content.

(** ** Writing a region *)

Section dataset_write.
Variable schedule : ∀ A : Type, list A → list A.
Hypothesis schedule_perm : ∀ (A : Type) (l : list A), schedule A l ≡ₚ l.

Implicit Types (ds : Dataset) (σ : gmap string pool_object)
  (slices : list slice) (r : chunk_record) (p q k : list Z)
  (values : ndarray).

Lemma NoDup_fmap_elem_inj {A B} (f : A → B) (l : list A) x y :
  NoDup (f <$> l) → x ∈ l → y ∈ l → f x = f y → x = y.
Proof.
  intros Hnd [i Hi]%list_elem_of_lookup [j Hj]%list_elem_of_lookup Heq.
  assert (i = j) as ->; [|congruence].
  eapply NoDup_lookup; [done| |]; rewrite list_lookup_fmap.
  - by rewrite Hi.
  - rewrite Hj. cbn. by rewrite Heq.
Qed.

Lemma NoDup_record_indexes ds slices order :
  order ≡ₚ _get_chunk_slice_iterator ds slices →
  NoDup (rec_index <$> order).
Proof.
  intros ->. unfold _get_chunk_slice_iterator. fold touched_lens.
  rewrite <- list_fmap_compose.
  apply NoDup_fmap_2_strong; [|apply NoDup_ndindex].
  intros idx1 idx2 H1%elem_of_ndindex H2%elem_of_ndindex Heq.
  by eapply pick_axes_index_inj.
Qed.

Lemma insert_chunks_ok ds σ idx o :
  pool_chunks_ok ds σ → chunk_ok ds o →
  pool_chunks_ok ds (<[__chunkname ds idx := o]> σ).
Proof.
  intros Hpool Hok idx' o'.
  destruct (decide (__chunkname ds idx = __chunkname ds idx')) as [<-|Hne].
  - rewrite lookup_insert_eq. by intros [= <-].
  - rewrite lookup_insert_ne by done. apply Hpool.
Qed.

(** The loop of [__setitem__] over records with pairwise different
    chunks, each of which can take its write. *)
Lemma setitem_loop ds values records σ :
  pool_chunks_ok ds σ → wf_array values →
  NoDup (rec_index <$> records) →
  (∀ r, r ∈ records →
        record_ready ds (arr_shape values) r ∧ writable ds σ r) →
  ∃ σ',
    mfor records (_set_chunk_data_parallel ds values) σ = (OK tt, σ')
    ∧ pool_chunks_ok ds σ'
    ∧ (∀ n, (∀ r, r ∈ records → n ≠ __chunkname ds (rec_index r)) →
            σ' !! n = σ !! n)
    ∧ ∀ r q, r ∈ records → in_box q (chunk_size ds) →
        chunk_cell ds σ' (rec_index r) q
        = if decide (in_slices q (rec_lslice r))
          then arr_cells values
                 !!! zip_with Z.add (start <$> rec_gslice r)
                       (zip_with Z.sub q (start <$> rec_lslice r))
          else chunk_cell ds σ (rec_index r) q.
Proof.
  intros Hpool Hvalues. revert σ Hpool.
  induction records as [|r records IH]; intros σ Hpool Hnd Hall.
  - exists σ. split_and!; try done. intros r q Hr. by apply elem_of_nil in Hr.
  - cbn [fmap list_fmap] in Hnd. apply NoDup_cons in Hnd as [Hnotin Hnd].
    destruct (Hall r) as [(Hl & Hg & Hlg) Hw]; [by left|].
    destruct (np_getitem_within values (rec_gslice r) Hg)
      as (part & Hget & Hpart & Hpshape & _ & Hpcells).
    rewrite <- Hlg in Hpshape.
    destruct (set_chunk_data_step ds σ (rec_index r) (rec_lslice r) part
                Hpool Hl Hpart Hpshape Hw) as (o & Hrun & Hok & Hcells).
    set (σ1 := <[__chunkname ds (rec_index r) := o]> σ) in *.
    assert (pool_chunks_ok ds σ1) as Hpool1 by (by apply insert_chunks_ok).
    destruct (IH σ1 Hpool1 Hnd) as (σ' & Hrest & Hpool' & Hframe & Hcells').
    { intros r' Hr'. destruct (Hall r') as [Hready Hw']; [by right|].
      split; [done|]. destruct Hw' as [Hex|Hz]; [left|by right].
      unfold σ1.
      destruct (decide (__chunkname ds (rec_index r)
                        = __chunkname ds (rec_index r'))) as [<-|Hne].
      - rewrite lookup_insert_eq. by eexists.
      - by rewrite lookup_insert_ne. }
    assert (∀ r', r' ∈ records →
              __chunkname ds (rec_index r) ≠ __chunkname ds (rec_index r'))
      as Hnames.
    { intros r' Hr' Heq%chunkname_inj. apply Hnotin.
      rewrite Heq. apply list_elem_of_fmap. by exists r'. }
    exists σ'. split_and!; [|done| |].
    + cbn [mfor]. unfold mbind_pool at 1.
      unfold _set_chunk_data_parallel at 1, mbind_pool at 1, lift at 1.
      by rewrite Hget, Hrun.
    + intros n Hn. rewrite Hframe.
      * unfold σ1. rewrite lookup_insert_ne; [done|].
        intros Heq. by apply (Hn r); [left|].
      * intros r' Hr'. apply Hn. by right.
    + intros r0 q [->|Hr0]%elem_of_cons Hq.
      * rewrite (chunk_cell_local ds (rec_index r) q σ' σ1)
          by (apply Hframe; intros r' Hr'; by apply Hnames).
        rewrite (Hcells q Hq). case_decide as Hin; [|done].
        apply Hpcells. rewrite <- Hlg. by apply in_slices_unshift.
      * rewrite (Hcells' r0 q Hr0 Hq). case_decide; [done|].
        apply chunk_cell_local. unfold σ1. rewrite lookup_insert_ne; [done|].
        by apply Hnames.
Qed.

Lemma in_slices_iff_box slices p :
  length p = length slices →
  in_slices p slices
  ↔ in_box (zip_with Z.sub p (start <$> slices)) (tshape slices).
Proof.
  intros Hlen. split.
  - apply in_slices_unshift.
  - intros Hbox. destruct (in_slices_shift slices _ Hbox) as [Hin _].
    by rewrite zip_add_sub in Hin.
Qed.


(** Writing a region: the stored content takes the values inside the
    region and stays as it was outside. *)
Lemma setitem_cells ds σ ix slices sq values :
  geometry_ok ds → pool_chunks_ok ds σ →
  _process_slices ds ix false = OK (slices, sq) → in_bounds ds slices →
  read_only ds = false → njobs ds ≠ Some 0 →
  wf_array values → arr_shape values = tshape slices →
  (∀ r, r ∈ _get_chunk_slice_iterator ds slices → writable ds σ r) →
  ∃ σ',
    __setitem__ schedule ds ix values σ = (OK tt, σ')
    ∧ pool_chunks_ok ds σ'
    ∧ (∀ n, (∀ idx, n ≠ __chunkname ds idx) → σ' !! n = σ !! n)
    ∧ ∀ p, length p = ndim ds →
        stored_cell ds σ' p
        = if decide (in_slices p slices)
          then arr_cells values !!! zip_with Z.sub p (start <$> slices)
          else stored_cell ds σ p.
Proof.
  intros Hgeo Hpool Hproc Hb Hrw Hjobs Hvalues Hvshape Hwritable.
  destruct (in_bounds_lengths ds slices Hgeo Hb) as [Hlen Hext].
  pose proof (geometry_sizes_pos ds Hgeo) as Hpos.
  pose proof (axes_ok_intro ds slices Hgeo Hb) as Hok.
  pose proof (pick_axes_spec _ _ _ _ Hok) as Hpick.
  destruct (iterator_record_of_point ds slices Hgeo Hb) as (Hrec & Hcover).
  set (records := _get_chunk_slice_iterator ds slices) in *.
  assert (length slices = ndim ds) as Hrank.
  { apply Forall2_length in Hb. done. }
  assert (∃ order, order ≡ₚ records ∧
            __setitem__ schedule ds ix values σ
            = mfor order (_set_chunk_data_parallel ds values) σ)
    as (order & Horder & ->).
  { unfold __setitem__. rewrite Hrw.
    rewrite (mbind_run _ _ (OK (slices, sq), σ).2 (slices, sq) σ)
      by (unfold lift; by rewrite Hproc).
    cbn [snd]. fold records. destruct (sequential ds).
    - by exists records.
    - exists (schedule _ records). split; [apply schedule_perm|].
      unfold mbind_pool, Parallel.
      by destruct (njobs ds) as [[|n|n]|]. }
  assert (∀ r, r ∈ order ↔ r ∈ records) as Hmem
    by (intros r; by rewrite Horder).
  destruct (setitem_loop ds values order σ Hpool Hvalues
              (NoDup_record_indexes ds slices order Horder))
    as (σ' & Hrun & Hpool' & Hframe & Hcells).
  { intros r Hr%Hmem. split; [|by apply Hwritable].
    rewrite Hvshape. apply agree_ready; [done|]. by apply Hrec. }
  exists σ'. split_and!; [done|done| |].
  { intros n Hn. apply Hframe. intros r _. apply Hn. }
  intros p Hp.
  assert (length p = length slices) as Hplen by lia.
  assert (in_box (offset_in_chunk ds p) (chunk_size ds)) as Hq.
  { apply offset_in_box; [done|lia]. }
  set (k := zip_with Z.sub p (start <$> slices)).
  assert (∀ r, r ∈ records → chunk_of ds p = rec_index r →
            (in_slices (offset_in_chunk ds p) (rec_lslice r)
             ↔ in_slices k (rec_gslice r))) as Hlocal.
  { intros r (idx & -> & Hidx%elem_of_ndindex)%list_elem_of_fmap Hchunk.
    by apply (pick_axes_point _ _ _ _ Hok idx Hidx p Hplen). }
  assert (in_slices p slices →
            ∃ r, r ∈ records ∧ in_slices k (rec_gslice r)
                 ∧ chunk_of ds p = rec_index r
                 ∧ zip_with Z.add (start <$> rec_gslice r)
                     (zip_with Z.sub (offset_in_chunk ds p)
                        (start <$> rec_lslice r)) = k) as Hinside.
  { intros Hin%in_slices_iff_box; [|done]. fold k in Hin.
    destruct (Hcover k Hin) as (Hr & Hkr & _).
    pose proof (owner_valid _ _ _ _ k Hok Hin) as Hidx.
    eexists. split_and!; [exact Hr|exact Hkr| |].
    - by apply (pick_axes_point _ _ _ _ Hok _ Hidx p Hplen).
    - destruct (pick_axes_point _ _ _ _ Hok _ Hidx p Hplen) as [_ Hpt].
      destruct (Hpt Hkr) as [_ Hoff]. unfold offset_in_chunk.
      rewrite Hoff. fold k. apply zip_add_sub.
      apply Forall2_length in Hkr. done. }
  unfold stored_cell.
  destruct (decide (chunk_of ds p ∈ rec_index <$> records)) as [Hin|Hout].
  - apply list_elem_of_fmap in Hin as (r & Hchunk & Hr).
    rewrite Hchunk, (Hcells r _ (proj2 (Hmem r) Hr) Hq).
    destruct (decide (in_slices (offset_in_chunk ds p) (rec_lslice r)))
      as [Hl|Hl].
    + apply (Hlocal r Hr Hchunk) in Hl as Hg.
      assert (in_slices p slices) as Hps.
      { apply in_slices_iff_box; [done|]. fold k.
        apply list_elem_of_fmap in Hr as (idx & -> & Hidx%elem_of_ndindex).
        by apply (Hpick idx Hidx). }
      rewrite decide_True by done.
      destruct (Hinside Hps) as (r' & Hr' & Hg' & Hchunk' & Hidx').
      assert (r' = r) as ->.
      { eapply (NoDup_fmap_elem_inj rec_index records); try done.
        - by apply (NoDup_record_indexes ds slices).
        - congruence. }
      by rewrite Hidx'.
    + rewrite decide_False; [done|]. intros Hps.
      destruct (Hinside Hps) as (r' & Hr' & Hg' & Hchunk' & _).
      assert (r' = r) as ->.
      { eapply (NoDup_fmap_elem_inj rec_index records); try done.
        - by apply (NoDup_record_indexes ds slices).
        - congruence. }
      apply Hl. by apply (Hlocal r Hr Hchunk).
  - rewrite decide_False.
    + apply chunk_cell_local, Hframe. intros r Hr%Hmem Heq%chunkname_inj.
      apply Hout. rewrite Heq. apply list_elem_of_fmap. by exists r.
    + intros Hps. destruct (Hinside Hps) as (r & Hr & _ & Hchunk & _).
      apply Hout. rewrite Hchunk. apply list_elem_of_fmap. by exists r.
Qed.
End dataset_write.







(** X14. A dataset none of whose chunks has an object reads as its fill
    value: every in-bounds region, read sequentially, or in parallel
    when it holds a point, is the array [np.full] makes of the fill
    value (passed to [np.squeeze] with the integer axes, when there are
    any), and the read allocates nothing. *)
Theorem getitem_unwritten_dataset
    (schedule : ∀ A : Type, list A → list A)
    (np_squeeze : ndarray → list nat → result ndarray)
    (ds : Dataset) (σ : gmap string pool_object) (ix : index)
    (slices : list slice) (squeeze_axis : option (list nat)) :
  (∀ (A : Type) (l : list A), schedule A l ≡ₚ l) →
  geometry_ok ds → no_chunks ds σ →
  _process_slices ds ix true = OK (slices, squeeze_axis) →
  in_bounds ds slices → njobs ds ≠ Some 0 →
  sequential ds = true ∨ nonempty_region slices →
  ∃ out,
    np_full (tshape slices) (fillvalue ds) (dtype ds) = OK out
    ∧ __getitem__ schedule np_squeeze ds ix σ
      = (match squeeze_axis with
         | Some (ax :: axes) => np_squeeze out (ax :: axes)
         | _ => OK out
         end, σ).
Proof.
  intros Hperm Hgeo Hnone Hproc Hb Hjobs Hstage.
  assert (pool_chunks_ok ds σ) as Hpool.
  { intros idx o Ho. by rewrite Hnone in Ho. }
  destruct (getitem_cells schedule np_squeeze Hperm ds σ ix slices
              squeeze_axis Hgeo Hpool Hproc Hb Hjobs Hstage)
    as (out & Hget & Hout & Hoshape & Hodtype & Hcells).
  destruct (in_bounds_lengths ds slices Hgeo Hb) as [Hlen Hext].
  destruct (np_full_spec (tshape slices) (fillvalue ds) (dtype ds) Hext)
    as (full & Hfull & _).
  destruct (np_full_wf _ _ _ _ Hfull) as (Hfwf & Hfs & Hfd & Hfc).
  exists full. split; [done|].
  assert (out = full) as <-; [|done].
  apply wf_array_eq; try done; [congruence|congruence|].
  intros k Hk. rewrite Hoshape in Hk. rewrite (Hcells k Hk), (Hfc k Hk).
  unfold stored_cell. apply chunk_cell_absent; [apply Hnone| |].
  - by apply geometry_chunk_size_nonneg.
  - apply offset_in_box; [by apply geometry_sizes_pos|].
    destruct (in_slices_shift slices k Hk) as [Hin _].
    apply Forall2_length in Hin. lia.
Qed.

Lemma getitem_unwritten_dataset_witness :
  let ds := {| name := "d"; shape := [10; 7]; dtype := "int32";
               fillvalue := 7; chunks := [4; 2]; chunk_size := [3; 4];
               njobs := Some 4; read_only := false |} in
  ∃ out,
    np_full (tshape [Slice 2 9; Slice 5 6]) (fillvalue ds) (dtype ds) = OK out
    ∧ __getitem__ (λ A, reverse) squeeze_axes ds
        (ISeq [ESlice (Some 2) (Some 9) None; EInt 5]) ∅
      = (squeeze_axes out [1%nat], ∅).
Proof.
  intros ds.
  apply (getitem_unwritten_dataset (λ A, reverse) squeeze_axes ds ∅
           (ISeq [ESlice (Some 2) (Some 9) None; EInt 5])
           [Slice 2 9; Slice 5 6] (Some [1%nat])).
  - intros A l. apply reverse_Permutation.
  - repeat constructor; simpl; lia.
  - intros idx. apply lookup_empty.
  - reflexivity.
  - repeat constructor; simpl; lia.
  - discriminate.
  - right. repeat constructor; simpl; lia.
Defined.

Section whole_write.
Implicit Types (ds : Dataset) (σ : gmap string pool_object).

Lemma lchunk_bounds_start ds j idx sizes ls :
  lchunk_bounds_from ds j idx sizes = OK ls → Forall (λ l, start l = 0) ls.
Proof.
  revert j sizes ls. induction idx as [|i idx IH]; intros j [|c sizes] ls;
    cbn [lchunk_bounds_from]; try (intros [= <-]; constructor).
  destruct (shape_at ds j) as [n|]; cbn [rbind]; [|done].
  destruct (lchunk_bounds_from ds (S j) idx sizes) as [rest|] eqn:Hrest;
    cbn [rbind]; [|done].
  intros [= <-]. constructor; [done|]. by eapply IH.
Qed.

Lemma whole_in_bounds ds :
  Forall (λ n, 0 < n) (shape ds) →
  in_bounds ds (whole ds) ∧ tshape (whole ds) = shape ds
  ∧ Forall (λ l, start l = 0) (whole ds).
Proof.
  unfold in_bounds, whole, tshape. generalize (shape ds).
  induction 1 as [|n extents Hn _ (IH1 & IH2 & IH3)];
    [split_and!; constructor|].
  cbn [fmap list_fmap]. split_and!.
  - constructor; [|done]. unfold slice_in_bounds. cbn. lia.
  - rewrite IH2. f_equal. cbn. lia.
  - by constructor.
Qed.

(** Every record of the request for the whole dataset enters its chunk
    at the origin. *)
Lemma whole_writable ds σ r :
  geometry_ok ds → Forall (λ n, 0 < n) (shape ds) →
  r ∈ _get_chunk_slice_iterator ds (whole ds) → writable ds σ r.
Proof.
  intros Hgeo Hpos (idx & -> & Hidx%elem_of_ndindex)%list_elem_of_fmap.
  right.
  destruct (whole_records _ _ _ Hgeo Hpos ds 0%nat idx eq_refl Hidx)
    as [Hl _].
  by eapply lchunk_bounds_start.
Qed.
End whole_write.

(** X15. Assigning the whole of a dataset that has no chunk objects,
    then reading any in-bounds region, sequentially, or in parallel
    when the region holds a point: the read returns that region of the
    array assigned (passed to [np.squeeze] with the integer axes, when
    there are any). *)
Theorem write_whole_read_region
    (schedule : ∀ A : Type, list A → list A)
    (np_squeeze : ndarray → list nat → result ndarray)
    (ds : Dataset) (σ : gmap string pool_object) (values : ndarray)
    (ixw ix : index) (sqw squeeze_axis : option (list nat))
    (slices : list slice) :
  (∀ (A : Type) (l : list A), schedule A l ≡ₚ l) →
  geometry_ok ds → Forall (λ n, 0 < n) (shape ds) → no_chunks ds σ →
  read_only ds = false → njobs ds ≠ Some 0 →
  wf_array values → arr_shape values = shape ds →
  arr_dtype values = dtype ds →
  _process_slices ds ixw false = OK (whole ds, sqw) →
  _process_slices ds ix true = OK (slices, squeeze_axis) →
  in_bounds ds slices →
  sequential ds = true ∨ nonempty_region slices →
  ∃ σ' out,
    __setitem__ schedule ds ixw values σ = (OK tt, σ')
    ∧ np_getitem values slices = OK out
    ∧ __getitem__ schedule np_squeeze ds ix σ'
      = (match squeeze_axis with
         | Some (ax :: axes) => np_squeeze out (ax :: axes)
         | _ => OK out
         end, σ').
Proof.
  intros Hperm Hgeo Hpos Hnone Hrw Hjobs Hvalues Hvshape Hvdtype Hprocw
    Hproc Hb Hstage.
  destruct (whole_in_bounds ds Hpos) as (Hbw & Htw & Hzw).
  assert (pool_chunks_ok ds σ) as Hpool.
  { intros idx o Ho. by rewrite Hnone in Ho. }
  destruct (setitem_cells schedule Hperm ds σ ixw (whole ds) sqw values
              Hgeo Hpool Hprocw Hbw Hrw Hjobs Hvalues)
    as (σ' & Hset & Hpool' & _ & Hstored).
  { by rewrite Htw. }
  { intros r Hr. by apply whole_writable. }
  destruct (getitem_cells schedule np_squeeze Hperm ds σ' ix slices
              squeeze_axis Hgeo Hpool' Hproc Hb Hjobs Hstage)
    as (out & Hget & Hout & Hoshape & Hodtype & Hcells).
  assert (Forall2 (λ g n, 0 ≤ start g ≤ stop g ∧ stop g ≤ n) slices
            (arr_shape values)) as Hin.
  { rewrite Hvshape. eapply Forall2_impl; [exact Hb|].
    intros s n [? ?]. lia. }
  destruct (np_getitem_within values slices Hin)
    as (part & Hpart & Hpwf & Hpshape & Hpdtype & Hpcells).
  exists σ', part. split_and!; [done|done|].
  assert (out = part) as <-; [|done].
  apply wf_array_eq; try done; [congruence|congruence|].
  intros k Hk. rewrite Hoshape in Hk.
  rewrite (Hcells k Hk), (Hpcells k Hk).
  destruct (in_slices_shift slices k Hk) as [Hp _].
  set (p := zip_with Z.add (start <$> slices) k) in *.
  assert (length p = ndim ds) as Hplen.
  { apply Forall2_length in Hp. apply Forall2_length in Hb.
    unfold ndim. lia. }
  rewrite (Hstored p Hplen).
  destruct (zip_add_zero (whole ds) p Hzw) as [_ ->].
  { unfold whole. rewrite length_fmap. done. }
  rewrite decide_True; [done|].
  unfold in_slices, whole. apply Forall2_fmap_r.
  unfold in_slices in Hp. unfold in_bounds in Hb.
  clear -Hp Hb. revert Hb. generalize (shape ds).
  induction Hp as [|x s p slices Hx _ IH]; intros extents Hb.
  - apply Forall2_nil_inv_l in Hb as ->. constructor.
  - apply Forall2_cons_inv_l in Hb as (n & extents' & [Hs1 Hs2] & Hb & ->).
    constructor; [cbn; lia|by apply IH].
Qed.

Lemma write_whole_read_region_witness :
  let ds := {| name := "d"; shape := [10]; dtype := "int32";
               fillvalue := 7; chunks := [4]; chunk_size := [3];
               njobs := Some 2; read_only := false |} in
  let values := NdArray [10] "int32" (tabulate [10] (λ q, 2 * q !!! 0%nat)) in
  ∃ σ' out,
    __setitem__ (λ A, reverse) ds (IOne EEllipsis) values ∅ = (OK tt, σ')
    ∧ np_getitem values [Slice 2 9] = OK out
    ∧ __getitem__ (λ A, reverse) squeeze_axes ds
        (ISeq [ESlice (Some 2) (Some 9) None]) σ' = (OK out, σ').
Proof.
  intros ds values.
  apply (write_whole_read_region (λ A, reverse) squeeze_axes ds ∅ values
           (IOne EEllipsis) (ISeq [ESlice (Some 2) (Some 9) None])
           None (Some []) [Slice 2 9]).
  - intros A l. apply reverse_Permutation.
  - repeat constructor; simpl; lia.
  - repeat constructor.
  - intros idx. apply lookup_empty.
  - reflexivity.
  - discriminate.
  - apply wf_tabulate. repeat constructor. lia.
  - reflexivity.
  - reflexivity.
  - reflexivity.
  - reflexivity.
  - repeat constructor; simpl; lia.
  - right. repeat constructor; simpl; lia.
Defined.

(** ** Chunk objects *)

(** X16. [DataChunk.set_data] followed by [DataChunk.get_data] returns
    the array that was set, and no other object of the pool changes;
    an array of another shape is refused with the shape error and the
    pool is left as it was. *)
Theorem DataChunk_set_get_data (chunk : DataChunk) (data : ndarray)
    (σ : gmap string pool_object) :
  wf_array data → arr_dtype data = dc_dtype chunk →
  (arr_shape data = dc_shape chunk →
   ∃ σ', DataChunk_set_data chunk data σ = (OK tt, σ')
     ∧ DataChunk_get_data chunk σ' = (OK data, σ')
     ∧ ∀ n, n ≠ dc_name chunk → σ' !! n = σ !! n)
  ∧ (arr_shape data ≠ dc_shape chunk →
     DataChunk_set_data chunk data σ
     = (Raise (DatasetException ChunkShapeMismatch), σ)).
Proof.
  intros Hwf Hdtype. unfold DataChunk_set_data. split; intros Hshape.
  - rewrite bool_decide_eq_true_2 by done.
    unfold DataChunk_write, pool_write_full.
    eexists. split; [reflexivity|]. split.
    + unfold DataChunk_get_data, mbind_pool, pool_read, lift.
      rewrite lookup_insert_eq. cbn [obj_payload].
      rewrite <- Hshape, <- Hdtype, (fromstring_tobytes data _ Hwf).
      by destruct data.
    + intros n Hn. by rewrite lookup_insert_ne.
  - by rewrite bool_decide_eq_false_2.
Qed.

Lemma DataChunk_set_get_data_witness :
  let chunk := {| dc_name := "DataChunk.d.0"; dc_shape := [2; 2];
                  dc_dtype := "int32" |} in
  let data := NdArray [2; 2] "int32"
                (tabulate [2; 2] (λ q, q !!! 0%nat + 10 * q !!! 1%nat)) in
  (arr_shape data = dc_shape chunk →
   ∃ σ', DataChunk_set_data chunk data ∅ = (OK tt, σ')
     ∧ DataChunk_get_data chunk σ' = (OK data, σ')
     ∧ ∀ n, n ≠ dc_name chunk → σ' !! n = (∅ : gmap string pool_object) !! n)
  ∧ (arr_shape data ≠ dc_shape chunk →
     DataChunk_set_data chunk data ∅
     = (Raise (DatasetException ChunkShapeMismatch), ∅)).
Proof.
  intros chunk data. apply (DataChunk_set_get_data chunk data ∅).
  - apply wf_tabulate. repeat constructor; lia.
  - reflexivity.
Defined.

Section chunk_api.
Implicit Types (ds : Dataset) (σ : gmap string pool_object).

(** The first write of a whole chunk makes its object. *)
Lemma set_chunk_data_whole_fresh ds σ idx data :
  σ !! __chunkname ds idx = None →
  wf_array data → arr_shape data = chunk_size ds →
  ∃ o, _set_chunk_data ds idx data None σ
       = (OK tt, <[__chunkname ds idx := o]> σ)
    ∧ chunk_ok ds o
    ∧ _get_chunk_data ds idx None (<[__chunkname ds idx := o]> σ)
      = (OK data, <[__chunkname ds idx := o]> σ).
Proof.
  intros Ho Hwf Hshape.
  assert (Forall (λ n, 0 ≤ n) (chunk_size ds)) as Hsize
    by (rewrite <- Hshape; apply Hwf).
  assert (chunk_contents (Some (chunk_size ds)) (dtype ds)
            (Some (fillvalue ds)) (Some data) None
          = OK (data, chunk_size ds, arr_dtype data)) as Hc.
  { unfold chunk_contents. cbn [rbind].
    rewrite bool_decide_eq_true_2 by done. by rewrite Hshape. }
  destruct (create_chunk_run ds σ idx (Some data) None data (arr_dtype data)
              Ho Hsize Hc Hwf) as (chunk & o & Hrun & Hok & Hread).
  exists o. split_and!; [|done|].
  - unfold _set_chunk_data, _has_chunk, mbind_pool at 1, pool_has_chunk.
    rewrite Ho. rewrite bool_decide_eq_false_2 by (by intros [? ?]).
    unfold mbind_pool. by rewrite Hrun.
  - rewrite Hread. rewrite <- Hshape. by destruct data.
Qed.
End chunk_api.

(** X17. The read-only flag guards item assignment only. On a
    read-only dataset [ds[ix] = values] raises the read-only error and
    leaves the pool as it was, whatever the index; the public
    [set_chunk_data] does not look at the flag: on a chunk without an
    object it writes the chunk, which then exists and reads back as the
    data given. *)
Theorem read_only_guards_setitem_only
    (schedule : ∀ A : Type, list A → list A)
    (ds : Dataset) (σ : gmap string pool_object) :
  read_only ds = true →
  (∀ ix values,
     __setitem__ schedule ds ix values σ
     = (Raise (DatasetException ReadOnlyDataset), σ))
  ∧ (∀ arg idx data,
       _transform_chunk_index ds arg = OK idx →
       σ !! __chunkname ds idx = None →
       wf_array data → arr_shape data = chunk_size ds →
       ∃ σ', set_chunk_data ds arg data None σ = (OK tt, σ')
         ∧ has_chunk ds arg σ' = (OK true, σ')
         ∧ get_chunk_data ds arg None σ' = (OK data, σ')).
Proof.
  intros Hro. split.
  - intros ix values. unfold __setitem__. by rewrite Hro.
  - intros arg idx data Harg Ho Hwf Hshape.
    destruct (set_chunk_data_whole_fresh ds σ idx data Ho Hwf Hshape)
      as (o & Hset & _ & Hget).
    eexists. split_and!.
    + unfold set_chunk_data, mbind_pool, lift. rewrite Harg. cbn.
      exact Hset.
    + unfold has_chunk, mbind_pool, lift. rewrite Harg.
      unfold _has_chunk. apply (pool_has_chunk_run _ _ o).
      apply lookup_insert_eq.
    + unfold get_chunk_data, mbind_pool, lift. rewrite Harg. cbn.
      exact Hget.
Qed.

Lemma read_only_guards_setitem_only_witness :
  let ds := {| name := "d"; shape := [10]; dtype := "int32";
               fillvalue := 7; chunks := [4]; chunk_size := [3];
               njobs := None; read_only := true |} in
  (∀ ix values,
     __setitem__ (λ A, reverse) ds ix values ∅
     = (Raise (DatasetException ReadOnlyDataset), ∅))
  ∧ (∀ arg idx data,
       _transform_chunk_index ds arg = OK idx →
       (∅ : gmap string pool_object) !! __chunkname ds idx = None →
       wf_array data → arr_shape data = chunk_size ds →
       ∃ σ', set_chunk_data ds arg data None ∅ = (OK tt, σ')
         ∧ has_chunk ds arg σ' = (OK true, σ')
         ∧ get_chunk_data ds arg None σ' = (OK data, σ')).
Proof.
  intros ds. apply (read_only_guards_setitem_only (λ A, reverse) ds ∅).
  reflexivity.
Defined.

(** ** Reads never write *)

Section reads_pure.

Lemma leaves_pool_bind {A B} (m : M A) (k : A → M B) :
  leaves_pool m → (∀ a, leaves_pool (k a)) → leaves_pool (mbind_pool m k).
Proof.
  intros Hm Hk σ. unfold mbind_pool. specialize (Hm σ).
  destruct (m σ) as [[a|e] σ']; cbn in *; subst; [apply Hk|done].
Qed.

Lemma leaves_pool_lift {A} (r : result A) : leaves_pool (lift r).
Proof. by intros σ. Qed.

Lemma leaves_pool_get_chunk_data ds idx sl :
  leaves_pool (_get_chunk_data ds idx sl).
Proof. intros σ. by apply (reads_only_get_chunk_data ds idx sl σ σ). Qed.

Lemma leaves_pool_mfold {A B} (step : B → A → M B) (acc : B) (xs : list A) :
  (∀ b x, leaves_pool (step b x)) → leaves_pool (mfold step acc xs).
Proof.
  intros Hstep. revert acc. induction xs as [|x xs IH]; intros acc; [done|].
  cbn [mfold]. apply leaves_pool_bind; [apply Hstep|]. intros b. apply IH.
Qed.
End reads_pure.

(** X18. Reading never writes. Whatever the dataset, the index and the
    pool, and whether the read succeeds or raises, [ds[ix]] and
    [get_chunk_data] leave the pool exactly as it was: a read
    materializes nothing. *)
Theorem reads_leave_pool
    (schedule : ∀ A : Type, list A → list A)
    (np_squeeze : ndarray → list nat → result ndarray)
    (ds : Dataset) (σ : gmap string pool_object) :
  (∀ ix, (__getitem__ schedule np_squeeze ds ix σ).2 = σ)
  ∧ (∀ arg slices, (get_chunk_data ds arg slices σ).2 = σ)
  ∧ (∀ arg, (has_chunk ds arg σ).2 = σ).
Proof.
  split_and!.
  - intros ix. revert σ. change (leaves_pool (__getitem__ schedule np_squeeze ds ix)).
    unfold __getitem__. apply leaves_pool_bind; [apply leaves_pool_lift|].
    intros [slices sq]. apply leaves_pool_bind.
    + assert (∀ out0 l, leaves_pool
                (mfold (_get_chunk_data_parallel ds) out0 l)) as Hfold.
      { intros out0 l. apply leaves_pool_mfold. intros b x.
        unfold _get_chunk_data_parallel. apply leaves_pool_bind;
          [apply leaves_pool_get_chunk_data|].
        intros v. apply leaves_pool_lift. }
      destruct (sequential ds).
      * apply leaves_pool_bind; [apply leaves_pool_lift|]. intros ?. apply Hfold.
      * apply leaves_pool_bind; [apply leaves_pool_lift|]. intros ?.
        apply leaves_pool_bind; [|intros ?; apply Hfold].
        unfold Parallel. by destruct (njobs ds) as [[|?|?]|].
    + intros out. destruct sq as [[|? ?]|]; try done.
  - intros arg slices. revert σ.
    change (leaves_pool (get_chunk_data ds arg slices)).
    unfold get_chunk_data. apply leaves_pool_bind; [apply leaves_pool_lift|].
    intros idx. apply leaves_pool_bind; [apply leaves_pool_lift|].
    intros sl. apply leaves_pool_get_chunk_data.
  - intros arg. revert σ. change (leaves_pool (has_chunk ds arg)).
    unfold has_chunk. apply leaves_pool_bind; [apply leaves_pool_lift|].
    intros idx. by intros σ.
Qed.

(** ** Deletion *)

Lemma np_ndindex_nonneg extents :
  Forall (λ n, 0 ≤ n) extents → np_ndindex extents = OK (points extents).
Proof.
  intros Hpos. unfold np_ndindex. apply forallb_nonneg in Hpos.
  by rewrite Hpos.
Qed.

Section deletion.
Implicit Types (ds : Dataset) (σ : gmap string pool_object).

(** Deleting one chunk: its object is gone, whether it was there or
    not. *)
Lemma delete_chunk_step ds σ idx :
  pool_chunks_ok ds σ →
  _delete_chunk ds idx σ = (OK tt, delete (__chunkname ds idx) σ).
Proof.
  intros Hpool. unfold _delete_chunk, _has_chunk.
  destruct (σ !! __chunkname ds idx) as [o|] eqn:Ho.
  - rewrite (mbind_run _ _ _ _ _ (pool_has_chunk_run _ _ _ Ho)).
    destruct (DataChunk_init_ok ds σ _ o Ho (Hpool _ _ Ho)) as [t Hinit].
    unfold _get_existing_chunk. rewrite (mbind_run _ _ _ _ _ Hinit).
    unfold DataChunk_delete, pool_remove_object. cbn [dc_name].
    by rewrite Ho.
  - unfold mbind_pool, pool_has_chunk. rewrite Ho.
    rewrite bool_decide_eq_false_2 by (by intros [? ?]).
    by rewrite delete_id.
Qed.

Lemma delete_chunks_loop ds σ (idxs : list (list Z)) :
  pool_chunks_ok ds σ →
  ∃ σ', mfor idxs (_delete_chunk ds) σ = (OK tt, σ')
    ∧ pool_chunks_ok ds σ'
    ∧ (∀ n, σ' !! n
            = if decide (n ∈ __chunkname ds <$> idxs) then None else σ !! n).
Proof.
  revert σ. induction idxs as [|idx idxs IH]; intros σ Hpool.
  - exists σ. split_and!; [done..|]. intros n.
    by rewrite decide_False by (cbn; apply not_elem_of_nil).
  - assert (pool_chunks_ok ds (delete (__chunkname ds idx) σ)) as Hpool1.
    { intros idx' o' [_ Ho']%lookup_delete_Some. by eapply Hpool. }
    destruct (IH _ Hpool1) as (σ' & Hrun & Hpool' & Hlook).
    exists σ'. split_and!; [|done|].
    + cbn [mfor]. unfold mbind_pool at 1.
      by rewrite (delete_chunk_step ds σ idx Hpool).
    + intros n. rewrite Hlook. cbn [fmap list_fmap].
      destruct (decide (n = __chunkname ds idx)) as [->|Hne].
      * rewrite (decide_True (P := _ ∈ _ :: _)) by (by left).
        case_decide; [done|]. by rewrite lookup_delete_eq.
      * rewrite lookup_delete_ne by done.
        destruct (decide (n ∈ __chunkname ds <$> idxs)) as [Hin|Hin].
        -- by rewrite decide_True by (by right).
        -- rewrite decide_False; [done|].
           by intros [?|?]%elem_of_cons.
Qed.
End deletion.

(** X19. [Dataset.delete] on a dataset whose object exists and whose
    chunk objects are well formed: with [delete_chunks] the objects of
    all chunks of the grid and the object of the dataset are gone, and
    every other object of the pool is kept; without it only the object
    of the dataset is removed and the chunk objects stay behind. *)
Theorem delete_removes_dataset (ds : Dataset) (σ : gmap string pool_object)
    (delete_chunks : bool) :
  Forall (λ m, 0 ≤ m) (chunks ds) →
  pool_chunks_ok ds σ → is_Some (σ !! name ds) →
  ∃ σ',
    Dataset_delete ds delete_chunks σ = (OK tt, σ')
    ∧ σ' !! name ds = None
    ∧ (∀ idx, σ' !! __chunkname ds idx
              = if delete_chunks && bool_decide (in_box idx (chunks ds))
                then None else σ !! __chunkname ds idx)
    ∧ (∀ n, n ≠ name ds → (∀ idx, n ≠ __chunkname ds idx) →
            σ' !! n = σ !! n).
Proof.
  intros Hgrid Hpool Hds. unfold Dataset_delete. destruct delete_chunks.
  - destruct (delete_chunks_loop ds σ (points (chunks ds)) Hpool)
      as (σ1 & Hrun & _ & Hlook).
    rewrite (np_ndindex_nonneg _ Hgrid).
    unfold mbind_pool at 2, lift at 1.
    rewrite (mbind_run _ _ _ _ _ Hrun). unfold pool_remove_object.
    assert (σ1 !! name ds = σ !! name ds) as Hsame.
    { rewrite Hlook, decide_False; [done|].
      intros (idx & Heq & _)%list_elem_of_fmap.
      by destruct (chunkname_not_dataset ds idx). }
    rewrite Hsame. destruct Hds as [o ->].
    eexists. split; [reflexivity|]. split_and!.
    + apply lookup_delete_eq.
    + intros idx. rewrite lookup_delete_ne
        by (intros Heq; by destruct (chunkname_not_dataset ds idx)).
      rewrite Hlook. cbn [andb].
      case_bool_decide as Hin; case_decide as Hin'; try done.
      * destruct Hin'. apply list_elem_of_fmap. exists idx.
        split; [done|]. by apply elem_of_points.
      * apply list_elem_of_fmap in Hin' as (idx' & Heq%chunkname_inj & Hin').
        subst idx'. by apply elem_of_points in Hin'.
    + intros n Hn Hchunk. rewrite lookup_delete_ne by done.
      rewrite Hlook, decide_False; [done|].
      intros (idx & -> & _)%list_elem_of_fmap. by destruct (Hchunk idx).
  - unfold mbind_pool, mret, pool_remove_object. destruct Hds as [o ->].
    eexists. split; [reflexivity|]. split_and!.
    + apply lookup_delete_eq.
    + intros idx. cbn [andb]. rewrite lookup_delete_ne; [done|].
      intros Heq. by destruct (chunkname_not_dataset ds idx).
    + intros n Hn _. by rewrite lookup_delete_ne.
Qed.

Lemma delete_removes_dataset_witness :
  let ds := {| name := "d"; shape := [10]; dtype := "int32";
               fillvalue := 7; chunks := [4]; chunk_size := [3];
               njobs := None; read_only := false |} in
  let stored := NdArray [3] "int32" (tabulate [3] (λ q, 10 + q !!! 0%nat)) in
  let σ : gmap string pool_object :=
    <["d" := PoolObject (PText signature) ∅]>
      (<[__chunkname ds [1] :=
           PoolObject (PBytes (tobytes stored))
             (<["dtype" := AttrText "int32"]>
                (<["shape" := AttrShape [3]]> ∅))]>
         (<["other" := PoolObject (PText "kept") ∅]> ∅)) in
  ∃ σ',
    Dataset_delete ds true σ = (OK tt, σ')
    ∧ σ' !! name ds = None
    ∧ (∀ idx, σ' !! __chunkname ds idx
              = if true && bool_decide (in_box idx (chunks ds))
                then None else σ !! __chunkname ds idx)
    ∧ (∀ n, n ≠ name ds → (∀ idx, n ≠ __chunkname ds idx) →
            σ' !! n = σ !! n).
Proof.
  intros ds stored σ. apply (delete_removes_dataset ds σ true).
  - repeat constructor; lia.
  - intros idx o Ho.
    apply lookup_insert_Some in Ho as [[Hname _]|[_ Ho]].
    { symmetry in Hname. by destruct (chunkname_not_dataset ds idx). }
    apply lookup_insert_Some in Ho as [[_ <-]|[_ Ho]].
    { split_and!; [done|by eexists|]. eexists. split; [done|]. by vm_compute. }
    apply lookup_singleton_Some in Ho as [Hname _].
    unfold __chunkname in Hname. simpl in Hname. discriminate Hname.
  - exists (PoolObject (PText signature) ∅). apply lookup_insert_eq.
Defined.

(** ** Datasets made from datasets *)

Section like.
Variable pool_njobs : option Z.
Variable schedule : ∀ A : Type, list A → list A.


Lemma create_on_sequence oname extents dt fill sizes ro nj
    (σ : gmap string pool_object) :
  σ !! oname = None → length sizes = length extents →
  ∃ ds' σ',
    create pool_njobs schedule oname (Some extents) dt fill (ChunksSeq sizes)
      None ro nj σ = (OK ds', σ')
    ∧ name ds' = oname ∧ shape ds' = extents ∧ dtype ds' = dt
    ∧ fillvalue ds' = fill ∧ chunk_size ds' = sizes
    ∧ chunks ds' = chunks_needed extents sizes ∧ read_only ds' = ro
    ∧ (∀ n, n ≠ oname → σ' !! n = σ !! n).
Proof.
  intros Ho Hlen.
  rewrite (create_fresh pool_njobs schedule oname extents dt fill
             (ChunksSeq sizes) ro nj sizes σ Ho).
  - eexists _, _. split; [reflexivity|]. split_and!; try done.
    intros n Hn. by rewrite lookup_insert_ne.
  - cbn. by rewrite (proj2 (Nat.eqb_eq _ _) Hlen).
Qed.
End like.



(** X21. The [*_like] constructors on a dataset as the model, with
    extents and a positive chunk grid up to [2 ^ 53]: the new dataset
    has the shape and dtype of the model, the fill value 0, 1 or (for
    [create_like]) that of the model, whatever [chunks] and [fillvalue]
    were given, and its chunk size is the chunk grid of the model
    ([data.chunks]), not the chunk size of the model; its own grid is
    the ceiling of the shape over that. *)
Theorem like_dataset_takes_chunk_grid (pool_njobs : option Z)
    (schedule : ∀ A : Type, list A → list A) (d : Dataset) (oname : string)
    (given : chunks_arg) (fill : Z) (σ : gmap string pool_object) :
  σ !! oname = None → Forall2 exact_axis (shape d) (chunks d) →
  let made (run : M Dataset) (v : Z) :=
    ∃ ds' σ', run σ = (OK ds', σ')
      ∧ shape ds' = shape d ∧ dtype ds' = dtype d ∧ fillvalue ds' = v
      ∧ chunk_size ds' = chunks d
      ∧ geometry_ok ds' in
  made (zeros_like pool_njobs schedule oname (LikeDataset d) given) 0
  ∧ made (ones_like pool_njobs schedule oname (LikeDataset d) given) 1
  ∧ made (create_like pool_njobs schedule oname (LikeDataset d) given fill)
      (fillvalue d).
Proof.
  intros Ho Hexact made.
  assert (∀ v, made (create pool_njobs schedule oname (Some (shape d)) (dtype d)
                       v (ChunksSeq (chunks d)) None false None) v) as Hmade.
  { intros v.
    destruct (create_on_sequence pool_njobs schedule oname (shape d) (dtype d)
                v (chunks d) false None σ Ho
                (eq_sym (Forall2_length _ _ _ Hexact)))
      as (ds' & σ' & Hrun & _ & Hs & ? & ? & Hcs & Hg & _).
    exists ds', σ'. split_and!; try done.
    unfold geometry_ok. rewrite Hs, Hcs, Hg.
    by apply chunks_needed_geometry. }
  split_and!; apply Hmade.
Qed.

Lemma like_dataset_takes_chunk_grid_witness :
  let d := {| name := "d"; shape := [10; 10]; dtype := "int32";
              fillvalue := 7; chunks := [2; 2]; chunk_size := [5; 5];
              njobs := None; read_only := false |} in
  let σ : gmap string pool_object :=
    {[ "d" := PoolObject (PText signature) ∅ ]} in
  let made (run : M Dataset) (v : Z) :=
    ∃ ds' σ', run σ = (OK ds', σ')
      ∧ shape ds' = shape d ∧ dtype ds' = dtype d ∧ fillvalue ds' = v
      ∧ chunk_size ds' = chunks d
      ∧ geometry_ok ds' in
  made (zeros_like None (λ A, reverse) "e" (LikeDataset d) (ChunksInt 5)) 0
  ∧ made (ones_like None (λ A, reverse) "e" (LikeDataset d) (ChunksInt 5)) 1
  ∧ made (create_like None (λ A, reverse) "e" (LikeDataset d) (ChunksInt 5) 3)
      (fillvalue d).
Proof.
  intros d σ.
  apply (like_dataset_takes_chunk_grid None (λ A, reverse) d "e" (ChunksInt 5) 3 σ).
  - reflexivity.
  - repeat constructor; lia.
Defined.

Lemma append_assoc (a b c : string) : (a +:+ b) +:+ c = a +:+ b +:+ c.
Proof.
  induction a as [|x a IH]; [done|]. rewrite !app_cons. by f_equal.
Qed.

(** X22. Chunk names of different datasets can coincide: when the name
    of one dataset is the name of another followed by a dot and a
    number, each chunk of the first has the name of a chunk of the
    second, of an index one longer. *)
Theorem chunkname_collision (ds1 ds2 : Dataset) (i : Z) (idx : list Z) :
  name ds2 = name ds1 +:+ "." +:+ pretty i → idx ≠ [] →
  __chunkname ds2 idx = __chunkname ds1 (i :: idx).
Proof.
  intros Hname Hidx. unfold __chunkname. rewrite Hname.
  destruct idx as [|j idx]; [done|].
  cbn [fmap list_fmap]. rewrite join_cons2.
  by rewrite !append_assoc.
Qed.

Lemma chunkname_collision_witness :
  let ds1 := {| name := "a"; shape := [4; 4]; dtype := "int32";
                fillvalue := 0; chunks := [2; 2]; chunk_size := [2; 2];
                njobs := None; read_only := false |} in
  let ds2 := {| name := "a.1"; shape := [4]; dtype := "int32";
                fillvalue := 0; chunks := [2]; chunk_size := [2];
                njobs := None; read_only := false |} in
  __chunkname ds2 [0] = __chunkname ds1 [1; 0].
Proof.
  intros ds1 ds2. by apply (chunkname_collision ds1 ds2 1 [0]).
Defined.

(** ** Loading an array *)

Section load_full.
Variable schedule : ∀ A : Type, list A → list A.
Variable np_squeeze : ndarray → list nat → result ndarray.
Hypothesis schedule_perm : ∀ (A : Type) (l : list A), schedule A l ≡ₚ l.
Implicit Types (ds : Dataset) (σ : gmap string pool_object).

Lemma full_chunks_geometry ds : full_chunks ds → geometry_ok ds.
Proof.
  unfold full_chunks, geometry_ok.
  induction 1 as [|n c m ? ? ? [Hc ->] _ IH]; constructor; [|done].
  split; [done|]. symmetry. apply div_unique_interval; [done|lia].
Qed.

(** The global bounds of a chunk of a dataset whose chunks are all
    full. *)
Lemma gchunk_bounds_full ds ns sizes grid :
  Forall3 (λ n c m, 0 < c ∧ n = m * c) ns sizes grid →
  ∀ j idx, drop j (shape ds) = ns → in_box idx grid →
    let gs := zip_with (λ i c, Slice (i * c) ((i + 1) * c)) idx sizes in
    gchunk_bounds_from ds j idx sizes = OK gs
    ∧ Forall2 (λ g n, 0 ≤ start g ≤ stop g ∧ stop g ≤ n) gs ns
    ∧ tshape gs = sizes
    ∧ start <$> gs = zip_with Z.mul idx sizes.
Proof.
  induction 1 as [|n c m ns sizes grid [Hc ->] _ IH]; intros j idx Hdrop Hidx.
  - apply Forall2_nil_inv_r in Hidx as ->. cbn. by split_and!.
  - apply Forall2_cons_inv_r in Hidx as (i & idx' & Hi & Hidx & ->).
    destruct (drop_lookup_head _ _ _ _ Hdrop) as [Hj Hrest].
    destruct (IH (S j) idx' Hrest Hidx) as (Hrun & Hin & Hts & Hst).
    cbn zeta. cbn [gchunk_bounds_from zip_with]. unfold shape_at.
    rewrite Hj. cbn [rbind]. rewrite Hrun. cbn [rbind].
    rewrite Z.min_l by nia. split_and!.
    + done.
    + constructor; [cbn; nia|done].
    + unfold tshape in *. cbn [fmap list_fmap]. rewrite Hts. f_equal.
      cbn. lia.
    + cbn [fmap list_fmap]. by rewrite Hst.
Qed.

(** One task of [load] on a chunk without an object: the object is
    made and holds the chunk's part of the array. *)
Lemma populate_step ds σ data idx :
  full_chunks ds → wf_array data → arr_shape data = shape ds →
  in_box idx (chunks ds) → σ !! __chunkname ds idx = None →
  ∃ o,
    _populate_dataset ds data idx σ = (OK tt, <[__chunkname ds idx := o]> σ)
    ∧ chunk_ok ds o
    ∧ ∀ q, in_box q (chunk_size ds) →
        chunk_cell ds (<[__chunkname ds idx := o]> σ) idx q
        = arr_cells data !!! zip_with Z.add (zip_with Z.mul idx (chunk_size ds)) q.
Proof.
  intros Hfull Hdata Hdshape Hidx Ho.
  destruct (gchunk_bounds_full ds _ _ _ Hfull 0%nat idx eq_refl Hidx)
    as (Hgs & Hin & Hts & Hst).
  set (gs := zip_with (λ i c, Slice (i * c) ((i + 1) * c)) idx (chunk_size ds))
    in *.
  rewrite <- Hdshape in Hin.
  destruct (np_getitem_within data gs Hin)
    as (part & Hget & Hpart & Hpshape & Hpdtype & Hpcells).
  rewrite Hts in Hpshape.
  assert (Forall (λ n, 0 ≤ n) (chunk_size ds)) as Hsize.
  { apply geometry_chunk_size_nonneg. by apply full_chunks_geometry. }
  assert (chunk_contents (Some (chunk_size ds)) (dtype ds)
            (Some (fillvalue ds)) (Some data) (Some gs)
          = OK (part, chunk_size ds, arr_dtype part)) as Hc.
  { unfold chunk_contents. rewrite Hget. cbn [rbind].
    rewrite bool_decide_eq_true_2 by done. by rewrite Hpshape. }
  destruct (create_chunk_run ds σ idx (Some data) (Some gs) part
              (arr_dtype part) Ho Hsize Hc Hpart)
    as (chunk & o & Hrun & Hok & Hread).
  exists o. split_and!; [|done|].
  - unfold _populate_dataset, _gchunk_bounds_slices.
    unfold mbind_pool at 1, lift at 1. rewrite Hgs.
    unfold _set_chunk_data, _has_chunk, mbind_pool at 1, pool_has_chunk.
    rewrite Ho. rewrite bool_decide_eq_false_2 by (by intros [? ?]).
    unfold mbind_pool. by rewrite Hrun.
  - intros q Hq. unfold chunk_cell. rewrite Hread. cbn [fst arr_cells].
    rewrite Hpcells by (by rewrite Hts). by rewrite Hst.
Qed.

Lemma populate_loop ds data (idxs : list (list Z)) σ :
  full_chunks ds → wf_array data → arr_shape data = shape ds →
  pool_chunks_ok ds σ → NoDup idxs →
  (∀ idx, idx ∈ idxs →
          in_box idx (chunks ds) ∧ σ !! __chunkname ds idx = None) →
  ∃ σ',
    mfor idxs (_populate_dataset ds data) σ = (OK tt, σ')
    ∧ pool_chunks_ok ds σ'
    ∧ (∀ n, (∀ idx, idx ∈ idxs → n ≠ __chunkname ds idx) → σ' !! n = σ !! n)
    ∧ ∀ idx q, idx ∈ idxs → in_box q (chunk_size ds) →
        chunk_cell ds σ' idx q
        = arr_cells data !!! zip_with Z.add (zip_with Z.mul idx (chunk_size ds)) q.
Proof.
  intros Hfull Hdata Hdshape. revert σ.
  induction idxs as [|idx idxs IH]; intros σ Hpool Hnd Hall.
  - exists σ. split_and!; try done. intros idx q Hin. by apply elem_of_nil in Hin.
  - apply NoDup_cons in Hnd as [Hnotin Hnd].
    destruct (Hall idx) as [Hidx Ho]; [by left|].
    destruct (populate_step ds σ data idx Hfull Hdata Hdshape Hidx Ho)
      as (o & Hrun & Hok & Hcells).
    set (σ1 := <[__chunkname ds idx := o]> σ) in *.
    assert (pool_chunks_ok ds σ1) as Hpool1 by (by apply insert_chunks_ok).
    assert (∀ idx', idx' ∈ idxs → __chunkname ds idx ≠ __chunkname ds idx')
      as Hnames.
    { intros idx' Hin Heq%chunkname_inj. by subst idx'. }
    destruct (IH σ1 Hpool1 Hnd) as (σ' & Hrest & Hpool' & Hframe & Hcells').
    { intros idx' Hin. destruct (Hall idx') as [? ?]; [by right|].
      split; [done|]. unfold σ1. rewrite lookup_insert_ne; [done|].
      by apply Hnames. }
    exists σ'. split_and!; [|done| |].
    + cbn [mfor]. unfold mbind_pool at 1. by rewrite Hrun.
    + intros n Hn. rewrite Hframe.
      * unfold σ1. rewrite lookup_insert_ne; [done|].
        intros Heq. by apply (Hn idx); [left|].
      * intros idx' Hin. apply Hn. by right.
    + intros idx' q [->|Hin]%elem_of_cons Hq.
      * rewrite <- (Hcells q Hq). apply chunk_cell_local.
        apply Hframe. intros idx' Hin. by apply Hnames.
      * by apply Hcells'.
Qed.

(** The chunk and the offset of a point of the dataset. *)
Lemma geometry_point ns sizes grid p :
  Forall3 axis_ok ns sizes grid → in_box p ns →
  in_box (zip_with Z.div p sizes) grid
  ∧ in_box (zip_with Z.modulo p sizes) sizes
  ∧ zip_with Z.add (zip_with Z.mul (zip_with Z.div p sizes) sizes)
      (zip_with Z.modulo p sizes) = p.
Proof.
  intros Hgeo. revert p.
  induction Hgeo as [|n c m ns sizes grid [Hc ->] _ IH]; intros p Hp.
  - unfold in_box in Hp. apply Forall2_nil_inv_r in Hp as ->.
    split_and!; [constructor..|done].
  - unfold in_box in Hp.
    apply Forall2_cons_inv_r in Hp as (x & p' & Hx & Hp & ->).
    destruct (IH p' Hp) as (IH1 & IH2 & IH3).
    pose proof (div_bounds x c Hc) as Hdx.
    pose proof (div_bounds (n + c - 1) c Hc) as Hdn.
    pose proof (Z.div_mod x c ltac:(lia)) as Hdm.
    pose proof (Z.mod_pos_bound x c Hc) as Hmod.
    cbn [zip_with]. split_and!.
    + constructor; [|done]. split; [nia|].
      apply Z.div_lt_upper_bound; [done|nia].
    + by constructor.
    + rewrite IH3. f_equal. lia.
Qed.

(** [load] on a dataset with full chunks and no chunk objects: every
    chunk of the grid is made, and the dataset holds the array. *)
Lemma load_cells ds σ data :
  full_chunks ds → no_chunks ds σ → njobs ds ≠ Some 0 →
  wf_array data → arr_shape data = shape ds →
  ∃ σ',
    load schedule ds data σ = (OK tt, σ')
    ∧ pool_chunks_ok ds σ'
    ∧ (∀ n, (∀ idx, n ≠ __chunkname ds idx) → σ' !! n = σ !! n)
    ∧ ∀ p, in_box p (shape ds) → stored_cell ds σ' p = arr_cells data !!! p.
Proof.
  intros Hfull Hnone Hjobs Hdata Hdshape.
  assert (pool_chunks_ok ds σ) as Hpool.
  { intros idx o Ho. by rewrite Hnone in Ho. }
  assert (∃ order, order ≡ₚ points (chunks ds)
            ∧ load schedule ds data σ
              = mfor order (_populate_dataset ds data) σ)
    as (order & Hperm & ->).
  { unfold load. destruct (sequential ds).
    - by exists (points (chunks ds)).
    - exists (schedule _ (points (chunks ds))). split; [apply schedule_perm|].
      unfold mbind_pool, Parallel. by destruct (njobs ds) as [[| |]|]. }
  destruct (populate_loop ds data order σ Hfull Hdata Hdshape Hpool)
    as (σ' & Hrun & Hpool' & Hframe & Hcells).
  { rewrite Hperm. apply NoDup_points. }
  { intros idx Hin. rewrite Hperm in Hin. by apply elem_of_points in Hin. }
  exists σ'. split_and!; [done|done| |].
  - intros n Hn. apply Hframe. intros idx _. apply Hn.
  - intros p Hp.
    destruct (geometry_point _ _ _ p (full_chunks_geometry ds Hfull) Hp)
      as (Hidx & Hq & Heq).
    unfold stored_cell, chunk_of, offset_in_chunk.
    rewrite Hcells; [by rewrite Heq| |done].
    rewrite Hperm. by apply elem_of_points.
Qed.

(** A read of a dataset that holds an array gives the region of the
    array. *)
Lemma getitem_of_stored ds σ values ix slices squeeze_axis :
  geometry_ok ds → pool_chunks_ok ds σ →
  _process_slices ds ix true = OK (slices, squeeze_axis) →
  in_bounds ds slices → njobs ds ≠ Some 0 →
  wf_array values → arr_shape values = shape ds →
  arr_dtype values = dtype ds →
  (∀ p, in_box p (shape ds) → stored_cell ds σ p = arr_cells values !!! p) →
  sequential ds = true ∨ nonempty_region slices →
  ∃ out,
    np_getitem values slices = OK out
    ∧ __getitem__ schedule np_squeeze ds ix σ
      = (match squeeze_axis with
         | Some (ax :: axes) => np_squeeze out (ax :: axes)
         | _ => OK out
         end, σ).
Proof.
  intros Hgeo Hpool Hproc Hb Hjobs Hvalues Hvshape Hvdtype Hstored Hstage.
  destruct (getitem_cells schedule np_squeeze schedule_perm ds σ ix slices
              squeeze_axis Hgeo Hpool Hproc Hb Hjobs Hstage)
    as (out & Hget & Hout & Hoshape & Hodtype & Hcells).
  assert (Forall2 (λ g n, 0 ≤ start g ≤ stop g ∧ stop g ≤ n) slices
            (arr_shape values)) as Hin.
  { rewrite Hvshape. eapply Forall2_impl; [exact Hb|].
    intros s n [? ?]. lia. }
  destruct (np_getitem_within values slices Hin)
    as (part & Hpart & Hpwf & Hpshape & Hpdtype & Hpcells).
  exists part. split; [done|].
  assert (out = part) as <-; [|done].
  apply wf_array_eq; try done; [congruence|congruence|].
  intros k Hk. rewrite Hoshape in Hk.
  rewrite (Hcells k Hk), (Hpcells k Hk).
  destruct (in_slices_shift slices k Hk) as [Hp _].
  apply Hstored.
  unfold in_slices in Hp. unfold in_bounds in Hb. unfold in_box.
  clear -Hp Hb. revert Hb. generalize (shape ds).
  induction Hp as [|x s p slices Hx _ IH]; intros extents Hb.
  - apply Forall2_nil_inv_l in Hb as ->. constructor.
  - apply Forall2_cons_inv_l in Hb as (n & extents' & [Hs1 Hs2] & Hb & ->).
    constructor; [lia|by apply IH].
Qed.
End load_full.

(** X23. [load] on a dataset without chunk objects, every chunk of which
    lies wholly inside the dataset, with an array of the shape of the
    dataset: it succeeds, sequentially or with the tasks in any order,
    and reading an in-bounds region afterwards (in parallel: a region
    that holds a point) returns that region of the array (passed to
    [np.squeeze] with the integer axes, when there are any). *)
Theorem load_then_read
    (schedule : ∀ A : Type, list A → list A)
    (np_squeeze : ndarray → list nat → result ndarray)
    (ds : Dataset) (σ : gmap string pool_object) (data : ndarray)
    (ix : index) (slices : list slice) (squeeze_axis : option (list nat)) :
  (∀ (A : Type) (l : list A), schedule A l ≡ₚ l) →
  full_chunks ds → no_chunks ds σ → njobs ds ≠ Some 0 →
  wf_array data → arr_shape data = shape ds → arr_dtype data = dtype ds →
  _process_slices ds ix true = OK (slices, squeeze_axis) →
  in_bounds ds slices →
  sequential ds = true ∨ nonempty_region slices →
  ∃ σ' out,
    load schedule ds data σ = (OK tt, σ')
    ∧ np_getitem data slices = OK out
    ∧ __getitem__ schedule np_squeeze ds ix σ'
      = (match squeeze_axis with
         | Some (ax :: axes) => np_squeeze out (ax :: axes)
         | _ => OK out
         end, σ').
Proof.
  intros Hperm Hfull Hnone Hjobs Hdata Hdshape Hddtype Hproc Hb Hstage.
  destruct (load_cells schedule Hperm ds σ data Hfull Hnone Hjobs Hdata Hdshape)
    as (σ' & Hload & Hpool' & _ & Hstored).
  destruct (getitem_of_stored schedule np_squeeze Hperm ds σ' data ix slices
              squeeze_axis (full_chunks_geometry ds Hfull) Hpool' Hproc Hb
              Hjobs Hdata Hdshape Hddtype Hstored Hstage)
    as (out & Hpart & Hget).
  by exists σ', out.
Qed.

Lemma load_then_read_witness :
  let ds := {| name := "d"; shape := [6; 4]; dtype := "int32";
               fillvalue := 7; chunks := [2; 2]; chunk_size := [3; 2];
               njobs := Some 2; read_only := false |} in
  let data := NdArray [6; 4] "int32"
                (tabulate [6; 4] (λ q, 10 * q !!! 0%nat + q !!! 1%nat)) in
  ∃ σ' out,
    load (λ A, reverse) ds data ∅ = (OK tt, σ')
    ∧ np_getitem data [Slice 2 5; Slice 1 2] = OK out
    ∧ __getitem__ (λ A, reverse) squeeze_axes ds
        (ISeq [ESlice (Some 2) (Some 5) None; EInt 1]) σ'
      = (squeeze_axes out [1%nat], σ').
Proof.
  intros ds data.
  apply (load_then_read (λ A, reverse) squeeze_axes ds ∅ data
           (ISeq [ESlice (Some 2) (Some 5) None; EInt 1])
           [Slice 2 5; Slice 1 2] (Some [1%nat])).
  - intros A l. apply reverse_Permutation.
  - repeat constructor.
  - intros idx. apply lookup_empty.
  - discriminate.
  - apply wf_tabulate. repeat constructor; lia.
  - reflexivity.
  - reflexivity.
  - reflexivity.
  - repeat constructor; simpl; lia.
  - right. repeat constructor; simpl; lia.
Defined.

(** ** Creation from an array *)

Section create_data.
Variable pool_njobs : option Z.
Variable schedule : ∀ A : Type, list A → list A.

End create_data.



(** ** A function applied to every chunk *)

Section apply_chunks.
Variable schedule : ∀ A : Type, list A → list A.
Hypothesis schedule_perm : ∀ (A : Type) (l : list A), schedule A l ≡ₚ l.
Variable func : ndarray → result ndarray.
Variable g : Z → Z.
Hypothesis func_elementwise : ∀ a, wf_array a →
  ∃ b, func a = OK b ∧ wf_array b ∧ arr_shape b = arr_shape a
    ∧ ∀ q, in_box q (arr_shape a) → arr_cells b !!! q = g (arr_cells a !!! q).
Implicit Types (ds : Dataset) (σ : gmap string pool_object).




End apply_chunks.



(** ** A function mapped into a new dataset *)

Section map_chunks.
Variable pool_njobs : option Z.
Variable schedule : ∀ A : Type, list A → list A.
Hypothesis schedule_perm : ∀ (A : Type) (l : list A), schedule A l ≡ₚ l.
Variable func : ndarray → result ndarray.
Variable g : Z → Z.
Hypothesis func_elementwise : ∀ a, wf_array a →
  ∃ b, func a = OK b ∧ wf_array b ∧ arr_shape b = arr_shape a
    ∧ ∀ q, in_box q (arr_shape a) → arr_cells b !!! q = g (arr_cells a !!! q).
Implicit Types (ds dsout : Dataset) (σ : gmap string pool_object).


End map_chunks.



(** ** Groups of the in-memory backend *)

Section mem_groups.
Implicit Types (g : mem_node) (l : gmap string mem_node) (path : string).

Lemma split_nonempty sep s : split sep s ≠ [].
Proof.
  destruct s as [|c s]; cbn [split]; [done|].
  destruct (Ascii.eqb c sep); [done|]. by destruct (split sep s).
Qed.

(** A name of letters and digits has a single path element. *)
Lemma split_alnum s : all_alnum s = true → split "/" s = [s].
Proof.
  induction s as [|c s IH]; [done|]. cbn [all_alnum split].
  intros [Hc Hs]%andb_true_iff.
  destruct (Ascii.eqb_spec c "/"%char) as [->|_]; [by vm_compute in Hc|].
  by rewrite (IH Hs).
Qed.

Lemma split_isalnum path : isalnum path = true → split "/" path = [path].
Proof. destruct path; [done|]. apply split_alnum. Qed.

(** The elements of a path joined by a slash. *)
Lemma split_app a b :
  split "/" (a +:+ "/" +:+ b) = split "/" a ++ split "/" b.
Proof.
  induction a as [|c a IH].
  - by rewrite app_nil_l.
  - rewrite app_cons. cbn [split]. rewrite IH.
    destruct (Ascii.eqb c "/"); [done|].
    pose proof (split_nonempty "/"%char a).
    by destruct (split "/" a).
Qed.

(** The walk along a path that continues from the group found by its
    first part. *)
Lemma get_group_recurse_app arr1 arr2 l g1 :
  arr2 ≠ [] →
  MemGroup.get_group_recurse arr1 l = OK (Some g1) →
  MemGroup.get_group_recurse (arr1 ++ arr2) l
  = (l1 ←! MemGroup.links g1; MemGroup.get_group_recurse arr2 l1).
Proof.
  intros Harr2. revert l.
  induction arr1 as [|seg rest IH]; intros l; [done|].
  cbn [MemGroup.get_group_recurse app].
  destruct (l !! seg) as [target|]; [|done].
  destruct rest as [|seg' rest].
  - intros [= ->]. cbn [app]. by destruct arr2.
  - cbn [app]. destruct (MemGroup.links target) as [l'|]; cbn [rbind]; [|done].
    apply IH.
Qed.
End mem_groups.

(** X27. [MemGroup.create_group] with a name of letters and digits that
    is not among the links of the group: the new empty group is
    returned and linked under its name, [get_group] of the name then
    returns it, a second creation under the name raises the
    already-exists error, and the paths that start with another name
    lead where they led to before. *)
Theorem create_group_then_get_group (gname : string)
    (gattrs attrs : option (gmap string string))
    (l : gmap string mem_node) (path : string) :
  isalnum path = true → l !! path = None →
  let self := GroupNode gname gattrs l in
  ∃ self',
    MemGroup.create_group self path attrs
    = OK (GroupNode path attrs ∅, self')
    ∧ MemGroup.get_group self' path = OK (GroupNode path attrs ∅)
    ∧ (∀ attrs', MemGroup.create_group self' path attrs'
                 = Raise (ExcGroupExists path))
    ∧ ∀ other seg rest, split "/" other = seg :: rest → seg ≠ path →
        MemGroup.get_group self' other = MemGroup.get_group self other.
Proof.
  intros Halnum Hfree self. unfold self, MemGroup.create_group.
  rewrite Halnum. cbn [negb].
  rewrite bool_decide_eq_false_2 by (rewrite Hfree; by intros [? ?]).
  eexists. split; [reflexivity|]. split_and!.
  - unfold MemGroup.get_group. cbn [MemGroup.links rbind].
    rewrite (split_isalnum path Halnum). cbn [MemGroup.get_group_recurse].
    by rewrite lookup_insert_eq.
  - intros attrs'. rewrite bool_decide_eq_true_2; [done|].
    rewrite lookup_insert_eq. by eexists.
  - intros other seg rest Hsplit Hseg. unfold MemGroup.get_group.
    cbn [MemGroup.links rbind]. rewrite Hsplit.
    cbn [MemGroup.get_group_recurse].
    by rewrite lookup_insert_ne by done.
Qed.

Lemma create_group_then_get_group_witness :
  let self := GroupNode "/" None {[ "a" := GroupNode "a" None ∅ ]} in
  ∃ self',
    MemGroup.create_group self "b2" None
    = OK (GroupNode "b2" None ∅, self')
    ∧ MemGroup.get_group self' "b2" = OK (GroupNode "b2" None ∅)
    ∧ (∀ attrs', MemGroup.create_group self' "b2" attrs'
                 = Raise (ExcGroupExists "b2"))
    ∧ ∀ other seg rest, split "/" other = seg :: rest → seg ≠ "b2" →
        MemGroup.get_group self' other = MemGroup.get_group self other.
Proof.
  apply (create_group_then_get_group "/" None None
           {[ "a" := GroupNode "a" None ∅ ]} "b2"); reflexivity.
Defined.

(** X28. [MemGroup.get_group] follows a path element by element: when
    [p1] leads from a group to [g1] and [p2] leads from [g1] to [g2],
    the path [p1/p2] leads from the group to [g2]. A path with a
    leading slash is not found in a group that has no link of the
    empty name. *)
Theorem get_group_follows_path (g g1 g2 : mem_node) (p1 p2 : string) :
  MemGroup.get_group g p1 = OK g1 → MemGroup.get_group g1 p2 = OK g2 →
  MemGroup.get_group g (p1 +:+ "/" +:+ p2) = OK g2
  ∧ ∀ l, MemGroup.links g = OK l → l !! "" = None →
      MemGroup.get_group g ("/" +:+ p1)
      = Raise (GroupNotFoundError ("/" +:+ p1)).
Proof.
  unfold MemGroup.get_group. intros H1 H2.
  destruct (MemGroup.links g) as [l|] eqn:Hl; cbn [rbind] in *; [|done].
  split.
  - destruct (MemGroup.get_group_recurse (split "/" p1) l) as [[x|]|] eqn:Hr1;
      cbn [rbind] in H1; try done.
    injection H1 as ->.
    rewrite split_app.
    rewrite (get_group_recurse_app _ _ _ _ (split_nonempty _ _) Hr1).
    destruct (MemGroup.links g1) as [l1|]; cbn [rbind] in *; [|done].
    by destruct (MemGroup.get_group_recurse (split "/" p2) l1) as [[x|]|].
  - intros l' [= <-] Hempty.
    change ("/" +:+ p1) with (String "/" p1) at 1. cbn [split].
    change (Ascii.eqb "/" "/") with true. cbn iota.
    cbn [MemGroup.get_group_recurse]. by rewrite Hempty.
Qed.

Lemma get_group_follows_path_witness :
  let b := GroupNode "b" None ∅ in
  let a := GroupNode "a" None {[ "b" := b ]} in
  let root := GroupNode "/" None {[ "a" := a ]} in
  MemGroup.get_group root ("a" +:+ "/" +:+ "b") = OK b
  ∧ ∀ l, MemGroup.links root = OK l → l !! "" = None →
      MemGroup.get_group root ("/" +:+ "a")
      = Raise (GroupNotFoundError ("/" +:+ "a")).
Proof.
  intros b a root.
  apply (get_group_follows_path root a b "a" "b"); reflexivity.
Defined.

(** ** Chunks of the in-memory backend *)

(** X29. [MemDataChunk.set_data] on a region inside the chunk, with
    values of the shape of the region, followed by [get_data] of the
    same region: the values are read back, the cells of the chunk
    outside the region keep their content, and the chunk keeps its
    shape. *)
Theorem mem_chunk_set_get_region (c : MemDataChunk.t) (values : ndarray)
    (sl : list slice) :
  wf_array (MemDataChunk.data c) →
  Forall2 (λ s n, 0 ≤ start s ≤ stop s ∧ stop s ≤ n) sl
    (arr_shape (MemDataChunk.data c)) →
  arr_shape values = tshape sl →
  ∃ c' out,
    MemDataChunk.set_data c values (Some sl) = OK c'
    ∧ MemDataChunk.get_data c' (Some sl) = OK out
    ∧ arr_shape out = arr_shape values
    ∧ (∀ q, in_box q (tshape sl) →
            arr_cells out !!! q = arr_cells values !!! q)
    ∧ arr_shape (MemDataChunk.data c') = arr_shape (MemDataChunk.data c)
    ∧ ∀ q, in_box q (arr_shape (MemDataChunk.data c)) → ¬ in_slices q sl →
        arr_cells (MemDataChunk.data c') !!! q
        = arr_cells (MemDataChunk.data c) !!! q.
Proof.
  intros Hc Hsl Hv.
  destruct (np_setitem_region (MemDataChunk.data c) values sl Hc Hsl Hv)
    as (a' & Hset & Ha' & Hshape' & _ & Hcells').
  pose proof Hsl as Hsl'. rewrite <- Hshape' in Hsl'.
  destruct (np_getitem_within a' sl Hsl')
    as (out & Hget & _ & Hoshape & _ & Hocells).
  unfold MemDataChunk.set_data, MemDataChunk.get_data. rewrite Hset.
  cbn [rbind MemDataChunk.data]. eexists _, out.
  split; [reflexivity|]. cbn [MemDataChunk.data].
  split_and!; [done|congruence| |done|].
  - intros q Hq. rewrite (Hocells q Hq).
    destruct (in_slices_shift sl q Hq) as [Hin Hsub].
    rewrite Hcells'.
    + by rewrite decide_True, Hsub.
    + unfold in_slices in Hin. unfold in_box. clear -Hin Hsl.
      revert Hsl. generalize (arr_shape (MemDataChunk.data c)).
      induction Hin as [|x s p sl Hx _ IH]; intros extents Hsl.
      * apply Forall2_nil_inv_l in Hsl as ->. constructor.
      * apply Forall2_cons_inv_l in Hsl as (n & extents' & Hs & Hsl & ->).
        constructor; [lia|by apply IH].
  - intros q Hq Hout. rewrite (Hcells' q Hq). by rewrite decide_False.
Qed.

Lemma mem_chunk_set_get_region_witness :
  let c := {| MemDataChunk.shape := [4; 3]; MemDataChunk.dtype := "int32";
              MemDataChunk.fillvalue := 7;
              MemDataChunk.data :=
                NdArray [4; 3] "int32" (tabulate [4; 3] (λ _, 7)) |} in
  let values := NdArray [2; 2] "int32"
                  (tabulate [2; 2] (λ q, q !!! 0%nat + q !!! 1%nat)) in
  let sl := [Slice 1 3; Slice 0 2] in
  ∃ c' out,
    MemDataChunk.set_data c values (Some sl) = OK c'
    ∧ MemDataChunk.get_data c' (Some sl) = OK out
    ∧ arr_shape out = arr_shape values
    ∧ (∀ q, in_box q (tshape sl) →
            arr_cells out !!! q = arr_cells values !!! q)
    ∧ arr_shape (MemDataChunk.data c') = arr_shape (MemDataChunk.data c)
    ∧ ∀ q, in_box q (arr_shape (MemDataChunk.data c)) → ¬ in_slices q sl →
        arr_cells (MemDataChunk.data c') !!! q
        = arr_cells (MemDataChunk.data c) !!! q.
Proof.
  intros c values sl. apply (mem_chunk_set_get_region c values sl).
  - apply wf_tabulate. repeat constructor; lia.
  - repeat constructor; simpl; lia.
  - reflexivity.
Defined.

(** ** Datasets of the in-memory backend *)

Section mem_dataset.
Implicit Types (self : MemDataset.t) (chunk : MemDataChunk.t).

Lemma mem_create_chunk_fresh self idx chunk :
  MemDataset.data_chunks self !! idx = None →
  MemDataChunk.init (MemDataset.chunk_size self) (MemDataset.dtype self)
    (MemDataset.fillvalue self) = OK chunk →
  MemDataset.create_chunk self idx None None
  = (MemOK chunk,
     MemDataset.set_chunks self
       (<[idx := Some chunk]> (MemDataset.data_chunks self))).
Proof.
  intros Hfree Hinit. unfold MemDataset.create_chunk, MemDataset.has_chunk.
  rewrite bool_decide_eq_false_2 by (rewrite Hfree; by intros [? ?]).
  cbn [MemDataset.set_chunks MemDataset.chunk_size MemDataset.dtype
       MemDataset.fillvalue MemDataset.data_chunks].
  rewrite Hinit. unfold MemDataset.set_chunks.
  cbn [MemDataset.name MemDataset.shape MemDataset.chunk_grid
       MemDataset.chunk_size MemDataset.dtype MemDataset.fillvalue
       MemDataset.data_chunks].
  by rewrite insert_insert_eq.
Qed.

Lemma mem_populate_loop idxs self chunk :
  MemDataChunk.init (MemDataset.chunk_size self) (MemDataset.dtype self)
    (MemDataset.fillvalue self) = OK chunk →
  NoDup idxs →
  (∀ idx, idx ∈ idxs → MemDataset.data_chunks self !! idx = None) →
  ∃ m,
    MemDataset.populate_loop idxs self = (MemOK tt, MemDataset.set_chunks self m)
    ∧ ∀ idx, m !! idx = if decide (idx ∈ idxs) then Some (Some chunk)
                        else MemDataset.data_chunks self !! idx.
Proof.
  revert self. induction idxs as [|idx idxs IH]; intros self Hinit Hnd Hfree.
  - exists (MemDataset.data_chunks self). split; [by destruct self|].
    intros idx. rewrite decide_False; [done|]. apply not_elem_of_nil.
  - apply NoDup_cons in Hnd as [Hnotin Hnd].
    cbn [MemDataset.populate_loop].
    rewrite (mem_create_chunk_fresh self idx chunk) by
      (try done; apply Hfree; by left).
    set (self1 := MemDataset.set_chunks self _).
    destruct (IH self1 Hinit Hnd) as (m & Hrun & Hm).
    { intros idx' Hin. unfold self1. cbn [MemDataset.set_chunks
        MemDataset.data_chunks].
      rewrite lookup_insert_ne by (intros ->; done).
      apply Hfree. by right. }
    exists m. split; [by rewrite Hrun|].
    intros idx'. rewrite Hm. unfold self1.
    cbn [MemDataset.set_chunks MemDataset.data_chunks].
    destruct (decide (idx' = idx)) as [->|Hne].
    + rewrite decide_False by done. rewrite lookup_insert_eq.
      by rewrite decide_True by (by left).
    + rewrite lookup_insert_ne by done.
      destruct (decide (idx' ∈ idxs)) as [Hin|Hin].
      * by rewrite decide_True by (by right).
      * rewrite decide_False; [done|]. by intros [?|?]%elem_of_cons.
Qed.
End mem_dataset.

(** X30. A [MemDataset] is made with all its chunks: for a grid and a
    chunk size without negative extents the constructor stores, under
    every index of the grid and under no other, a chunk whose every
    cell is the fill value. [create_chunk] on an index of the grid then
    raises and leaves the dataset as it is, and [get_chunk] after
    [del_chunk] makes the chunk anew, with the fill value. *)
Theorem mem_dataset_populated (dname : string) (extents : list Z)
    (dt : string) (fill : Z) (grid sizes : list Z) :
  Forall (λ m, 0 ≤ m) grid → Forall (λ c, 0 ≤ c) sizes →
  ∃ ds chunk,
    MemDataset.init dname extents dt fill grid sizes = MemOK ds
    ∧ (∀ idx, MemDataset.data_chunks ds !! idx
              = if decide (in_box idx grid) then Some (Some chunk) else None)
    ∧ (∀ idx, MemDataset.has_chunk ds idx = bool_decide (in_box idx grid))
    ∧ (arr_shape (MemDataChunk.data chunk) = sizes
       ∧ ∀ q, in_box q sizes → arr_cells (MemDataChunk.data chunk) !!! q = fill)
    ∧ ∀ idx, in_box idx grid →
        (∀ data sl, MemDataset.create_chunk ds idx data sl
                    = (MemChunkExists idx, ds))
        ∧ MemDataset.get_chunk ds idx = (MemOK (Some chunk), ds)
        ∧ ∃ ds', MemDataset.del_chunk ds idx = (true, ds')
            ∧ MemDataset.has_chunk ds' idx = false
            ∧ MemDataset.get_chunk ds' idx = (MemOK (Some chunk), ds).
Proof.
  intros Hgrid Hsizes.
  destruct (np_full_spec sizes fill dt Hsizes) as (a & Hfull & _).
  destruct (np_full_wf _ _ _ _ Hfull) as (_ & Hashape & _ & Hacells).
  set (chunk := {| MemDataChunk.shape := sizes; MemDataChunk.dtype := dt;
                   MemDataChunk.fillvalue := fill; MemDataChunk.data := a |}).
  assert (MemDataChunk.init sizes dt fill = OK chunk) as Hinit.
  { unfold MemDataChunk.init. by rewrite Hfull. }
  set (self := {| MemDataset.name := dname; MemDataset.shape := extents;
                  MemDataset.dtype := dt; MemDataset.fillvalue := fill;
                  MemDataset.chunk_grid := grid;
                  MemDataset.chunk_size := sizes;
                  MemDataset.data_chunks := ∅ |}).
  destruct (mem_populate_loop (points grid) self chunk Hinit (NoDup_points _))
    as (m & Hrun & Hm); [done|].
  assert (∀ idx, m !! idx
                 = if decide (in_box idx grid) then Some (Some chunk) else None)
    as Hlook.
  { intros idx. rewrite Hm. cbn [MemDataset.data_chunks self].
    rewrite lookup_empty.
    destruct (decide (idx ∈ points grid)) as [Hin|Hin];
      rewrite elem_of_points in Hin.
    - by rewrite decide_True.
    - by rewrite decide_False. }
  exists (MemDataset.set_chunks self m), chunk. split_and!.
  - unfold MemDataset.init, MemDataset._populate_chunks.
    cbn [MemDataset.chunk_grid]. rewrite (np_ndindex_nonneg _ Hgrid).
    fold self. by rewrite Hrun.
  - done.
  - intros idx. unfold MemDataset.has_chunk.
    cbn [MemDataset.set_chunks MemDataset.data_chunks]. rewrite Hlook.
    case_decide.
    + rewrite bool_decide_eq_true_2 by (by eexists).
      by rewrite bool_decide_eq_true_2.
    + rewrite bool_decide_eq_false_2 by (by intros [? ?]).
      by rewrite bool_decide_eq_false_2.
  - done.
  - exact Hacells.
  - intros idx Hidx.
    assert (m !! idx = Some (Some chunk)) as Hidx'.
    { rewrite Hlook. by rewrite decide_True. }
    split_and!.
    + intros data sl. unfold MemDataset.create_chunk, MemDataset.has_chunk.
      cbn [MemDataset.set_chunks MemDataset.data_chunks]. rewrite Hidx'.
      by rewrite bool_decide_eq_true_2 by (by eexists).
    + unfold MemDataset.get_chunk.
      cbn [MemDataset.set_chunks MemDataset.data_chunks]. by rewrite Hidx'.
    + eexists. split_and!.
      * unfold MemDataset.del_chunk, MemDataset.has_chunk.
        cbn [MemDataset.set_chunks MemDataset.data_chunks]. rewrite Hidx'.
        by rewrite bool_decide_eq_true_2 by (by eexists).
      * unfold MemDataset.has_chunk.
        cbn [MemDataset.set_chunks MemDataset.data_chunks].
        rewrite lookup_delete_eq.
        by rewrite bool_decide_eq_false_2 by (by intros [? ?]).
      * unfold MemDataset.get_chunk.
        cbn [MemDataset.set_chunks MemDataset.data_chunks MemDataset.name
             MemDataset.shape MemDataset.dtype MemDataset.fillvalue
             MemDataset.chunk_grid MemDataset.chunk_size].
        rewrite lookup_delete_eq.
        rewrite (mem_create_chunk_fresh _ idx chunk);
          cbn [MemDataset.set_chunks MemDataset.data_chunks MemDataset.name
               MemDataset.shape MemDataset.dtype MemDataset.fillvalue
               MemDataset.chunk_grid MemDataset.chunk_size self];
          [|apply lookup_delete_eq|done].
        unfold MemDataset.set_chunks.
        cbn [MemDataset.data_chunks MemDataset.name
             MemDataset.shape MemDataset.dtype MemDataset.fillvalue
             MemDataset.chunk_grid MemDataset.chunk_size].
        by rewrite insert_delete_eq, (insert_id _ _ _ Hidx').
Qed.

Lemma mem_dataset_populated_witness :
  ∃ ds chunk,
    MemDataset.init "d" [10; 7] "float32" 0 [4; 2] [3; 4] = MemOK ds
    ∧ (∀ idx, MemDataset.data_chunks ds !! idx
              = if decide (in_box idx [4; 2]) then Some (Some chunk) else None)
    ∧ (∀ idx, MemDataset.has_chunk ds idx = bool_decide (in_box idx [4; 2]))
    ∧ (arr_shape (MemDataChunk.data chunk) = [3; 4]
       ∧ ∀ q, in_box q [3; 4] → arr_cells (MemDataChunk.data chunk) !!! q = 0)
    ∧ ∀ idx, in_box idx [4; 2] →
        (∀ data sl, MemDataset.create_chunk ds idx data sl
                    = (MemChunkExists idx, ds))
        ∧ MemDataset.get_chunk ds idx = (MemOK (Some chunk), ds)
        ∧ ∃ ds', MemDataset.del_chunk ds idx = (true, ds')
            ∧ MemDataset.has_chunk ds' idx = false
            ∧ MemDataset.get_chunk ds' idx = (MemOK (Some chunk), ds).
Proof.
  apply (mem_dataset_populated "d" [10; 7] "float32" 0 [4; 2] [3; 4]);
    repeat constructor; lia.
Defined.
